(** * Certen pending-actions service: discovery engine

    A shallow embedding of the TypeScript sources of the pending
    discovery service (URL and hash canonicalisation, the counting
    semaphore, the ledger client, the signing-path explorer, the
    three-phase discovery, the inbox reconciler and the poller), and the
    properties of the specification checked against it.

    Conventions of the embedding.
    - A JavaScript string is a [string]; only its ASCII behaviour is
      modelled ([toLowerCase] maps A-Z, [trim] removes the ASCII white
      space characters 9-13 and 32).
    - A JavaScript number is a [Z]: the ledger's counts, codes and
      indices are integers.
    - [Map<string, V>] keeps insertion order: it is an association list
      with unique keys ([JsMap]); a [Set<string>] that is iterated is a
      duplicate-free list ([JsSet]), one that is only probed is a [gset].
    - A function that can throw returns an [option]; [None] is the
      exception.  [try { ... } catch] is a [match] on that option.
    - An [async] function is run to completion; interleavings matter in
      the poller only and are modelled there as a transition system. *)

From Stdlib Require Import ZArith Lia Ascii String List Bool.
From stdpp Require Import base option list strings gmap pretty.

Set Warnings "-register-all,-clear-no-such-hyp".
Local Open Scope Z_scope.

(* ===================================================================== *)
(** * Part I: the embedding                                               *)
(* ===================================================================== *)

(** ** JavaScript string primitives *)

Module JsString.

Definition lower_char (c : ascii) : ascii :=
  let n := nat_of_ascii c in
  if (Nat.leb 65 n && Nat.leb n 90)%bool then ascii_of_nat (n + 32) else c.

(** [s.toLowerCase()] *)
Fixpoint toLowerCase (s : string) : string :=
  match s with
  | EmptyString => EmptyString
  | String c r => String (lower_char c) (toLowerCase r)
  end.

Definition is_ws (c : ascii) : bool := Ascii.is_space c.

Fixpoint trimStart (s : string) : string :=
  match s with
  | EmptyString => EmptyString
  | String c r => if is_ws c then trimStart r else s
  end.

Fixpoint trimEnd (s : string) : string :=
  match s with
  | EmptyString => EmptyString
  | String c r =>
      match trimEnd r with
      | EmptyString => if is_ws c then EmptyString else String c EmptyString
      | r' => String c r'
      end
  end.

(** [s.trim()] *)
Definition trim (s : string) : string := trimEnd (trimStart s).

(** [s.startsWith(p)] *)
Fixpoint startsWith (p s : string) : bool :=
  match p, s with
  | EmptyString, _ => true
  | String a p', String b s' => if decide (a = b) then startsWith p' s' else false
  | String _ _, EmptyString => false
  end.

(** [s.substring(n)] *)
Fixpoint substring_from (n : nat) (s : string) : string :=
  match n, s with
  | O, _ => s
  | S n', String _ r => substring_from n' r
  | S _, EmptyString => EmptyString
  end.

(** [s.substring(0, n)] *)
Fixpoint substring_to (n : nat) (s : string) : string :=
  match n, s with
  | O, _ => EmptyString
  | S n', String c r => String c (substring_to n' r)
  | S _, EmptyString => EmptyString
  end.

(** [s.indexOf(c)] for a one-character needle; [None] is the result -1. *)
Fixpoint indexOf (c : ascii) (s : string) : option nat :=
  match s with
  | EmptyString => None
  | String a r => if decide (a = c) then Some O else S <$> indexOf c r
  end.

(** [s.endsWith(c)] for a one-character suffix. *)
Fixpoint endsWith_char (c : ascii) (s : string) : bool :=
  match s with
  | EmptyString => false
  | String a EmptyString => bool_decide (a = c)
  | String _ r => endsWith_char c r
  end.

(** [s.slice(0, -1)] *)
Fixpoint slice_0_m1 (s : string) : string :=
  match s with
  | EmptyString => EmptyString
  | String _ EmptyString => EmptyString
  | String a r => String a (slice_0_m1 r)
  end.

(** [!s]: the empty string is the only falsy string. *)
Definition is_empty (s : string) : bool :=
  match s with EmptyString => true | _ => false end.

(** [parts.join(sep)] *)
Fixpoint join (sep : string) (parts : list string) : string :=
  match parts with
  | [] => ""
  | [p] => p
  | p :: rest => p +:+ sep +:+ join sep rest
  end.

(** Notions used to state properties of the functions above. *)

(** [s] is its own lower-case form. *)
Definition lowered (s : string) : Prop := toLowerCase s = s.

(** [s] is empty or starts with a character that [trim] keeps. *)
Definition head_ok (s : string) : bool :=
  match s with
  | EmptyString => true
  | String c _ => negb (is_ws c)
  end.

(** [c] does not occur in [s], or occurs first at index 0. *)
Definition settled (c : ascii) (s : string) : Prop :=
  indexOf c s = None \/ indexOf c s = Some O.

(** The part of [s] before the first [c]. *)
Fixpoint until (c : ascii) (s : string) : string :=
  match s with
  | EmptyString => EmptyString
  | String a r => if decide (a = c) then EmptyString else String a (until c r)
  end.

(** [s.lastIndexOf(c)] for a one-character needle; [None] is -1. *)
Fixpoint lastIndexOf (c : ascii) (s : string) : option nat :=
  match s with
  | EmptyString => None
  | String a r =>
      match lastIndexOf c r with
      | Some i => Some (S i)
      | None => if decide (a = c) then Some O else None
      end
  end.

(** The characters of [s] from its end to its start. *)
Fixpoint reverse (s : string) : string :=
  match s with
  | EmptyString => EmptyString
  | String a r => reverse r +:+ String a EmptyString
  end.

(** The character class [\d]. *)
Definition is_digit (c : ascii) : bool :=
  let n := nat_of_ascii c in ((48 <=? n) && (n <=? 57))%nat.

Fixpoint skip_digits (s : string) : string :=
  match s with
  | EmptyString => EmptyString
  | String a r => if is_digit a then skip_digits r else s
  end.

(** [/p$/i.test(s)] for a pattern [p] of lower-case literals. *)
Definition ends_with (p s : string) : bool :=
  startsWith (reverse p) (reverse (toLowerCase s)).

(** [/p\d+$/i.test(s)] for a pattern [p] of lower-case literals: [s]
    ends with [p] followed by one digit or more. *)
Definition ends_with_number_after (p s : string) : bool :=
  let fromEnd := reverse (toLowerCase s) in
  let beforeDigits := skip_digits fromEnd in
  ((String.length beforeDigits <? String.length fromEnd)%nat
   && startsWith (reverse p) beforeDigits)%bool.

(** *** [encodeURIComponent] and [decodeURIComponent]

    Here a string is read as the sequence of its UTF-8 bytes, which for
    ASCII text are its characters.  [encodeURIComponent] keeps the
    bytes of the unreserved characters and writes every other byte as
    [%XX]; [decodeURIComponent] reads [%XX] back into a byte and throws
    a URIError ([None]) on a malformed escape and on escaped bytes
    that are not the UTF-8 encoding of a code point. *)

Definition is_unreserved (c : ascii) : bool :=
  let n := nat_of_ascii c in
  ((65 <=? n) && (n <=? 90) || (97 <=? n) && (n <=? 122) || (48 <=? n) && (n <=? 57)
   || bool_decide (c ∈ ["-"; "_"; "."; "!"; "~"; "*"; "'"; "("; ")"]%char))%nat%bool.

Definition hex_digit (n : nat) : ascii :=
  ascii_of_nat (if (n <? 10)%nat then 48 + n else 55 + n).

Definition hex_value (c : ascii) : option nat :=
  let n := nat_of_ascii c in
  if ((48 <=? n) && (n <=? 57))%nat then Some (n - 48)%nat
  else if ((65 <=? n) && (n <=? 70))%nat then Some (n - 55)%nat
  else if ((97 <=? n) && (n <=? 102))%nat then Some (n - 87)%nat
  else None.

Fixpoint encodeURIComponent (s : string) : string :=
  match s with
  | EmptyString => EmptyString
  | String c r =>
      if is_unreserved c then String c (encodeURIComponent r)
      else
        let n := nat_of_ascii c in
        String "%" (String (hex_digit (n / 16)) (String (hex_digit (n mod 16))
                                                    (encodeURIComponent r)))
  end.

(** The bytes of [s], each marked as written in escaped form or not. *)
Fixpoint unescape (s : string) : option (list (bool * ascii)) :=
  match s with
  | EmptyString => Some []
  | String c r =>
      if decide (c = "%"%char) then
        match r with
        | String h (String l r') =>
            match hex_value h, hex_value l with
            | Some a, Some b => cons (true, ascii_of_nat (16 * a + b)) <$> unescape r'
            | _, _ => None
            end
        | _ => None
        end
      else cons (false, c) <$> unescape r
  end.

Definition between (n lo hi : nat) : bool := ((lo <=? n) && (n <=? hi))%nat.
Definition continuation (n : nat) : bool := between n 128 191.

(** The well-formed UTF-8 sequences of two, three and four bytes. *)
Definition two_bytes (n0 n1 : nat) : bool := between n0 194 223 && continuation n1.
Definition three_bytes (n0 n1 n2 : nat) : bool :=
  ((n0 =? 224)%nat && between n1 160 191 || between n0 225 236 && continuation n1
   || (n0 =? 237)%nat && between n1 128 159 || between n0 238 239 && continuation n1)
  && continuation n2.
Definition four_bytes (n0 n1 n2 n3 : nat) : bool :=
  ((n0 =? 240)%nat && between n1 144 191 || between n0 241 243 && continuation n1
   || (n0 =? 244)%nat && between n1 128 143)
  && continuation n2 && continuation n3.

Fixpoint assemble (octets : list (bool * ascii)) : option string :=
  match octets with
  | [] => Some EmptyString
  | (false, c) :: rest => String c <$> assemble rest
  | (true, b0) :: rest =>
      let n0 := nat_of_ascii b0 in
      if (n0 <? 128)%nat then String b0 <$> assemble rest
      else
        match rest with
        | (true, b1) :: rest1 =>
            let n1 := nat_of_ascii b1 in
            if two_bytes n0 n1
            then (fun t => String b0 (String b1 t)) <$> assemble rest1
            else
              match rest1 with
              | (true, b2) :: rest2 =>
                  let n2 := nat_of_ascii b2 in
                  if three_bytes n0 n1 n2
                  then (fun t => String b0 (String b1 (String b2 t))) <$> assemble rest2
                  else
                    match rest2 with
                    | (true, b3) :: rest3 =>
                        if four_bytes n0 n1 n2 (nat_of_ascii b3)
                        then (fun t => String b0 (String b1 (String b2 (String b3 t))))
                               <$> assemble rest3
                        else None
                    | _ => None
                    end
              | _ => None
              end
        | _ => None
        end
  end.

Definition decodeURIComponent (s : string) : option string :=
  match unescape s with
  | Some octets => assemble octets
  | None => None
  end.

(** A notion of the statements: a character of the ASCII range. *)
Definition is_ascii (c : ascii) : bool := (nat_of_ascii c <? 128)%nat.

(** A notion of the proofs: every character of [s] satisfies [f]. *)
Fixpoint all_chars (f : ascii -> bool) (s : string) : bool :=
  match s with
  | EmptyString => true
  | String a r => f a && all_chars f r
  end.

(** *** [Number.prototype.toString] of an integer

    A JavaScript number is a double.  [toDouble v] is the double nearest
    to the non-negative integer [v], ties going to the even significand;
    every integer below [2^53] is a double.  A number is printed with
    the fewest significant digits that read back as the same double
    ([shortest], which tries the multiples of [10^p] next to it, from
    the largest [p] down), in full up to 21 digits and in exponent
    notation beyond. *)

Definition toDouble (v : Z) : Z :=
  if v <? 2 ^ 53 then v
  else
    let ulp := 2 ^ (Z.log2 v - 52) in
    let q := v / ulp in
    let r := v mod ulp in
    if 2 * r <? ulp then q * ulp
    else if ulp <? 2 * r then (q + 1) * ulp
    else if Z.even q then q * ulp else (q + 1) * ulp.

(** The integers that are JavaScript numbers. *)
Definition isNumber (x : Z) : bool :=
  ((toDouble (Z.abs x) =? Z.abs x) && (Z.abs x <? 2 ^ 1024))%bool.

(** The two multiples of [10^p] next to [x], the nearer one first, the
    even multiple first when they are equally near. *)
Definition around (x : Z) (p : nat) : list Z :=
  let u := 10 ^ Z.of_nat p in
  let s := x / u in
  let lo := s * u in
  let hi := (s + 1) * u in
  if x - lo <? hi - x then [lo; hi]
  else if hi - x <? x - lo then [hi; lo]
  else if Z.even s then [lo; hi] else [hi; lo].

Fixpoint shortest (x : Z) (p : nat) : Z :=
  match p with
  | O => x
  | S p' =>
      match List.filter (fun v => toDouble v =? x) (around x p) with
      | v :: _ => v
      | [] => shortest x p'
      end
  end.

(** A digit string without its trailing zeros. *)
Fixpoint significand (s : string) : string :=
  match s with
  | EmptyString => EmptyString
  | String c r =>
      match significand r with
      | EmptyString => if decide (c = "0"%char) then EmptyString else String c EmptyString
      | r' => String c r'
      end
  end.

Definition fraction (rest : string) : string :=
  if is_empty (significand rest) then "" else "." +:+ significand rest.

(** [d.ddde+n] *)
Definition exponential (digits : string) : string :=
  match digits with
  | EmptyString => EmptyString
  | String d rest =>
      String d (fraction rest +:+ String "e" (String "+" (pretty (String.length rest))))
  end.

(** The digits after the sign. *)
Definition magnitude (a : Z) : string :=
  let v := if a <? 2 ^ 53 then a else shortest a (Z.to_nat (Z.log2 a)) in
  if v <? 10 ^ 21 then pretty v else exponential (pretty v).

(** [String(x)] and [`${x}`] for a number [x]. *)
Definition numberToString (x : Z) : string :=
  (if x <? 0 then "-" else "") +:+ magnitude (Z.abs x).

(** Notions of the proofs: the characters of a printed number, those of
    its fraction, and a run of zeros. *)
Definition numeral_char (c : ascii) : bool :=
  (is_digit c || bool_decide (c = "-"%char) || bool_decide (c = "."%char)
   || bool_decide (c = "e"%char) || bool_decide (c = "+"%char))%bool.

Definition digit_or_point (c : ascii) : bool :=
  (is_digit c || bool_decide (c = "."%char))%bool.

Fixpoint zeros (k : nat) : string :=
  match k with O => "" | S k' => String "0" (zeros k') end.

End JsString.

(** ** src/utils/url-normalizer.ts *)

Module UrlNormalizer.
Import JsString.

Definition normalizeUrl (url : string) : string :=
  if is_empty url then ""
  else
    let normalized := trim (toLowerCase url) in
    let normalized :=
      if startsWith "acc://" normalized then normalized
      else if startsWith "acc:" normalized
           then "acc://" +:+ substring_from 4 normalized
           else "acc://" +:+ normalized in
    if endsWith_char "/" normalized then slice_0_m1 normalized else normalized.

Definition extractAdiFromUrl (url : string) : string :=
  let normalized := normalizeUrl url in
  if is_empty normalized then ""
  else
    let path := substring_from 6 normalized in
    match indexOf "/" path with
    | None => normalized
    | Some slashIndex => "acc://" +:+ substring_to slashIndex path
    end.

(** The other exports of the file. *)

Definition urlsEqual (url1 url2 : string) : bool :=
  bool_decide (normalizeUrl url1 = normalizeUrl url2).

Definition getPathFromUrl (url : string) : string :=
  let normalized := normalizeUrl url in
  if is_empty normalized then ""
  else
    let path := substring_from 6 normalized in
    match indexOf "/" path with
    | None => ""
    | Some slashIndex => substring_from slashIndex path
    end.

(** [/\/book(s)?\/\d+$/i.test(normalized) || /\/page\/\d+$/i.test(normalized)] *)
Definition isKeyPageUrl (url : string) : bool :=
  let normalized := normalizeUrl url in
  (ends_with_number_after "/book/" normalized
   || ends_with_number_after "/books/" normalized
   || ends_with_number_after "/page/" normalized)%bool.

(** [/\/book(s)?$/i.test(normalized)] *)
Definition isKeyBookUrl (url : string) : bool :=
  let normalized := normalizeUrl url in
  (ends_with "/book" normalized || ends_with "/books" normalized)%bool.

Definition getKeyBookFromKeyPage (keyPageUrl : string) : string :=
  let normalized := normalizeUrl keyPageUrl in
  match lastIndexOf "/" normalized with
  | Some lastSlash =>
      if (6 <? lastSlash)%nat then substring_to lastSlash normalized else normalized
  | None => normalized
  end.

(** [`${normalizeUrl(keyBookUrl)}/${pageNumber}`]; the page number is an
    integer. *)
Definition buildKeyPageUrl (keyBookUrl : string) (pageNumber : Z) : string :=
  normalizeUrl keyBookUrl +:+ "/" +:+ numberToString pageNumber.

Definition urlStartsWithAdi (url adiUrl : string) : bool :=
  startsWith (normalizeUrl adiUrl) (normalizeUrl url).

Definition encodeUrlForDocId (url : string) : string :=
  encodeURIComponent (normalizeUrl url).

(** [None] is the URIError of [decodeURIComponent]. *)
Definition decodeDocIdToUrl (docId : string) : option string :=
  decodeURIComponent docId.

End UrlNormalizer.

(** ** src/utils/hash-normalizer.ts *)

Module HashNormalizer.
Import JsString.

(** The [indexOf]/[substring] pair of the source: the string is cut at
    the first occurrence of [c] when that occurrence is not at index 0. *)
Definition cut_after_first (c : ascii) (s : string) : string :=
  match indexOf c s with
  | Some (S i) => substring_to (S i) s
  | _ => s
  end.

(** The prefixes are removed in sequence, each at most once. *)
Definition strip_prefixes (s : string) : string :=
  let s := if startsWith "0x" s then substring_from 2 s else s in
  if startsWith "acc://" s then substring_from 6 s else s.

Definition normalizeHash (hash : string) : string :=
  if is_empty hash then ""
  else
    let normalized := toLowerCase (trim hash) in
    let normalized := strip_prefixes normalized in
    let normalized := cut_after_first "@" normalized in
    let normalized := cut_after_first "/" normalized in
    trim normalized.

Definition normalizePublicKeyHash (hash : string) : string := normalizeHash hash.

(** The earlier revision of the same file, kept in the repository
    history: lower-casing and the [0x] prefix only. *)
Definition normalizeHash_legacy (hash : string) : string :=
  if is_empty hash then ""
  else
    let normalized := toLowerCase hash in
    if startsWith "0x" normalized then substring_from 2 normalized else normalized.

(** The reference definition, following the words of the specification:
    "Trim, lowercase, strip leading 0x, strip leading acc://, then
    truncate at the first @ or / encountered.  Empty input yields empty
    output." *)
Fixpoint truncate_at_first (s : string) : string :=
  match s with
  | EmptyString => EmptyString
  | String a r =>
      if (bool_decide (a = "@"%char) || bool_decide (a = "/"%char))%bool
      then EmptyString
      else String a (truncate_at_first r)
  end.

Definition normalizeHash_reference (hash : string) : string :=
  truncate_at_first (strip_prefixes (toLowerCase (trim hash))).

(** The other exports of the file. *)

Definition formatHashForDisplay (hash : string) : string :=
  let normalized := normalizeHash hash in
  if is_empty normalized then "" else "0x" +:+ normalized.

Definition hashesEqual (hash1 hash2 : string) : bool :=
  bool_decide (normalizeHash hash1 = normalizeHash hash2).

Definition truncateHash (hash : string) : string :=
  let normalized := normalizeHash hash in
  if (String.length normalized <=? 16)%nat then normalized
  else substring_to 8 normalized +:+ "..."
       +:+ substring_from (String.length normalized - 6) normalized.

(** The character class [[0-9a-f]] under the flag [i]. *)
Definition is_hex (c : ascii) : bool :=
  let n := nat_of_ascii c in
  ((48 <=? n) && (n <=? 57) || (97 <=? n) && (n <=? 102) || (65 <=? n) && (n <=? 70))%nat.

Fixpoint all_hex (s : string) : bool :=
  match s with
  | EmptyString => true
  | String c r => is_hex c && all_hex r
  end.

(** [/^[0-9a-f]{32,128}$/i.test(normalized)] *)
Definition isValidHash (hash : string) : bool :=
  let normalized := normalizeHash hash in
  all_hex normalized
  && (32 <=? String.length normalized)%nat && (String.length normalized <=? 128)%nat.

Definition publicKeyHashInSet (hash : string) (hashSet : gset string) : bool :=
  bool_decide (normalizePublicKeyHash hash ∈ hashSet).

End HashNormalizer.

(** ** src/utils/retry.ts: the counting semaphore

    [waiting] holds the parked [resolve] callbacks in arrival order; a
    callback is named by the caller it resumes. *)

Module Semaphore.

Record t := mk { permits : Z; waiting : list nat }.

(** [new Semaphore(n)] *)
Definition create (n : Z) : t := mk n [].

(** [acquire()] called by [w]: the flag tells whether the promise is
    already resolved ([true]) or the caller is parked ([false]). *)
Definition acquire (w : nat) (s : t) : t * bool :=
  if 0 <? permits s
  then (mk (permits s - 1) (waiting s), true)
  else (mk (permits s) (waiting s ++ [w]), false).

(** [release()]: the list holds the callers whose [resolve] is invoked. *)
Definition release (s : t) : t * list nat :=
  let p := permits s + 1 in
  match waiting s with
  | next :: rest =>
      if 0 <? p then (mk (p - 1) rest, [next]) else (mk p (waiting s), [])
  | [] => (mk p [], [])
  end.

Definition getAvailable (s : t) : Z := permits s.
Definition getWaiting (s : t) : Z := Z.of_nat (length (waiting s)).

Inductive op := Acquire (w : nat) | Release.

Definition step (s : t) (o : op) : t :=
  match o with
  | Acquire w => fst (acquire w s)
  | Release => fst (release s)
  end.

Definition run (ops : list op) (s : t) : t := fold_left step ops s.

(** The invariant under study. *)
Definition inv (s : t) : Prop :=
  0 <= permits s /\ (waiting s <> [] -> permits s = 0).

(** What an observer of the promises sees during a run: the callers
    whose [acquire()] resolved at once, the callers that were parked, the
    callers a [release()] resumed (each list in the order of the events),
    and the number of [release()] calls. *)
Record log := mkLog {
  granted : list nat;
  parked : list nat;
  woken : list nat;
  releases : nat }.

Definition observe (st : t * log) (o : op) : t * log :=
  let '(s, l) := st in
  match o with
  | Acquire w =>
      let '(s', resolved) := acquire w s in
      (s', if resolved
           then mkLog (granted l ++ [w]) (parked l) (woken l) (releases l)
           else mkLog (granted l) (parked l ++ [w]) (woken l) (releases l))
  | Release =>
      let '(s', resumed) := release s in
      (s', mkLog (granted l) (parked l) (woken l ++ resumed) (S (releases l)))
  end.

Definition observed (ops : list op) (n : Z) : t * log :=
  fold_left observe ops (create n, mkLog [] [] [] O).

(** The semaphore with the callers of [release()] named: [Releases w]
    is a [release()] made by caller [w].  [holding] lists the callers
    that hold a permit, one entry per permit: a caller enters when its
    [acquire()] resolves, at once or on being resumed, and leaves with
    its own [release()]. *)
Inductive request := Acquires (w : nat) | Releases (w : nat).

Fixpoint leave (w : nat) (holding : list nat) : list nat :=
  match holding with
  | [] => []
  | x :: rest => if decide (x = w) then rest else x :: leave w rest
  end.

Definition serve (st : t * list nat) (r : request) : t * list nat :=
  let '(s, holding) := st in
  match r with
  | Acquires w =>
      let '(s', resolved) := acquire w s in
      (s', if resolved then holding ++ [w] else holding)
  | Releases w =>
      let '(s', resumed) := release s in
      (s', leave w holding ++ resumed)
  end.

(** The protocol of the poller, [await acquire(); try { ... } finally
    { release() }]: every [release()] is made by a caller that holds a
    permit at that time. *)
Fixpoint disciplined (st : t * list nat) (requests : list request) : bool :=
  match requests with
  | [] => true
  | r :: rest =>
      (match r with
       | Releases w => bool_decide (w ∈ snd st)
       | Acquires _ => true
       end && disciplined (serve st r) rest)%bool
  end.

End Semaphore.

(** ** src/utils/retry.ts: [withRetry]

    [fn] is an effectful thunk: [fn k] is what its invocation number [k]
    (counted from 0) does.  [calculateDelay] draws a random jitter and
    computes in floating point; the delay it returns for an attempt is
    the parameter [delayOf].  [isRetryable] is the predicate in force
    ([opts.isRetryable || isTransientError]).  The loop is a [while]; it
    is given a [fuel], and [None] means that the fuel ran out. *)

Module Retry.
Section WithRetry.
Context {T E : Type}.

Inductive attempted :=
| Fulfilled (v : T)
| Failed (error : E).

(** How [withRetry] ends: it returns a value or throws; the thrown value
    is [None] when it is [lastError] before any assignment
    ([undefined]). *)
Inductive outcome :=
| Returns (v : T)
| Throws (error : option E).

Record report := mkReport {
  result : outcome;
  invocations : nat;   (* the calls of [fn] made *)
  slept : list Z }.    (* the arguments of [sleep], in order *)

Variable fn : nat -> attempted.
Variable isRetryable : E -> bool.
Variable delayOf : Z -> Z.
Variable maxRetries : Z.

Fixpoint loop (fuel : nat) (attempt : Z) (lastError : option E)
    (calls : nat) (sleeps : list Z) : option report :=
  match fuel with
  | O => None
  | S fuel' =>
      if attempt <=? maxRetries then
        match fn calls with
        | Fulfilled v => Some (mkReport (Returns v) (S calls) sleeps)
        | Failed error =>
            if ((maxRetries <=? attempt) || negb (isRetryable error))%bool
            then Some (mkReport (Throws (Some error)) (S calls) sleeps)
            else loop fuel' (attempt + 1) (Some error) (S calls)
                      (sleeps ++ [delayOf attempt])
        end
      else Some (mkReport (Throws lastError) calls sleeps)
  end.

Definition withRetry (fuel : nat) : option report := loop fuel 0 None O [].

(** A notion of the statements: the delays of the attempts [0 .. n-1]. *)
Definition delays (n : nat) : list Z := List.map (fun k => delayOf (Z.of_nat k)) (seq 0 n).

(** A notion of the proofs: what a finished run of the loop looks like. *)
Definition retried (r : report) : Prop :=
  (1 <= invocations r)%nat
  /\ Z.of_nat (invocations r) <= maxRetries + 1
  /\ slept r = delays (invocations r - 1)
  /\ (forall k, (k < invocations r - 1)%nat ->
        exists e, fn k = Failed e /\ isRetryable e = true)
  /\ match result r with
     | Returns v => fn (invocations r - 1)%nat = Fulfilled v
     | Throws (Some e) =>
         fn (invocations r - 1)%nat = Failed e
         /\ (isRetryable e = false \/ Z.of_nat (invocations r) = maxRetries + 1)
     | Throws None => False
     end.

End WithRetry.
End Retry.

(** ** JavaScript values, as far as the ledger responses need them *)

Module Js.
Import JsString.

Inductive value :=
| VUndefined
| VNull
| VBool (b : bool)
| VNum (n : Z)
| VStr (s : string)
| VArr (items : list value)
| VObj (fields : list (string * value)).

Definition truthy (v : value) : bool :=
  match v with
  | VUndefined | VNull => false
  | VBool b => b
  | VNum n => negb (n =? 0)
  | VStr s => negb (is_empty s)
  | VArr _ | VObj _ => true
  end.

Fixpoint lookup_field (k : string) (fields : list (string * value)) : value :=
  match fields with
  | [] => VUndefined
  | (k', v) :: rest => if decide (k = k') then v else lookup_field k rest
  end.

(** [v.k] on a value known not to be null or undefined; the keys read by
    the sources are never own properties of arrays or primitives. *)
Definition field (v : value) (k : string) : value :=
  match v with
  | VObj fields => lookup_field k fields
  | _ => VUndefined
  end.

(** [v.k]; [None] is the TypeError raised on null and undefined. *)
Definition get (v : value) (k : string) : option value :=
  match v with
  | VUndefined | VNull => None
  | _ => Some (field v k)
  end.

(** [v?.k] *)
Definition get_opt (v : value) (k : string) : value :=
  match v with
  | VUndefined | VNull => VUndefined
  | _ => field v k
  end.

(** [a || b] *)
Definition or_else (a b : value) : value := if truthy a then a else b.

(** [typeof v === 'object' && v !== null] *)
Definition is_object (v : value) : bool :=
  match v with VArr _ | VObj _ => true | _ => false end.

(** [typeof v === 'string' && v.length > 0] *)
Definition nonempty_string (v : value) : option string :=
  match v with
  | VStr s => if is_empty s then None else Some s
  | _ => None
  end.

(** [v === s] for a string literal [s] *)
Definition is_str (v : value) (s : string) : bool :=
  match v with VStr s' => bool_decide (s' = s) | _ => false end.

(** [Array.isArray(v)] *)
Definition as_array (v : value) : option (list value) :=
  match v with VArr items => Some items | _ => None end.

Fixpoint chars (s : string) : list value :=
  match s with
  | EmptyString => []
  | String c r => VStr (String c EmptyString) :: chars r
  end.

(** [for (const x of v)]; [None] is the TypeError of a non-iterable. *)
Definition iterate (v : value) : option (list value) :=
  match v with
  | VArr items => Some items
  | VStr s => Some (chars s)
  | _ => None
  end.

(** [String(v)] *)
Fixpoint to_string (v : value) : string :=
  match v with
  | VUndefined => "undefined"
  | VNull => "null"
  | VBool true => "true"
  | VBool false => "false"
  | VNum n => numberToString n
  | VStr s => s
  | VArr items =>
      join "," (List.map (fun x => match x with
                                   | VUndefined | VNull => ""
                                   | _ => to_string x
                                   end) items)
  | VObj _ => "[object Object]"
  end.

End Js.

(** ** Insertion-ordered [Map<string, V>] and [Set<string>] *)

Module JsMap.
Section WithValue.
Context {V : Type}.

Fixpoint get (k : string) (m : list (string * V)) : option V :=
  match m with
  | [] => None
  | (k', v) :: rest => if decide (k = k') then Some v else get k rest
  end.

Definition has (k : string) (m : list (string * V)) : bool :=
  match get k m with Some _ => true | None => false end.

(** [m.set(k, v)]: an existing key keeps its position. *)
Fixpoint set (k : string) (v : V) (m : list (string * V)) : list (string * V) :=
  match m with
  | [] => [(k, v)]
  | (k', v') :: rest =>
      if decide (k = k') then (k, v) :: rest else (k', v') :: set k v rest
  end.

Definition keys (m : list (string * V)) : list string := List.map fst m.
Definition values (m : list (string * V)) : list V := List.map snd m.

End WithValue.
End JsMap.

Module JsSet.

Definition has (x : string) (s : list string) : bool := bool_decide (x ∈ s).

(** [s.add(x)] *)
Definition add (x : string) (s : list string) : list string :=
  if has x s then s else s ++ [x].

(** [new Set(xs)] *)
Definition of_list (xs : list string) : list string :=
  fold_left (fun s x => add x s) xs [].

(** A notion of the proofs: [s'] is [s] after some [add]s. *)
Definition extends (s s' : list string) : Prop :=
  (NoDup s -> NoDup s')
  /\ (forall x, x ∈ s -> x ∈ s')
  /\ (forall h, head s = Some h -> head s' = Some h).

End JsSet.

(** ** src/types: the records the services exchange

    Timestamps are milliseconds.  Fields that no modelled function reads
    (contact fields of a user, balances, [version], [threshold] and
    [lastUsedOn] of a key page, [discoveredAt] of a path) and fields
    that hold a constant (the [type] of a key page and of an inbox
    document) are left out. *)

Module Types.

Inductive Vote := approve | reject | abstain.

Record AccumulateSignature := mkSig {
  sig_signer : string;
  sig_publicKeyHash : string;
  sig_signature : string;
  sig_timestamp : Z;
  sig_vote : option Vote;
  sig_transactionHash : option string }.

Record AccumulatePendingTx := mkTx {
  tx_txId : string;
  tx_hash : string;
  tx_principal : string;
  tx_type : string;
  tx_status : string;
  tx_signatures : list AccumulateSignature;
  tx_expiresAt : option Z;
  tx_data : Js.value }.

Record AccumulateKeyEntry := mkKey {
  ake_publicKeyHash : string;
  ake_delegate : option string;
  ake_keyType : option string }.

Record AccumulateKeyPage := mkPage {
  akp_url : string;
  akp_keys : list AccumulateKeyEntry }.

Inductive KeyEntryType := key | delegate.

Record CertenKeyEntry := mkEntry {
  cke_type : KeyEntryType;
  cke_publicKeyHash : option string;
  cke_keyType : option string;
  cke_delegateUrl : option string }.

Record CertenKeyPage := mkCPage {
  ckp_url : string;
  ckp_entries : list CertenKeyEntry }.

Record CertenKeyBook := mkBook {
  ckb_url : string;
  ckb_keyPages : list CertenKeyPage }.

Record CertenAdi := mkAdi {
  adiUrl : string;
  keyBooks : list CertenKeyBook;
  accounts : list string (* the [url] of each stored account *) }.

Record CertenUserWithAdis := mkUser {
  uid : string;
  adis : list CertenAdi }.

Record SigningPath := mkPath {
  path : string;
  hops : list string;
  finalSigner : string }.

Inductive Category := initiated_by_user | requiring_signature.

Record EligibleTransaction := mkEligible {
  et_tx : AccumulatePendingTx;
  et_eligiblePaths : list string;
  et_category : Category }.

Record DiscoveryResult := mkDiscovery {
  eligibleTransactions : list EligibleTransaction;
  totalCount : Z;
  signatures : list (string * list AccumulateSignature) }.

Record SignatureRecord := mkSigRec {
  sr_signer : string;
  sr_publicKeyHash : string;
  sr_vote : Vote;
  sr_signedAt : Z }.

Inductive ActionStatus := st_pending | st_awaiting_signatures | st_partially_signed.

Record PendingActionDocument := mkDoc {
  pad_id : string;
  pad_category : Category;
  pad_status : ActionStatus;
  pad_txHash : string;
  pad_txId : string;
  pad_principal : string;
  pad_transactionType : string;
  pad_collectedSignatures : Z;
  pad_signatures : list SignatureRecord;
  pad_eligibleSigningPaths : list string;
  pad_userHasSigned : bool;
  pad_createdAt : Z;
  pad_updatedAt : Z;
  pad_expiresAt : option Z;
  pad_discoveredAt : Z }.

Record ComputedPendingState := mkComputed {
  cps_count : Z;
  cps_urgentCount : Z;
  cps_initiatedCount : Z;
  cps_requiresSignatureCount : Z;
  cps_txHashes : list string;
  cps_computedAt : Z;
  cps_cycleToken : string }.

Record UpdateResult := mkUpdate {
  ur_success : bool;
  ur_added : Z;
  ur_removed : Z;
  ur_cycleToken : string }.

Record PollStats := mkStats {
  totalUsers : Z;
  processedUsers : Z;
  skippedUsers : Z;
  failedUsers : Z;
  totalPending : Z;
  firestoreWrites : Z;
  duration : Z }.

Definition createPollStats : PollStats := mkStats 0 0 0 0 0 0 0.

(** The [params] object of the single JSON-RPC method [query].  The
    [count] of a chain query is whatever value the caller passes.
    [QChainCoerced maxEntries total] is the chain query whose range
    JavaScript derives from a [total] that is a string or an array, by
    converting its text to a number: [start] is [total - maxEntries] and
    [count] is [maxEntries] when that number exceeds [maxEntries], else
    [start] is 0 and [count] is [total] itself. *)
Inductive Query :=
| QPending (start count : Z)
| QChain (start : Z) (count : Js.value) (expand : bool)
| QChainCoerced (maxEntries : Z) (total : Js.value)
| QDirectory (start count : Z).

Inductive Params :=
| PScope (scope : string)
| PScopeQuery (scope : string) (query : Query)
| PTxid (txid : string).

End Types.

(** ** clients/accumulate.client.ts

    [call] is the private JSON-RPC method (retries included): [Some r] is
    the [result] member of the reply, [None] a thrown error (transport
    failure, time-out, or an [error] envelope).  The transaction parser
    [parseTransactionResponse] is kept as a parameter: it returns the
    parsed transaction or [None] for [null], and every statement below
    holds for each parser. *)

Module AccumulateClient.
Import JsString Js Types UrlNormalizer HashNormalizer.

Section Client.
Variable call : Params -> option value.
Variable parseTransactionResponse : value -> string -> option AccumulatePendingTx.

(** [extractTxIdsFromRecords], one record. *)
Definition extractTxId (rec : value) : option string :=
  if is_object rec then
    let v := field rec "value" in
    match nonempty_string v with
    | Some s => Some s
    | None =>
        let from_value :=
          if is_object v then
            match nonempty_string
                    (or_else (or_else (field v "txID") (field v "txId")) (field v "id")) with
            | Some s => Some s
            | None =>
                if is_object (field v "message")
                then nonempty_string (field (field v "message") "txID")
                else None
            end
          else None in
        match from_value with
        | Some s => Some s
        | None => nonempty_string (or_else (field rec "txid") (field rec "hash"))
        end
    end
  else
    match rec with
    | VStr s => if startsWith "acc://" s then Some s else None
    | _ => None
    end.

Definition extractTxIdsFromRecords (records : list value) : list string :=
  omap extractTxId records.

(** The record array of one page of a pending query, in the three
    shapes the source probes; [None] is the [break] of the last [else]. *)
Definition pendingRecords (response pending : value) : option (list value) :=
  match (if truthy pending then as_array (field pending "records") else None) with
  | Some records => Some records
  | None =>
      match (if is_str (field response "recordType") "range"
             then as_array (field response "records") else None) with
      | Some records => Some records
      | None => as_array (field response "items")
      end
  end.

(** The page loop of [queryPendingTxIds]; [pages] counts the iterations
    left.  [None]: the TypeError of reading [response.pending] on a null
    result, which the source does not catch. *)
Fixpoint pendingPages (pages : nat) (scope : string) (pageSize start : Z)
    (txIds : list string) : option (list string) :=
  match pages with
  | O => Some txIds
  | S pages' =>
      match call (PScopeQuery (normalizeUrl scope) (QPending start pageSize)) with
      | None => Some txIds
      | Some response =>
          match get response "pending" with
          | None => None
          | Some pending =>
              match pendingRecords response pending with
              | None => Some txIds
              | Some records =>
                  let txIds := txIds ++ extractTxIdsFromRecords records in
                  let n := Z.of_nat (length records) in
                  if n <? pageSize then Some txIds
                  else
                    match field response "total" with
                    | VNum total =>
                        if total <=? start + n then Some txIds
                        else pendingPages pages' scope pageSize (start + n) txIds
                    | _ => pendingPages pages' scope pageSize (start + n) txIds
                    end
              end
          end
      end
  end.

(** The final [filter] of [queryPendingTxIds]. *)
Fixpoint dedupe (seen : list string) (ids : list string) : list string :=
  match ids with
  | [] => []
  | id :: rest =>
      if (is_empty id || JsSet.has id seen)%bool then dedupe seen rest
      else id :: dedupe (JsSet.add id seen) rest
  end.

Definition queryPendingTxIds (scope : string) (pageSize : Z) (maxPages : nat)
    : option (list string) :=
  dedupe [] <$> pendingPages maxPages scope pageSize 0 [].

(** Never throws; [None] is [null]. *)
Definition queryTransaction (txHashOrId : string) : option AccumulatePendingTx :=
  match call (PTxid txHashOrId) with
  | None => None
  | Some response => parseTransactionResponse response txHashOrId
  end.

(** Never throws; a failed call gives [null]. *)
Definition queryTransactionRaw (txHashOrId : string) : value :=
  match call (PTxid txHashOrId) with
  | None => VNull
  | Some response => response
  end.

(** [None]: the exception of [queryPendingTxIds] passes through. *)
Definition queryPending (scope : string) (count : Z) : option (list AccumulatePendingTx) :=
  match queryPendingTxIds scope count 20 with
  | None => None
  | Some txIds => Some (omap queryTransaction txIds)
  end.

(** The three probes of [queryKeyBookPageCount] on a reply. *)
Definition pageCountOf (response : value) : option Z :=
  account ← get response "account";
  data ← get response "data";
  match is_str (get_opt account "type") "keyBook", get_opt account "pageCount" with
  | true, VNum n => Some n
  | _, _ =>
      match is_str (get_opt data "type") "keyBook", get_opt data "pageCount" with
      | true, VNum n => Some n
      | _, _ =>
          match field response "pageCount" with
          | VNum n => Some n
          | _ => Some 0
          end
      end
  end.

Definition queryKeyBookPageCount (keyBookUrl : string) : Z :=
  match call (PScope (normalizeUrl keyBookUrl)) with
  | None => 0
  | Some response => default 0 (pageCountOf response)
  end.

(** One raw entry of [response.keys]; the outer [None] is the TypeError
    of reading a property of a null entry. *)
Definition parseKey (keyObj : value) : option (option AccumulateKeyEntry) :=
  d ← get keyObj "delegate";
  if truthy d then Some (Some (mkKey "" (Some (to_string d)) None))
  else
    let h := field keyObj "publicKeyHash" in
    if truthy h
    then Some (Some (mkKey (normalizeHash (to_string h)) None
                       (if truthy (field keyObj "keyType")
                        then Some (to_string (field keyObj "keyType")) else None)))
    else Some None.

Fixpoint parseKeys (rawKeys : list value) : option (list AccumulateKeyEntry) :=
  match rawKeys with
  | [] => Some []
  | k :: rest =>
      e ← parseKey k;
      es ← parseKeys rest;
      Some (match e with Some e => e :: es | None => es end)
  end.

(** Never throws; [None] is [null]. *)
Definition queryKeyPage (keyPageUrl : string) : option AccumulateKeyPage :=
  response ← call (PScope (normalizeUrl keyPageUrl));
  if negb (truthy response) then None
  else if negb (is_str (field response "type") "keyPage") then None
  else
    rawKeys ← iterate (or_else (field response "keys") (VArr []));
    keys ← parseKeys rawKeys;
    Some (mkPage (normalizeUrl keyPageUrl) keys).

(** [records.length] of a truthy value: the length of an array or a
    string, the [length] member of an object, [undefined] for a number
    or a boolean. *)
Definition lengthOf (v : value) : value :=
  match v with
  | VArr items => VNum (Z.of_nat (length items))
  | VStr s => VNum (Z.of_nat (String.length s))
  | VObj fields => lookup_field "length" fields
  | _ => VUndefined
  end.

(** The body of [querySignatureChain] once the range is known: the
    [records] and the [total] of the reply.  Never throws. *)
Definition chainReply (url : string) (query : Query) : value * value :=
  match call (PScopeQuery (normalizeUrl url) query) with
  | None => (VArr [], VNum 0)
  | Some response =>
      match get response "records" with
      | None => (VArr [], VNum 0)
      | Some r =>
          let records := or_else r (VArr []) in
          (records,
           match field response "total" with
           | VNum total => VNum total
           | _ => lengthOf records
           end)
      end
  end.

(** [querySignatureChain(url, { start, count, expand })]: a [count] that
    is [undefined] is 100. *)
Definition querySignatureChain (url : string) (start : Z) (count : value) (expand : bool)
    : value * value :=
  chainReply url
    (QChain start (match count with VUndefined => VNum 100 | _ => count end) expand).

(** One directory record; the outer [None] is the TypeError on a null
    record, the inner one the skipped record. *)
Definition directoryUrl (record : value) : option (option string) :=
  match record with
  | VStr s => Some (Some (normalizeUrl s))
  | _ =>
      v ← get record "value";
      let url := or_else (or_else v (field record "url"))
                         (get_opt (field record "account") "url") in
      match url with
      | VStr s => Some (Some (normalizeUrl s))
      | _ => Some None
      end
  end.

Fixpoint directoryUrls (records : list value) : option (list string) :=
  match records with
  | [] => Some []
  | r :: rest =>
      u ← directoryUrl r;
      us ← directoryUrls rest;
      Some (match u with Some u => u :: us | None => us end)
  end.

(** Never throws. *)
Definition queryDirectory (adiUrl : string) (count : Z) : list string :=
  match call (PScopeQuery (normalizeUrl adiUrl) (QDirectory 0 count)) with
  | None => []
  | Some response =>
      match get response "records" with
      | None => []
      | Some r =>
          let records :=
            or_else (or_else r (field response "entries")) (field response "items") in
          if negb (truthy records) then []
          else
            match as_array records with
            | None => []
            | Some items => default [] (directoryUrls items)
            end
      end
  end.

Definition accountExists (url : string) : bool :=
  match call (PScope (normalizeUrl url)) with
  | Some _ => true
  | None => false
  end.

End Client.

(** [parseStatusV3]: the status of a transaction reply, as the client
    reads it. *)
Definition parseStatusV3 (response : value) : string :=
  let statusField := field response "status" in
  match statusField with
  | VStr s => toLowerCase s
  | VArr _ | VObj _ =>
      match field statusField "code" with
      | VNum code =>
          if code =? 202 then "pending" else if code =? 201 then "delivered" else "unknown"
      | VStr code =>
          let c := toLowerCase code in
          if bool_decide (c = "pending") then "pending"
          else if (bool_decide (c = "delivered") || bool_decide (c = "ok"))%bool
               then "delivered" else c
      | _ =>
          match field statusField "pending", field statusField "delivered" with
          | VBool true, _ => "pending"
          | _, VBool true => "delivered"
          | _, _ => "unknown"
          end
      end
  | _ => "unknown"
  end.
End AccumulateClient.

(** ** services/signing-path.service.ts

    The recursion of [followDelegationChain] follows the ledger, so it is
    given a [fuel]; [None] means the fuel ran out (it is not an
    exception: every client call used here swallows its errors).
    [visited] is the one [Set] object shared by all launches of one
    identity, threaded through the calls; [results] is the shared
    [paths] array. *)

Module SigningPathService.
Import JsString Js Types UrlNormalizer HashNormalizer AccumulateClient.

(** [for (const x of xs) await body(x)] over a threaded state, where the
    body may run out of fuel. *)
Fixpoint forEach {A S : Type} (body : A -> S -> option S) (xs : list A) (s : S)
    : option S :=
  match xs with
  | [] => Some s
  | x :: rest =>
      match body x s with
      | None => None
      | Some s' => forEach body rest s'
      end
  end.

(** [keys.filter(k => k.delegate).map(k => normalizeUrl(k.delegate!))] *)
Definition liveDelegates (keys : list AccumulateKeyEntry) : list string :=
  omap (fun k => match ake_delegate k with
                 | Some d => if is_empty d then None else Some (normalizeUrl d)
                 | None => None
                 end) keys.

Definition extractDelegates (keyPage : CertenKeyPage) : list string :=
  omap (fun entry =>
          match cke_type entry, cke_delegateUrl entry with
          | delegate, Some d => if is_empty d then None else Some (normalizeUrl d)
          | _, _ => None
          end) (ckp_entries keyPage).

Definition toFirestoreKeyPage (akp : AccumulateKeyPage) : CertenKeyPage :=
  mkCPage (akp_url akp)
    (List.map (fun k =>
       let truthy_opt o :=
         match o with Some s => if is_empty s then None else Some s | None => None end in
       mkEntry (match truthy_opt (ake_delegate k) with Some _ => delegate | None => key end)
               (if is_empty (ake_publicKeyHash k) then None else Some (ake_publicKeyHash k))
               (truthy_opt (ake_keyType k))
               (truthy_opt (ake_delegate k)))
       (akp_keys akp)).

Definition directPath (pageUrl : string) : SigningPath :=
  mkPath pageUrl [pageUrl] pageUrl.

(** A notion of the proofs: a walk took [visited] to [visited'] inside
    the universe [U] and recorded the paths [new], each ending at a URL
    it marked, no two ending at the same URL. *)
Definition grows (U visited visited' : gset string) (new : list SigningPath) : Prop :=
  visited ⊆ visited' /\ visited' ⊆ visited ∪ U
  /\ (forall p, p ∈ new -> finalSigner p ∈ visited' /\ finalSigner p ∉ visited)
  /\ NoDup (finalSigner <$> new).

Section Service.
Variable call : Params -> option value.
Variable maxDepth : Z.

Fixpoint followDelegationChain (fuel : nat) (sourceUrl targetUrl : string)
    (currentPath : list string) (depth : Z)
    (st : gset string * list SigningPath) : option (gset string * list SigningPath) :=
  match fuel with
  | O => None
  | S fuel' =>
      let '(visited, results) := st in
      let normalizedTarget := normalizeUrl targetUrl in
      if (bool_decide (normalizedTarget ∈ visited) || (maxDepth <? depth))%bool
      then Some (visited, results)
      else
        let visited := visited ∪ {[normalizedTarget]} in
        if negb (accountExists call normalizedTarget) then Some (visited, results)
        else
          let newPath := currentPath ++ [normalizedTarget] in
          let pathString := join " -> " newPath in
          let results := results ++ [mkPath pathString newPath normalizedTarget] in
          match queryKeyPage call normalizedTarget with
          | None => Some (visited, results)
          | Some keyPageData =>
              forEach (fun delegateUrl st' =>
                         followDelegationChain fuel' normalizedTarget delegateUrl
                           newPath (depth + 1) st')
                      (liveDelegates (akp_keys keyPageData)) (visited, results)
          end
  end.

(** The state of one [discoverSigningPaths] run. *)
Record Walk := mkWalk {
  w_paths : list SigningPath;
  w_visited : gset string;
  w_processedPages : gset string }.

(** A page becomes a single-hop path and each of its delegates is
    followed from it. *)
Definition launch (fuel : nat) (pageUrl : string) (delegates : list string)
    (w : Walk) : option Walk :=
  let paths := w_paths w ++ [directPath pageUrl] in
  match forEach (fun delegateUrl st =>
                   followDelegationChain fuel pageUrl delegateUrl [pageUrl] 1 st)
                delegates (w_visited w, paths) with
  | None => None
  | Some (visited, paths) =>
      Some (mkWalk paths visited (w_processedPages w ∪ {[pageUrl]}))
  end.

(** The loop over the key pages stored with the identity. *)
Definition storedPage (fuel : nat) (keyPage : CertenKeyPage) (w : Walk) : option Walk :=
  let pageUrl := normalizeUrl (ckp_url keyPage) in
  if bool_decide (pageUrl ∈ w_processedPages w) then Some w
  else launch fuel pageUrl (extractDelegates keyPage) w.

(** One iteration of [for (let i = 1; i <= pageCount; i++)]. *)
Definition livePage (fuel : nat) (bookUrl : string) (i : nat)
    (s : Walk * list CertenKeyPage) : option (Walk * list CertenKeyPage) :=
  let '(w, discoveredPages) := s in
  let pageUrl := normalizeUrl (bookUrl +:+ "/" +:+ pretty i) in
  let keyPageData := queryKeyPage call pageUrl in
  let discoveredPages :=
    match keyPageData with
    | Some kp => discoveredPages ++ [toFirestoreKeyPage kp]
    | None => discoveredPages
    end in
  if bool_decide (pageUrl ∈ w_processedPages w) then Some (w, discoveredPages)
  else
    let delegates :=
      match keyPageData with
      | Some kp => liveDelegates (akp_keys kp)
      | None => []
      end in
    match launch fuel pageUrl delegates w with
    | None => None
    | Some w' => Some (w', discoveredPages)
    end.

(** The body of the loop over the key books.  The page count is used
    as the client returns it, any number of the reply.  The counter of
    [for (let i = 1; i <= pageCount; i++)] is a double: it counts up to
    [2^53] and [i++] leaves it there, so with a page count of [2^53] or
    more the loop never ends, whatever the fuel; [None] stands for that
    too.  A negative count gives a book without pages. *)
Definition liveBook (fuel : nat) (bookUrl : string)
    (s : Walk * list CertenKeyBook) : option (Walk * list CertenKeyBook) :=
  let '(w, discoveredKeyBooks) := s in
  let pageCount := queryKeyBookPageCount call bookUrl in
  if pageCount =? 0 then Some (w, discoveredKeyBooks)
  else if 2 ^ 53 <=? pageCount then None
  else
    match forEach (livePage fuel bookUrl) (seq 1 (Z.to_nat pageCount)) (w, []) with
    | None => None
    | Some (w', discoveredPages) =>
        Some (w', discoveredKeyBooks ++ [mkBook bookUrl discoveredPages])
    end.

Definition discoverSigningPaths (fuel : nat) (userAdi : CertenAdi)
    : option (list SigningPath * list CertenKeyBook) :=
  let keyBookUrls :=
    fold_left (fun s keyBook => JsSet.add (normalizeUrl (ckb_url keyBook)) s)
              (keyBooks userAdi) [] in
  let directory := queryDirectory call (adiUrl userAdi) 100 in
  let keyBookUrls :=
    fold_left (fun s entry => JsSet.add (normalizeUrl entry) s) directory keyBookUrls in
  match forEach (storedPage fuel)
                (concat (List.map ckb_keyPages (keyBooks userAdi)))
                (mkWalk [] ∅ ∅) with
  | None => None
  | Some w =>
      match forEach (liveBook fuel) keyBookUrls (w, []) with
      | None => None
      | Some (w', discoveredKeyBooks) => Some (w_paths w', discoveredKeyBooks)
      end
  end.

(** The earlier revision of [discoverSigningPaths], the one whose result
    type ([SigningPath[]]) the poller consumes: stored key pages only. *)
Definition discoverSigningPaths_v1 (fuel : nat) (userAdi : CertenAdi)
    : option (list SigningPath) :=
  match forEach
          (fun keyPage '(visited, paths) =>
             let pageUrl := normalizeUrl (ckp_url keyPage) in
             forEach (fun delegateUrl st =>
                        followDelegationChain fuel pageUrl delegateUrl [pageUrl] 1 st)
                     (extractDelegates keyPage)
                     (visited, paths ++ [mkPath (ckp_url keyPage) [pageUrl] pageUrl]))
          (concat (List.map ckb_keyPages (keyBooks userAdi)))
          (∅, []) with
  | None => None
  | Some (_, paths) => Some paths
  end.

End Service.

(** A notion of the statements: the hop list is no longer than the
    depth cap allows (a direct path has one hop whatever the cap), and
    no URL occurs twice after the first hop. *)
Definition path_ok (maxDepth : Z) (p : SigningPath) : Prop :=
  Z.of_nat (length (hops p)) <= Z.max 1 (maxDepth + 1) /\ NoDup (tail (hops p)).

(** A notion of the proofs: what a call of [followDelegationChain] with
    [fuel] returns when its target lies in the universe [U] and [fuel]
    exceeds the number of URLs of [U] not yet visited. *)
Definition follow_ok (call : Params -> option value) (maxDepth : Z) (U : gset string)
    (fuel : nat) : Prop :=
  forall src target path depth visited results,
    normalizeUrl target ∈ U ->
    (size (U ∖ visited) < fuel)%nat ->
    exists v' new,
      followDelegationChain call maxDepth fuel src target path depth (visited, results)
      = Some (v', results ++ new)
      /\ grows U visited v' new
      /\ (normalizeUrl target ∈ visited \/ maxDepth < depth -> v' = visited /\ new = [])
      /\ (normalizeUrl target ∉ visited -> depth <= maxDepth -> normalizeUrl target ∈ v').

End SigningPathService.

(** ** services/pending-discovery.service.ts (three-phase revision) *)

Module PendingDiscoveryService.
Import JsString Js Types UrlNormalizer HashNormalizer AccumulateClient.

(** The two maps shared by the phases. *)
Record State := mkState {
  eligibleTxs : list (string * EligibleTransaction);
  allSignatures : list (string * list AccumulateSignature) }.

Definition addEligibleTx (map : list (string * EligibleTransaction))
    (tx : AccumulatePendingTx) (signingPath : string) (category : Category)
    : list (string * EligibleTransaction) :=
  let hash := normalizeHash (tx_hash tx) in
  match JsMap.get hash map with
  | None => JsMap.set hash (mkEligible tx [signingPath] category) map
  | Some existing =>
      let paths :=
        if bool_decide (signingPath ∈ et_eligiblePaths existing)
        then et_eligiblePaths existing
        else et_eligiblePaths existing ++ [signingPath] in
      let category' :=
        match category with
        | initiated_by_user => initiated_by_user
        | requiring_signature => et_category existing
        end in
      JsMap.set hash (mkEligible (et_tx existing) paths category') map
  end.

(** [if (!allSignatures.has(h)) allSignatures.set(h, sigs)] *)
Definition cacheSignatures (h : string) (sigs : list AccumulateSignature)
    (m : list (string * list AccumulateSignature)) : list (string * list AccumulateSignature) :=
  if JsMap.has h m then m else JsMap.set h sigs m.

Definition hasUserSigned (sigs : list AccumulateSignature)
    (userKeyHashes : gset string) : bool :=
  existsb (fun sig => bool_decide (normalizePublicKeyHash (sig_publicKeyHash sig) ∈ userKeyHashes))
          sigs.

Definition extractUserKeyHashes (user : CertenUserWithAdis) : gset string :=
  list_to_set
    (omap (fun entry =>
             match cke_type entry, cke_publicKeyHash entry with
             | key, Some h => if is_empty h then None else Some (normalizePublicKeyHash h)
             | _, _ => None
             end)
          (concat (List.map ckp_entries
             (concat (List.map ckb_keyPages
                (concat (List.map keyBooks (adis user)))))))).

Definition determineCategory (tx : AccumulatePendingTx) (adiUrl : string) : Category :=
  let txAdi := extractAdiFromUrl (tx_principal tx) in
  let userAdi := normalizeUrl adiUrl in
  if bool_decide (txAdi = userAdi) then initiated_by_user else requiring_signature.

(** [tx.signatures.some(sig => normalizeUrl(sig.signer) === normalizeUrl(priorHop))] *)
Definition priorHopSigned (tx : AccumulatePendingTx) (priorHop : string) : bool :=
  existsb (fun sig => bool_decide (normalizeUrl (sig_signer sig) = normalizeUrl priorHop))
          (tx_signatures tx).

(** [signingPath.hops[signingPath.hops.length - 2]] *)
Definition priorHopOf (signingPath : SigningPath) : string :=
  List.nth (length (hops signingPath) - 2)%nat (hops signingPath) "".

(** A notion of the proofs: the shape of the map of eligible
    transactions.  Its keys are distinct; each entry is filed under the
    normal form of the hash of its transaction, lists at least one path,
    lists no path twice, and holds a transaction that satisfies [Q]. *)
Definition map_ok (Q : AccumulatePendingTx -> Prop)
    (m : list (string * EligibleTransaction)) : Prop :=
  NoDup (JsMap.keys m)
  /\ Forall (fun kv => fst kv = normalizeHash (tx_hash (et_tx (snd kv)))
                       /\ et_eligiblePaths (snd kv) <> []
                       /\ NoDup (et_eligiblePaths (snd kv))
                       /\ Q (et_tx (snd kv))) m.

(** The body of the inner loop of Phase 1. *)
Definition phase1Tx (signingPath : SigningPath) (tx : AccumulatePendingTx)
    (st : State) : State :=
  let normalizedHash := normalizeHash (tx_hash tx) in
  let sigs := cacheSignatures normalizedHash (tx_signatures tx) (allSignatures st) in
  if priorHopSigned tx (priorHopOf signingPath)
  then mkState (eligibleTxs st) sigs
  else mkState (addEligibleTx (eligibleTxs st) tx (path signingPath) requiring_signature) sigs.

Section Service.
Variable call : Params -> option value.
Variable parseTransactionResponse : value -> string -> option AccumulatePendingTx.
Variable pendingPageSize : Z.

Local Abbreviation queryPending := (queryPending call parseTransactionResponse).

(** The body of the outer loop of Phase 1. *)
Definition phase1Path (userKeyHashes : gset string) (st : State)
    (signingPath : SigningPath) : State :=
  if (length (hops signingPath) <? 2)%nat then st
  else
    match queryPending (finalSigner signingPath) pendingPageSize with
    | None => st
    | Some pendingTxs => fold_left (fun st tx => phase1Tx signingPath tx st) pendingTxs st
    end.

Definition processSigningPaths (signingPaths : list SigningPath)
    (userKeyHashes : gset string) (st : State) : State :=
  fold_left (phase1Path userKeyHashes) signingPaths st.


(** [discoverAdiAccounts]: the list it returns.  The page loop is the
    one of [SigningPathService.liveBook]; it is written here for the
    runs that end, those with page counts below [2^53], where the
    counter prints with all its digits. *)
Definition discoverAdiAccounts (adi : CertenAdi) : list string :=
  let addAccount s url := JsSet.add (normalizeUrl url) s in
  let accountSet := addAccount [] (adiUrl adi) in
  let accountSet := fold_left addAccount (accounts adi) accountSet in
  let '(accountSet, keyBookUrls) :=
    fold_left (fun '(acc, books) keyBook =>
                 let bookUrl := normalizeUrl (ckb_url keyBook) in
                 (addAccount acc bookUrl, JsSet.add bookUrl books))
              (keyBooks adi) (accountSet, []) in
  let directory := queryDirectory call (adiUrl adi) 100 in
  let accountSet := fold_left addAccount directory accountSet in
  let keyBookUrls :=
    fold_left (fun books entry => JsSet.add (normalizeUrl entry) books) directory keyBookUrls in
  fold_left (fun acc bookUrl =>
               let pageCount := queryKeyBookPageCount call bookUrl in
               fold_left (fun acc (i : nat) => addAccount acc (bookUrl +:+ "/" +:+ pretty i))
                         (seq 1 (Z.to_nat pageCount)) acc)
            keyBookUrls accountSet.

Definition phase2Tx (userKeyHashes : gset string) (adi : CertenAdi)
    (st : State) (tx : AccumulatePendingTx) : State :=
  let normalizedHash := normalizeHash (tx_hash tx) in
  let sigs := cacheSignatures normalizedHash (tx_signatures tx) (allSignatures st) in
  if hasUserSigned (tx_signatures tx) userKeyHashes
  then mkState (eligibleTxs st) sigs
  else mkState (addEligibleTx (eligibleTxs st) tx (adiUrl adi)
                  (determineCategory tx (adiUrl adi))) sigs.

Definition processUserAccounts (user : CertenUserWithAdis)
    (userKeyHashes : gset string) (st : State) : State :=
  fold_left (fun st adi =>
               fold_left (fun st accountUrl =>
                            match queryPending accountUrl pendingPageSize with
                            | None => st
                            | Some pendingTxs =>
                                fold_left (phase2Tx userKeyHashes adi) pendingTxs st
                            end)
                         (discoverAdiAccounts adi) st)
            (adis user) st.

Definition extractStatus (txRaw : value) : string :=
  let statusField := field txRaw "status" in
  match statusField with
  | VStr s => toLowerCase s
  | VArr _ | VObj _ =>
      match field statusField "code" with
      | VNum code =>
          if code =? 202 then "pending" else if code =? 201 then "delivered" else "other"
      | VStr code => toLowerCase code
      | _ =>
          match field statusField "pending", field statusField "delivered" with
          | VBool true, _ => "pending"
          | _, VBool true => "delivered"
          | _, _ => "unknown"
          end
      end
  | _ => "unknown"
  end.

(** Phase 3 threads the set of hashes already seen with the two maps. *)
Definition phase3Produced (userKeyHashes : gset string) (bookUrl : string)
    (s : gset string * State) (prodRec : value) : gset string * State :=
  let '(seenHashes, st) := s in
  if negb (is_object prodRec) then s
  else
    let prodTxId :=
      to_string (or_else (or_else (field prodRec "value") (field prodRec "id")) (VStr "")) in
    if is_empty prodTxId then s
    else
      let txHash := normalizeHash prodTxId in
      if (is_empty txHash || bool_decide (txHash ∈ seenHashes))%bool then s
      else
        let seenHashes := seenHashes ∪ {[txHash]} in
        let txRaw := queryTransactionRaw call prodTxId in
        if negb (truthy txRaw) then (seenHashes, st)
        else if negb (bool_decide (extractStatus txRaw = "pending")) then (seenHashes, st)
        else
          match queryTransaction call parseTransactionResponse prodTxId with
          | None => (seenHashes, st)
          | Some txDetails =>
              if hasUserSigned (tx_signatures txDetails) userKeyHashes
              then (seenHashes, st)
              else (seenHashes,
                    mkState (addEligibleTx (eligibleTxs st) txDetails bookUrl
                               requiring_signature)
                            (cacheSignatures txHash (tx_signatures txDetails)
                               (allSignatures st)))
          end.

(** One chain record; the flag is [false] when the record raises the
    TypeError of iterating a non-iterable [produced.records], which ends
    the scan of this book. *)
Definition phase3Record (userKeyHashes : gset string) (bookUrl : string)
    (s : gset string * State) (rec : value) : (gset string * State) * bool :=
  if negb (is_object rec) then (s, true)
  else
    let value := or_else (field rec "value") rec in
    let message := or_else (field value "message") (VObj []) in
    let msgType := to_string (or_else (field message "type") (VStr "")) in
    if negb (bool_decide (msgType = "signatureRequest")) then (s, true)
    else
      let produced := or_else (field value "produced") (VObj []) in
      match iterate (or_else (field produced "records") (VArr [])) with
      | None => (s, false)
      | Some producedRecords =>
          (fold_left (phase3Produced userKeyHashes bookUrl) producedRecords s, true)
      end.

Fixpoint phase3Records (userKeyHashes : gset string) (bookUrl : string)
    (records : list value) (s : gset string * State) : gset string * State :=
  match records with
  | [] => s
  | rec :: rest =>
      match phase3Record userKeyHashes bookUrl s rec with
      | (s', true) => phase3Records userKeyHashes bookUrl rest s'
      | (s', false) => s'
      end
  end.

(** The second chain query of a book, from the [total] of the first:
    [startIndex = total > maxEntries ? total - maxEntries : 0] and
    [count = total > maxEntries ? maxEntries : total], with
    [expand: true].  A [total] that is no number is converted for the
    comparison: [undefined] and an object give NaN, [null] and a boolean
    give 0 or 1, and the test fails; an object with an own [toString]
    member, which is no function, cannot be converted, and the TypeError
    ([None]) ends the scan of the book. *)
Definition tailQuery (maxEntries : Z) (total : value) : option Query :=
  match total with
  | VNum t =>
      Some (if maxEntries <? t
            then QChain (t - maxEntries) (VNum maxEntries) true
            else QChain 0 (VNum t) true)
  | VUndefined => Some (QChain 0 (VNum 100) true)
  | VNull | VBool _ => Some (QChain 0 total true)
  | VObj fields =>
      if bool_decide ("toString" ∈ List.map fst fields) then None
      else Some (QChain 0 total true)
  | VStr _ | VArr _ => Some (QChainCoerced maxEntries total)
  end.

Definition phase3Book (userKeyHashes : gset string) (s : gset string * State)
    (bookUrl : string) : gset string * State :=
  let maxEntries := 30 in
  match snd (querySignatureChain call bookUrl 0 (VNum 1) false) with
  | VNum 0 => s
  | total =>
      match tailQuery maxEntries total with
      | None => s
      | Some query =>
          match iterate (fst (chainReply call bookUrl query)) with
          | None => s
          | Some records => phase3Records userKeyHashes bookUrl records s
          end
      end
  end.

Definition scanSignatureChains (user : CertenUserWithAdis)
    (userKeyHashes : gset string) (s : gset string * State) : gset string * State :=
  fold_left (fun s adi =>
               let keyBookUrls :=
                 fold_left (fun b keyBook => JsSet.add (normalizeUrl (ckb_url keyBook)) b)
                           (keyBooks adi) [] in
               let directory := queryDirectory call (adiUrl adi) 100 in
               let keyBookUrls :=
                 fold_left (fun b entry => JsSet.add (normalizeUrl entry) b)
                           directory keyBookUrls in
               fold_left (phase3Book userKeyHashes) keyBookUrls s)
            (adis user) s.

Definition discoverPendingForUser (user : CertenUserWithAdis)
    (signingPaths : list SigningPath) : DiscoveryResult :=
  let userKeyHashes := extractUserKeyHashes user in
  let st := processSigningPaths signingPaths userKeyHashes (mkState [] []) in
  let st := processUserAccounts user userKeyHashes st in
  let seenHashes : gset string := list_to_set (JsMap.keys (eligibleTxs st)) in
  let st := snd (scanSignatureChains user userKeyHashes (seenHashes, st)) in
  mkDiscovery (JsMap.values (eligibleTxs st))
              (Z.of_nat (length (eligibleTxs st)))
              (allSignatures st).

End Service.
End PendingDiscoveryService.

(** ** clients/firestore.client.ts

    The documents of one user: the [pendingActions] subcollection keyed
    by document id, the [computedState/pending] document, and the
    documents of collections that lie below documents of the
    subcollection, keyed by their path from it.  [available = false]
    makes every read and every commit throw.  A batch applies its writes
    in order and as one step. *)

Module FirestoreClient.
Import JsString Types.

Record Store := mkStore {
  available : bool;
  pendingActions : gmap string PendingActionDocument;
  computedState : option ComputedPendingState;
  deeper : gmap (list string) PendingActionDocument }.

(** [snapshot.docs.map(doc => doc.data())]: the documents' data, without
    their ids. *)
Definition getPendingActions (s : Store) : option (list PendingActionDocument) :=
  if available s then Some (snd <$> map_to_list (pendingActions s)) else None.

(** [s.split('/')] *)
Fixpoint splitSlash (s : string) : list string :=
  match s with
  | EmptyString => [EmptyString]
  | String c r =>
      if decide (c = "/"%char) then EmptyString :: splitSlash r
      else
        match splitSlash r with
        | segment :: segments => String c segment :: segments
        | [] => [String c EmptyString]
        end
  end.

(** [s.indexOf('//') >= 0] *)
Fixpoint hasDoubleSlash (s : string) : bool :=
  match s with
  | String a r =>
      (match r with
       | String b _ => bool_decide (a = "/"%char) && bool_decide (b = "/"%char)
       | EmptyString => false
       end || hasDoubleSlash r)%bool
  | EmptyString => false
  end.

(** [pendingRef.doc(documentPath)], the method of the SDK's
    [CollectionReference]: the path must be a non-empty string without
    [//]; it is split at [/], the empty segments are dropped, and the
    others, appended to the path of the collection, must name a
    document, which they do when their number is odd.  One segment names
    a document of the collection; three or more name a document of a
    collection below it.  [None] is the error thrown otherwise. *)
Definition doc (documentPath : string) : option (list string) :=
  if is_empty documentPath then None
  else if hasDoubleSlash documentPath then None
  else
    let segments :=
      List.filter (fun segment => negb (is_empty segment)) (splitSlash documentPath) in
    if Nat.odd (length segments) then Some segments else None.

(** [set(ref, data, { merge: true })]: a field the new data leaves out
    keeps its stored value. *)
Definition mergeDoc (old : option PendingActionDocument) (new : PendingActionDocument)
    : PendingActionDocument :=
  match old, pad_expiresAt new with
  | Some o, None =>
      mkDoc (pad_id new) (pad_category new) (pad_status new) (pad_txHash new)
            (pad_txId new) (pad_principal new) (pad_transactionType new)
            (pad_collectedSignatures new) (pad_signatures new)
            (pad_eligibleSigningPaths new) (pad_userHasSigned new)
            (pad_createdAt new) (pad_updatedAt new) (pad_expiresAt o)
            (pad_discoveredAt new)
  | _, _ => new
  end.

(** The documents a batch can reach through [pendingRef]: those of the
    subcollection and those below it. *)
Definition Documents : Type :=
  gmap string PendingActionDocument * gmap (list string) PendingActionDocument.

(** [batch.delete(ref)] *)
Definition batchDelete (d : Documents) (ref : list string) : Documents :=
  match ref with
  | [id] => (delete id (fst d), snd d)
  | _ => (fst d, delete ref (snd d))
  end.

(** [batch.set(ref, action, { merge: true })] *)
Definition batchSet (d : Documents) (w : list string * PendingActionDocument) : Documents :=
  match fst w with
  | [id] => (<[id := mergeDoc (fst d !! id) (snd w)]> (fst d), snd d)
  | ref => (fst d, <[ref := mergeDoc (snd d !! ref) (snd w)]> (snd d))
  end.

(** The references are made while the batch is filled, the documents
    change when it is committed. *)
Definition updatePendingActions (toAdd : list PendingActionDocument)
    (toRemove : list string) (state : ComputedPendingState) (s : Store)
    : option Store :=
  removed ← mapM doc toRemove;
  written ← mapM (fun action => ref ← doc (pad_id action); Some (ref, action)) toAdd;
  if available s
  then
    let d := fold_left batchSet written
               (fold_left batchDelete removed (pendingActions s, deeper s)) in
    Some (mkStore true (fst d) (Some state) (snd d))
  else None.

(** [Timestamp.fromDate(date)].  A date is its number of milliseconds;
    the seconds of a Firestore timestamp go from the year 1 to the year
    9999, and [None] is the error thrown for a date outside. *)
Definition createTimestamp (date : Z) : option Z :=
  let seconds := date / 1000 in
  if ((-62135596800 <=? seconds) && (seconds <=? 253402300799))%bool
  then Some date else None.

(** [doc.exists ? doc.data() : null], in a reachable store. *)
Definition getComputedState (s : Store) : option (option ComputedPendingState) :=
  if available s then Some (computedState s) else None.

(** [clearPendingActions]: a batch that deletes every document of the
    subcollection by its reference; nothing is written when the
    subcollection is empty. *)
Definition clearPendingActions (s : Store) : option Store :=
  if available s then
    match map_to_list (pendingActions s) with
    | [] => Some s
    | docs =>
        Some (mkStore true
                (fold_left (fun m (doc : string * PendingActionDocument) => delete (fst doc) m)
                           docs (pendingActions s))
                (computedState s) (deeper s))
    end
  else None.

(** Notions of the statements.  A document id: a non-empty string
    without [/].  A keyed subcollection: every stored document carries
    its document id in its [id] field. *)
Definition isDocumentId (id : string) : bool :=
  (negb (is_empty id) && bool_decide (indexOf "/" id = None))%bool.

Definition keyed (docs : gmap string PendingActionDocument) : Prop :=
  forall k doc, docs !! k = Some doc -> pad_id doc = k /\ isDocumentId k = true.

(** Notions of the proofs: the writes of a batch all of whose references
    are the ids of the documents written. *)
Definition deleteById (docs : gmap string PendingActionDocument) (docId : string)
    : gmap string PendingActionDocument :=
  delete docId docs.

Definition setById (docs : gmap string PendingActionDocument)
    (action : PendingActionDocument) : gmap string PendingActionDocument :=
  <[pad_id action := mergeDoc (docs !! pad_id action) action]> docs.

End FirestoreClient.

(** ** services/state-manager.service.ts *)

Module StateManagerService.
Import JsString Types HashNormalizer FirestoreClient.

(** [sig.timestamp] is a [Date], hence truthy: the time of the signature
    is converted, and the conversion can throw. *)
Definition convertSignature (sig : AccumulateSignature) : option SignatureRecord :=
  signedAt ← createTimestamp (sig_timestamp sig);
  Some (mkSigRec (sig_signer sig) (sig_publicKeyHash sig)
                 (default approve (sig_vote sig)) signedAt).

(** [None] is the error of a time that is no Firestore timestamp. *)
Definition buildPendingActionDocument (eligible : EligibleTransaction)
    (sigs : list AccumulateSignature) (now : Z) : option PendingActionDocument :=
  let tx := et_tx eligible in
  records ← mapM convertSignature sigs;
  expiresAt ← match tx_expiresAt tx with
              | Some e => Some <$> createTimestamp e
              | None => Some None
              end;
  Some (mkDoc (normalizeHash (tx_hash tx)) (et_category eligible)
              (if (0 <? length sigs)%nat then st_partially_signed else st_pending)
              (tx_hash tx) (tx_txId tx) (tx_principal tx) (tx_type tx)
              (Z.of_nat (length sigs)) records
              (et_eligiblePaths eligible) false now now expiresAt now).

Definition isUrgent (dateNow expiresAt : Z) : bool :=
  expiresAt - dateNow <? 24 * 60 * 60 * 1000.

(** Notions of the statements: the normalized hashes of a discovery, in
    order, and the documents an update builds from it. *)
Definition hashesOf (discovery : DiscoveryResult) : list string :=
  List.map (fun t => normalizeHash (tx_hash (et_tx t))) (eligibleTransactions discovery).

Definition documentsOf (now : Z) (discovery : DiscoveryResult)
    : option (list PendingActionDocument) :=
  mapM (fun eligible =>
          buildPendingActionDocument eligible
            (default (tx_signatures (et_tx eligible))
               (JsMap.get (normalizeHash (tx_hash (et_tx eligible)))
                  (signatures discovery))) now)
       (eligibleTransactions discovery).

(** A notion of the proofs: the ids the removal loop of an update
    collects. *)
Definition toRemoveOf (discovery : DiscoveryResult) (s : Store) : list string :=
  List.map pad_id
    (List.filter (fun doc => negb (JsSet.has (pad_id doc) (JsSet.of_list (hashesOf discovery))))
                 (snd <$> map_to_list (pendingActions s))).

Section Service.
Variable dryRun : bool.
(** [firestore.now()], [Date.now()] and the generated cycle token. *)
Variable now dateNow : Z.
Variable cycleToken : string.

Definition countIf {A : Type} (f : A -> bool) (l : list A) : Z :=
  Z.of_nat (length (List.filter f l)).

Definition updateUserPendingState (discovery : DiscoveryResult) (s : Store)
    : option (UpdateResult * Store) :=
  match getPendingActions s with
  | None => None
  | Some currentPending =>
      let currentHashes := JsSet.of_list (List.map pad_id currentPending) in
      let newHashes :=
        JsSet.of_list (List.map (fun t => normalizeHash (tx_hash (et_tx t)))
                                (eligibleTransactions discovery)) in
      let toRemove :=
        List.map pad_id
          (List.filter (fun doc => negb (JsSet.has (pad_id doc) newHashes)) currentPending) in
      match mapM (fun eligible =>
                    let hash := normalizeHash (tx_hash (et_tx eligible)) in
                    let sigs := default (tx_signatures (et_tx eligible))
                                        (JsMap.get hash (signatures discovery)) in
                    buildPendingActionDocument eligible sigs now)
                 (eligibleTransactions discovery) with
      | None => None
      | Some toAdd =>
          let computed :=
            mkComputed (totalCount discovery)
              (countIf (fun t => match tx_expiresAt (et_tx t) with
                                 | Some e => isUrgent dateNow e
                                 | None => false
                                 end) (eligibleTransactions discovery))
              (countIf (fun t => match et_category t with
                                 | initiated_by_user => true | _ => false end)
                       (eligibleTransactions discovery))
              (countIf (fun t => match et_category t with
                                 | requiring_signature => true | _ => false end)
                       (eligibleTransactions discovery))
              newHashes now cycleToken in
          let result :=
            mkUpdate true
              (Z.of_nat (length toAdd) - Z.of_nat (length currentHashes))
              (Z.of_nat (length toRemove)) cycleToken in
          if dryRun then Some (result, s)
          else
            match updatePendingActions toAdd toRemove computed s with
            | None => None
            | Some s' => Some (result, s')
            end
      end
  end.

End Service.
End StateManagerService.

(** ** poller/pending-actions.poller.ts *)

Module PendingActionsPoller.
Import JsString Js Types AccumulateClient FirestoreClient.

Section PerUser.
Variable call : Params -> option value.
Variable parseTransactionResponse : value -> string -> option AccumulatePendingTx.
Variables (delegationDepth pendingPageSize : Z) (dryRun : bool).
Variables (now dateNow : Z) (cycleToken : string).

(** The loop collecting the paths of every identity of the user. *)
Fixpoint allPathsOf (fuel : nat) (adis : list CertenAdi) : option (list SigningPath) :=
  match adis with
  | [] => Some []
  | adi :: rest =>
      match SigningPathService.discoverSigningPaths_v1 call delegationDepth fuel adi with
      | None => None
      | Some paths =>
          match allPathsOf fuel rest with
          | None => None
          | Some more => Some (paths ++ more)
          end
      end
  end.

(** [await this.firestore.updateUserSigningPaths(user.uid,
    allPathStrings)]: the class [FirestoreClient] defines no method of
    this name, so the call raises a TypeError. *)
Definition updateUserSigningPaths (allPathStrings : list string) (s : Store)
    : option Store :=
  None.

(** The [try] block of [processUser], after the paths are known; [None]
    is an exception, and the statistics carry the increments made before
    it was thrown. *)
Definition processUserBody (user : CertenUserWithAdis) (allPaths : list SigningPath)
    (stats : PollStats) (s : Store) : PollStats * option Store :=
  match updateUserSigningPaths (List.map path allPaths) s with
  | None => (stats, None)
  | Some s1 =>
      let discovery :=
        PendingDiscoveryService.discoverPendingForUser
          call parseTransactionResponse pendingPageSize user allPaths in
      let stats1 :=
        mkStats (totalUsers stats) (processedUsers stats) (skippedUsers stats)
                (failedUsers stats) (totalPending stats + totalCount discovery)
                (firestoreWrites stats) (duration stats) in
      match StateManagerService.updateUserPendingState
              dryRun now dateNow cycleToken discovery s1 with
      | None => (stats1, None)
      | Some (_, s2) =>
          (mkStats (totalUsers stats1) (processedUsers stats1 + 1) (skippedUsers stats1)
                   (failedUsers stats1) (totalPending stats1)
                   (firestoreWrites stats1 + 1) (duration stats1),
           Some s2)
      end
  end.

(** [processUser]; the outer [None] is the fuel of the path walk. *)
Definition processUser (fuel : nat) (user : CertenUserWithAdis)
    (stats : PollStats) (s : Store) : option (PollStats * Store) :=
  match adis user with
  | [] =>
      Some (mkStats (totalUsers stats) (processedUsers stats) (skippedUsers stats + 1)
                    (failedUsers stats) (totalPending stats)
                    (firestoreWrites stats) (duration stats), s)
  | _ =>
      match allPathsOf fuel (adis user) with
      | None => None
      | Some allPaths =>
          match processUserBody user allPaths stats s with
          | (stats', Some s') => Some (stats', s')
          | (stats', None) =>
              Some (mkStats (totalUsers stats') (processedUsers stats')
                            (skippedUsers stats') (failedUsers stats' + 1)
                            (totalPending stats') (firestoreWrites stats')
                            (duration stats'), s)
          end
      end
  end.

End PerUser.

(** *** The timer and the cycles

    The poller object has two fields, [isRunning] and [pollTimer].  A
    call of [tick()] that passes its first test runs asynchronously
    until all users are processed; [inFlight] counts such calls that
    have not completed yet.  The events are those of the event loop. *)

Record Poller := mkPoller {
  isRunning : bool;
  pollTimer : bool;
  inFlight : nat }.

(** [tick()] up to its first [await]: [if (!this.isRunning) return;]
    and otherwise a cycle begins. *)
Definition tick (p : Poller) : Poller :=
  if negb (isRunning p) then p
  else mkPoller (isRunning p) (pollTimer p) (S (inFlight p)).

(** [shutdown()] *)
Definition shutdown (p : Poller) : Poller :=
  mkPoller false false (inFlight p).

Inductive event :=
| TimerFires       (* the [setInterval] callback [() => this.tick()] *)
| CycleCompletes   (* the promise of an in-flight [tick()] resolves *)
| Shutdown.        (* SIGINT or SIGTERM *)

#[global] Instance event_eq_dec : EqDecision event.
Proof. solve_decision. Defined.

Definition step (p : Poller) (e : event) : Poller :=
  match e with
  | TimerFires => if pollTimer p then tick p else p
  | CycleCompletes => mkPoller (isRunning p) (pollTimer p) (pred (inFlight p))
  | Shutdown => shutdown p
  end.

(** The poller once [start()] has resolved: [isRunning] is set, the
    initial [await this.tick()] has completed, the interval is armed. *)
Definition started : Poller := mkPoller true true 0.

Definition run (events : list event) (p : Poller) : Poller :=
  fold_left step events p.

End PendingActionsPoller.

(** ** Scenarios

    Concrete ledgers, users and stores on which the code is run below. *)

Module Scenario.
Import Js Types.

(** A reply for a token account that carries a top-level [pageCount]. *)
Definition tokenAccountReply : value :=
  VObj [("account", VObj [("type", VStr "tokenAccount");
                          ("url", VStr "acc://alice.acme/tokens")]);
        ("data", VObj [("type", VStr "tokenAccount")]);
        ("type", VStr "tokenAccount");
        ("pageCount", VNum 3)].

(** A reply for a key book with two pages. *)
Definition keyBookReply : value :=
  VObj [("account", VObj [("type", VStr "keyBook");
                          ("url", VStr "acc://alice.acme/book");
                          ("pageCount", VNum 2)])].

(** A document stored under a key that is not its [id] field. *)
Definition staleDoc : PendingActionDocument :=
  mkDoc "aa11" requiring_signature st_pending "aa11" "acc://aa11@bob.acme/tokens"
        "acc://bob.acme/tokens" "sendTokens" 0 [] ["acc://bob.acme/book/1"]
        false 1000 1000 None 1000.

Definition staleStore : FirestoreClient.Store :=
  FirestoreClient.mkStore true {["bb22" := staleDoc]} None ∅.

Definition emptyDiscovery : DiscoveryResult := mkDiscovery [] 0 [].

(** A pending transaction on [acc://alice.acme/tokens] without signatures. *)
Definition tx1 : AccumulatePendingTx :=
  mkTx "acc://AB12@alice.acme/tokens" "ab12" "acc://alice.acme/tokens"
       "sendTokens" "pending" [] None (VObj []).

Definition oneDiscovery : DiscoveryResult :=
  mkDiscovery [mkEligible tx1 ["acc://alice.acme"] initiated_by_user] 1 [].

(** Discoveries of one transaction whose hash is no document id: the
    normal form of the first hash starts with [/], that of the second is
    empty. *)
Definition slashDiscovery : DiscoveryResult :=
  mkDiscovery
    [mkEligible (mkTx "acc://AB12@alice.acme/tokens" "/ab" "acc://alice.acme/tokens"
                      "sendTokens" "pending" [] None (VObj []))
                ["acc://alice.acme"] initiated_by_user] 1 [].

Definition blankDiscovery : DiscoveryResult :=
  mkDiscovery
    [mkEligible (mkTx "acc://AB12@alice.acme/tokens" "0x" "acc://alice.acme/tokens"
                      "sendTokens" "pending" [] None (VObj []))
                ["acc://alice.acme"] initiated_by_user] 1 [].

(** A store whose documents carry their key as [id]. *)
Definition tidyStore : FirestoreClient.Store :=
  FirestoreClient.mkStore true {["aa11" := staleDoc]} None ∅.

(** Scenario S3: [bob.acme/book/1] delegates to [corp.acme/book/1], on
    which one transaction is pending, signed by an unrelated page. *)
Definition bobPath : SigningPath :=
  mkPath "acc://bob.acme/book/1 -> acc://corp.acme/book/1"
         ["acc://bob.acme/book/1"; "acc://corp.acme/book/1"]
         "acc://corp.acme/book/1".

Definition tx2 : AccumulatePendingTx :=
  mkTx "acc://cd34@corp.acme/tokens" "cd34" "acc://corp.acme/tokens"
       "sendTokens" "pending"
       [mkSig "acc://other.acme/book/1" "ee55" "sig" 1700000000000 (Some approve) None]
       None (VObj []).

Definition s3call (params : Params) : option value :=
  match params with
  | PScopeQuery scope (QPending _ _) =>
      if decide (scope = "acc://corp.acme/book/1")
      then Some (VObj [("pending",
                        VObj [("records",
                               VArr [VObj [("value", VStr "acc://cd34@corp.acme/tokens")]])])])
      else None
  | PTxid _ => Some (VObj [("status", VStr "pending")])
  | _ => None
  end.

Definition s3parse (response : value) (txid : string) : option AccumulatePendingTx :=
  Some tx2.

(** Scenario S4: page A delegates to page B and B delegates back to A.
    Nothing else exists on the ledger. *)
Definition pageA : string := "acc://a.acme/book/1".
Definition pageB : string := "acc://b.acme/book/1".

Definition keyPageReply (delegateUrl : string) : value :=
  VObj [("type", VStr "keyPage");
        ("keys", VArr [VObj [("delegate", VStr delegateUrl)]])].

Definition cycleCall (params : Params) : option value :=
  match params with
  | PScope scope =>
      if decide (scope = pageA) then Some (keyPageReply pageB)
      else if decide (scope = pageB) then Some (keyPageReply pageA)
      else None
  | _ => None
  end.

(** The identity owning page A, as stored: one book, one page, one
    delegate entry. *)
Definition cycleAdi : CertenAdi :=
  mkAdi "acc://a.acme"
        [mkBook "acc://a.acme/book"
                [mkCPage pageA [mkEntry delegate None None (Some pageB)]]]
        [].

(** A ledger whose pending list of every account names one transaction
    twice, around another one. *)
Definition repeatingCall (params : Params) : option value :=
  match params with
  | PScopeQuery _ (QPending _ _) =>
      Some (VObj [("pending",
                   VObj [("records",
                          VArr [VObj [("value", VStr "acc://aa11@corp.acme/tokens")];
                                VObj [("value", VStr "acc://bb22@corp.acme/tokens")];
                                VObj [("value", VStr "acc://aa11@corp.acme/tokens")]])])])
  | _ => None
  end.

(** A ledger on which every call fails or times out. *)
Definition outage (params : Params) : option value := None.

(** Scenario S1's user: one identity, one book, one page with one key;
    the inbox holds one action from an earlier cycle. *)
Definition alice : CertenUserWithAdis :=
  mkUser "uid-alice"
    [mkAdi "acc://alice.acme"
       [mkBook "acc://alice.acme/book"
          [mkCPage "acc://alice.acme/book/1" [mkEntry key (Some "aa") None None]]]
       ["acc://alice.acme/tokens"]].

(** A user whose page [bob.acme/book/1] holds the key that signed [tx2]
    and delegates to [corp.acme/book/1]. *)
Definition bob : CertenUserWithAdis :=
  mkUser "uid-bob"
    [mkAdi "acc://bob.acme"
       [mkBook "acc://bob.acme/book"
          [mkCPage "acc://bob.acme/book/1"
             [mkEntry key (Some "EE55") None None;
              mkEntry delegate None None (Some "acc://corp.acme/book/1")]]]
       []].

End Scenario.

(* ===================================================================== *)
(** * Part II: properties                                                 *)
(* ===================================================================== *)

(** ** The semaphore *)

Section SemaphoreFacts.
Import Semaphore.

Lemma inv_create (n : Z) : 0 <= n -> inv (create n).
Proof. intros Hn. split; [exact Hn | intros H; contradiction H; reflexivity]. Qed.

Lemma inv_acquire (w : nat) (s : t) : inv s -> inv (fst (acquire w s)).
Proof.
  intros [Hp Hw]. unfold acquire, inv.
  destruct (0 <? permits s) eqn:E; simpl.
  - apply Z.ltb_lt in E. split; [lia |].
    intros Hne. specialize (Hw Hne). lia.
  - apply Z.ltb_ge in E. split; [exact Hp | intros _; lia].
Qed.

Lemma inv_release (s : t) : inv s -> inv (fst (release s)).
Proof.
  intros [Hp Hw]. unfold release, inv.
  destruct (waiting s) as [|next rest] eqn:Ew; simpl.
  - split; [lia | intros H; contradiction H; reflexivity].
  - assert (permits s = 0) as H0 by (apply Hw; discriminate).
    rewrite H0. simpl. split; [lia | intros _; reflexivity].
Qed.

Lemma inv_step (s : t) (o : op) : inv s -> inv (step s o).
Proof. destruct o; simpl; [apply inv_acquire | apply inv_release]. Qed.

Lemma inv_run (ops : list op) (s : t) : inv s -> inv (run ops s).
Proof.
  revert s. induction ops as [|o ops IH]; intros s Hs; simpl; [exact Hs |].
  apply IH, inv_step, Hs.
Qed.

Lemma release_wakes_at_most_one (s : t) : (length (snd (release s)) <= 1)%nat.
Proof.
  unfold release. destruct (waiting s); simpl; [lia |].
  destruct (0 <? permits s + 1); simpl; lia.
Qed.

End SemaphoreFacts.

(** C10.  Starting from [new Semaphore(n)] with [0 <= n], after every
    finite sequence of [acquire] and [release] calls the permit counter
    is not negative, the counter is 0 whenever a caller is parked, and a
    further [release] resolves at most one parked caller. *)
Theorem semaphore_invariant (n : Z) (ops : list Semaphore.op) :
  0 <= n ->
  let s := Semaphore.run ops (Semaphore.create n) in
  0 <= Semaphore.permits s
  /\ (Semaphore.waiting s <> [] -> Semaphore.permits s = 0)
  /\ (length (snd (Semaphore.release s)) <= 1)%nat.
Proof.
  intros Hn s.
  destruct (inv_run ops (Semaphore.create n) (inv_create n Hn)) as [Hp Hw].
  split; [exact Hp | split; [exact Hw | apply release_wakes_at_most_one]].
Qed.

Lemma semaphore_invariant_witness :
  let s := Semaphore.run
             [Semaphore.Acquire 1; Semaphore.Acquire 2; Semaphore.Acquire 3;
              Semaphore.Release; Semaphore.Release]%nat
             (Semaphore.create 2) in
  0 <= Semaphore.permits s
  /\ (Semaphore.waiting s <> [] -> Semaphore.permits s = 0)
  /\ (length (snd (Semaphore.release s)) <= 1)%nat.
Proof. apply (semaphore_invariant 2). lia. Defined.

(** ** The poller's timer *)

Section PollerFacts.
Import PendingActionsPoller.

(** Before a shutdown both fields are set; after one both are cleared. *)
Lemma run_flags (events : list event) (p : Poller) :
  isRunning p = pollTimer p ->
  isRunning (run events p) = pollTimer (run events p)
  /\ (Shutdown ∉ events -> isRunning (run events p) = isRunning p)
  /\ (Shutdown ∈ events -> isRunning (run events p) = false).
Proof.
  revert p. induction events as [|e events IH]; intros p Hp.
  - simpl. split; [exact Hp | split; [reflexivity |]].
    intros H. apply elem_of_nil in H. contradiction.
  - change (run (e :: events) p) with (run events (step p e)).
    assert (isRunning (step p e) = pollTimer (step p e)) as Hstep.
    { destruct p as [r t n]. simpl in Hp. subst t.
      destruct e, r; reflexivity. }
    destruct (IH (step p e) Hstep) as (H1 & H2 & H3).
    split; [exact H1 | split].
    + intros Hnot. rewrite H2.
      * destruct e; simpl; try reflexivity.
        -- destruct p as [r [] n], r; reflexivity.
        -- contradiction Hnot. apply elem_of_cons. left. reflexivity.
      * intros Hin. apply Hnot. apply elem_of_cons. right. exact Hin.
    + intros Hin. apply elem_of_cons in Hin as [He|Hin]; [| apply H3, Hin].
      subst e.
      destruct (decide (Shutdown ∈ events)) as [Hs|Hs]; [apply H3, Hs |].
      rewrite H2 by exact Hs. reflexivity.
Qed.

End PollerFacts.

(** C4, as the specification states it, fails: with the interval firing
    twice while no cycle has completed, two cycles are in flight. *)
Lemma cycles_overlap :
  PendingActionsPoller.inFlight
    (PendingActionsPoller.run
       [PendingActionsPoller.TimerFires; PendingActionsPoller.TimerFires]
       PendingActionsPoller.started) = 2%nat
  /\ PendingActionsPoller.isRunning
       (PendingActionsPoller.run
          [PendingActionsPoller.TimerFires; PendingActionsPoller.TimerFires]
          PendingActionsPoller.started) = true.
Proof. split; reflexivity. Qed.

(** C4, amended.  [isRunning] is set by [start()] and cleared only by
    [shutdown()]: in every state reached from the started poller, a
    firing of the interval begins one more cycle when no shutdown has
    happened, however many cycles are in flight, and begins none once a
    shutdown has happened. *)
Theorem tick_gated_by_shutdown_only (events : list PendingActionsPoller.event) :
  let p := PendingActionsPoller.run events PendingActionsPoller.started in
  let p' := PendingActionsPoller.step p PendingActionsPoller.TimerFires in
  (PendingActionsPoller.Shutdown ∉ events ->
     PendingActionsPoller.inFlight p' = S (PendingActionsPoller.inFlight p))
  /\ (PendingActionsPoller.Shutdown ∈ events ->
     PendingActionsPoller.inFlight p' = PendingActionsPoller.inFlight p).
Proof.
  intros p p'.
  destruct (run_flags events PendingActionsPoller.started eq_refl) as (H1 & H2 & H3).
  fold p in H1, H2, H3. subst p'. simpl.
  unfold PendingActionsPoller.tick.
  split; intros H.
  - specialize (H2 H). simpl in H2. rewrite <- H1, H2. reflexivity.
  - specialize (H3 H). rewrite <- H1, H3. reflexivity.
Qed.

Lemma tick_gated_by_shutdown_only_witness :
  PendingActionsPoller.inFlight
    (PendingActionsPoller.step
       (PendingActionsPoller.run
          [PendingActionsPoller.TimerFires; PendingActionsPoller.TimerFires]
          PendingActionsPoller.started)
       PendingActionsPoller.TimerFires) = 3%nat.
Proof.
  apply (proj1 (tick_gated_by_shutdown_only
                  [PendingActionsPoller.TimerFires; PendingActionsPoller.TimerFires])).
  intros H. repeat (apply elem_of_cons in H as [H|H]; [discriminate H |]).
  apply elem_of_nil in H. exact H.
Defined.

(** ** The page count of a key book *)

Section PageCountFacts.
Import Js Types UrlNormalizer AccumulateClient.

(** The third probe of [queryKeyBookPageCount] does not look at any
    [type]: when the first two probes find nothing, a numeric top-level
    [pageCount] is the result. *)
Lemma pageCountOf_top_level (fields : list (string * value)) (n : Z) :
  (is_str (get_opt (lookup_field "account" fields) "type") "keyBook" = false
   \/ forall m, get_opt (lookup_field "account" fields) "pageCount" <> VNum m) ->
  (is_str (get_opt (lookup_field "data" fields) "type") "keyBook" = false
   \/ forall m, get_opt (lookup_field "data" fields) "pageCount" <> VNum m) ->
  lookup_field "pageCount" fields = VNum n ->
  pageCountOf (VObj fields) = Some n.
Proof.
  intros Ha Hd Hn. unfold pageCountOf. cbn [get field mbind option_bind].
  assert (forall (v : value) (k : option Z),
            (is_str (get_opt v "type") "keyBook" = false
             \/ forall m, get_opt v "pageCount" <> VNum m) ->
            match is_str (get_opt v "type") "keyBook", get_opt v "pageCount" with
            | true, VNum m => Some m
            | _, _ => k
            end = k) as Hskip.
  { intros v k [H|H].
    - rewrite H. reflexivity.
    - destruct (is_str (get_opt v "type") "keyBook"); [| reflexivity].
      destruct (get_opt v "pageCount") eqn:E; try reflexivity.
      exfalso. exact (H _ eq_refl). }
  rewrite (Hskip _ _ Ha), (Hskip _ _ Hd), Hn. reflexivity.
Qed.

End PageCountFacts.

(** C8: a reply whose account is a token account, not a key book, but
    which carries a numeric top-level [pageCount] yields that number,
    where the claim says 0.  The first two probes test [type] against
    [keyBook]; the third, the fallback, does not. *)
Lemma pageCount_of_non_key_book :
  AccumulateClient.queryKeyBookPageCount
    (fun _ => Some Scenario.tokenAccountReply) "acc://alice.acme/tokens" = 3
  /\ Js.is_str (Js.get_opt (Js.field Scenario.tokenAccountReply "account") "type")
       "keyBook" = false
  /\ Js.is_str (Js.get_opt (Js.field Scenario.tokenAccountReply "data") "type")
       "keyBook" = false
  /\ Js.is_str (Js.field Scenario.tokenAccountReply "type") "keyBook" = false.
Proof. repeat split; reflexivity. Qed.

(** ** Strings *)

Section StringFacts.
Import JsString.

Lemma lower_char_idem (c : ascii) : lower_char (lower_char c) = lower_char c.
Proof. destruct c as [[] [] [] [] [] [] [] []]; reflexivity. Qed.

Lemma lowered_cons (a : ascii) (r : string) :
  lowered (String a r) <-> lower_char a = a /\ lowered r.
Proof.
  unfold lowered. simpl. split.
  - intros H. injection H as H1 H2. split; assumption.
  - intros [H1 H2]. rewrite H1, H2. reflexivity.
Qed.

Lemma lowered_toLowerCase (s : string) : lowered (toLowerCase s).
Proof.
  induction s as [|a r IH]; [reflexivity |].
  simpl. apply lowered_cons. split; [apply lower_char_idem | exact IH].
Qed.

Lemma lowered_trimStart (s : string) : lowered s -> lowered (trimStart s).
Proof.
  induction s as [|a r IH]; intros H; [exact H |].
  simpl. destruct (is_ws a); [| exact H].
  apply IH. apply lowered_cons in H. apply H.
Qed.

Lemma lowered_trimEnd (s : string) : lowered s -> lowered (trimEnd s).
Proof.
  induction s as [|a r IH]; intros H; [exact H |].
  apply lowered_cons in H as [Ha Hr]. specialize (IH Hr). simpl.
  destruct (trimEnd r) as [|b r'].
  - destruct (is_ws a); [reflexivity |].
    apply lowered_cons. split; [exact Ha | reflexivity].
  - apply lowered_cons. split; assumption.
Qed.

Lemma lowered_trim (s : string) : lowered s -> lowered (trim s).
Proof. intros H. apply lowered_trimEnd, lowered_trimStart, H. Qed.

Lemma lowered_substring_from (n : nat) (s : string) :
  lowered s -> lowered (substring_from n s).
Proof.
  revert s. induction n as [|n IH]; intros s H; [exact H |].
  destruct s as [|a r]; [exact H |].
  simpl. apply IH. apply lowered_cons in H. apply H.
Qed.

Lemma lowered_substring_to (n : nat) (s : string) :
  lowered s -> lowered (substring_to n s).
Proof.
  revert s. induction n as [|n IH]; intros s H; [reflexivity |].
  destruct s as [|a r]; [reflexivity |].
  apply lowered_cons in H as [Ha Hr].
  simpl. apply lowered_cons. split; [exact Ha | apply IH, Hr].
Qed.

Lemma lowered_slice (s : string) : lowered s -> lowered (slice_0_m1 s).
Proof.
  induction s as [|a r IH]; intros H; [exact H |].
  apply lowered_cons in H as [Ha Hr].
  destruct r as [|b r']; [reflexivity |].
  change (lowered (String a (slice_0_m1 (String b r')))).
  apply lowered_cons. split; [exact Ha | apply IH, Hr].
Qed.

Lemma lowered_append (a b : string) : lowered a -> lowered b -> lowered (a +:+ b).
Proof.
  induction a as [|c a IH]; intros Ha Hb; [exact Hb |].
  apply lowered_cons in Ha as [Hc Ha].
  change (lowered (String c (a +:+ b))).
  apply lowered_cons. split; [exact Hc | apply IH; assumption].
Qed.

(** *** [trim] is idempotent *)

Lemma head_ok_trimStart (s : string) : head_ok (trimStart s) = true.
Proof.
  induction s as [|a r IH]; [reflexivity |].
  simpl. destruct (is_ws a) eqn:E; [exact IH |]. simpl. rewrite E. reflexivity.
Qed.

Lemma trimStart_head_ok (s : string) : head_ok s = true -> trimStart s = s.
Proof.
  destruct s as [|a r]; [reflexivity |].
  simpl. destruct (is_ws a); [discriminate | reflexivity].
Qed.

Lemma head_ok_trimEnd (s : string) : head_ok s = true -> head_ok (trimEnd s) = true.
Proof.
  destruct s as [|a r]; [reflexivity |].
  simpl. destruct (is_ws a) eqn:E; [discriminate |].
  intros _. destruct (trimEnd r); simpl; rewrite E; reflexivity.
Qed.

Lemma trimEnd_idem (s : string) : trimEnd (trimEnd s) = trimEnd s.
Proof.
  induction s as [|a r IH]; [reflexivity |].
  simpl. destruct (trimEnd r) as [|b r'] eqn:E.
  - destruct (is_ws a) eqn:Ea; [reflexivity |]. simpl. rewrite Ea. reflexivity.
  - change (trimEnd (String a (String b r')))
      with (match trimEnd (String b r') with
            | EmptyString => if is_ws a then EmptyString else String a EmptyString
            | r'' => String a r''
            end).
    rewrite IH. reflexivity.
Qed.

Lemma trim_idem (s : string) : trim (trim s) = trim s.
Proof.
  unfold trim.
  rewrite (trimStart_head_ok (trimEnd (trimStart s))).
  - apply trimEnd_idem.
  - apply head_ok_trimEnd, head_ok_trimStart.
Qed.

(** *** Cutting at a character *)

Lemma indexOf_until (c : ascii) (s : string) (i : nat) :
  indexOf c s = Some i -> substring_to i s = until c s.
Proof.
  revert i. induction s as [|a r IH]; intros i H; [discriminate |].
  simpl in *. destruct (decide (a = c)).
  - injection H as <-. reflexivity.
  - destruct (indexOf c r) as [j|]; [| discriminate].
    injection H as <-. simpl. rewrite (IH j); reflexivity.
Qed.

Lemma indexOf_None_until (c : ascii) (s : string) :
  indexOf c s = None -> until c s = s.
Proof.
  induction s as [|a r IH]; intros H; [reflexivity |].
  simpl in *. destruct (decide (a = c)); [discriminate |].
  destruct (indexOf c r); [discriminate |]. rewrite IH; reflexivity.
Qed.

Lemma indexOf_until_None (c : ascii) (s : string) : indexOf c (until c s) = None.
Proof.
  induction s as [|a r IH]; [reflexivity |].
  simpl. destruct (decide (a = c)) as [|Hne]; [reflexivity |].
  simpl. destruct (decide (a = c)); [contradiction |]. rewrite IH. reflexivity.
Qed.

Lemma cut_until (c : ascii) (s : string) :
  indexOf c s <> Some O -> HashNormalizer.cut_after_first c s = until c s.
Proof.
  intros H. unfold HashNormalizer.cut_after_first.
  destruct (indexOf c s) as [[|i]|] eqn:E.
  - contradiction H; reflexivity.
  - apply indexOf_until, E.
  - symmetry. apply indexOf_None_until, E.
Qed.

Lemma until_until (s : string) :
  until "/" (until "@" s) = HashNormalizer.truncate_at_first s.
Proof.
  induction s as [|a r IH]; [reflexivity |].
  simpl. destruct (decide (a = "@"%char)) as [->|H1]; [reflexivity |].
  rewrite (bool_decide_eq_false_2 _ H1). simpl.
  destruct (decide (a = "/"%char)) as [->|H2]; [reflexivity |].
  rewrite (bool_decide_eq_false_2 _ H2). simpl. rewrite IH. reflexivity.
Qed.

Lemma cut_cut_truncate (s : string) :
  startsWith "@" s = false -> startsWith "/" s = false ->
  HashNormalizer.cut_after_first "/" (HashNormalizer.cut_after_first "@" s)
  = HashNormalizer.truncate_at_first s.
Proof.
  intros H1 H2.
  rewrite (cut_until "@" s), cut_until; [apply until_until | |].
  - destruct s as [|a r]; [discriminate |].
    simpl in *. destruct (decide ("@"%char = a)) as [|Hne]; [discriminate |].
    destruct (decide (a = "@"%char)); [congruence |].
    simpl. destruct (decide ("/"%char = a)) as [|Hne2]; [discriminate |].
    destruct (decide (a = "/"%char)); [congruence |].
    destruct (indexOf "/" (until "@" r)); discriminate.
  - destruct s as [|a r]; [discriminate |].
    simpl in *. destruct (decide ("@"%char = a)) as [|Hne]; [discriminate |].
    destruct (decide (a = "@"%char)); [congruence |].
    destruct (indexOf "@" r); discriminate.
Qed.

End StringFacts.

(** C6, as the specification states it, fails on inputs such as [@ab]:
    the source cuts at [@] and at [/] only when the index is positive,
    and trims once more at the end.  (The earlier revision of the file
    does not cut at all.) *)
Lemma normalizeHash_differs_from_reference :
  HashNormalizer.normalizeHash "@ab" = "@ab"
  /\ HashNormalizer.normalizeHash_reference "@ab" = ""
  /\ HashNormalizer.normalizeHash "ab @cd" = "ab"
  /\ HashNormalizer.normalizeHash_reference "ab @cd" = "ab "
  /\ HashNormalizer.normalizeHash_legacy "0xABCD@acc://x/y" = "abcd@acc://x/y".
Proof. repeat split; reflexivity. Qed.

(** C6, amended.  [normalizeHash] trims and lower-cases, strips a
    leading [0x], strips a leading [acc://], cuts at the first [@] when
    it is not at index 0, then at the first [/] when it is not at index
    0, and trims again.  So when what is left after the prefixes starts
    with neither [@] nor [/], the result is the trimmed reference
    value; [normalizeHash("0xABCD@acc://x/y")] is ["abcd"] and the empty
    input gives the empty output. *)
Theorem normalizeHash_refines_reference (hash : string) :
  (let body := HashNormalizer.strip_prefixes
                 (JsString.toLowerCase (JsString.trim hash)) in
   JsString.startsWith "@" body = false ->
   JsString.startsWith "/" body = false ->
   HashNormalizer.normalizeHash hash
   = JsString.trim (HashNormalizer.normalizeHash_reference hash))
  /\ HashNormalizer.normalizeHash "0xABCD@acc://x/y" = "abcd"
  /\ HashNormalizer.normalizeHash "" = "".
Proof.
  split; [| split; reflexivity].
  intros body H1 H2.
  unfold HashNormalizer.normalizeHash, HashNormalizer.normalizeHash_reference.
  destruct hash as [|a r]; [reflexivity |].
  cbv beta iota zeta delta [JsString.is_empty]. fold body.
  rewrite cut_cut_truncate by assumption. reflexivity.
Qed.

Lemma normalizeHash_refines_reference_witness :
  HashNormalizer.normalizeHash "0xABCD@acc://x/y"
  = JsString.trim (HashNormalizer.normalizeHash_reference "0xABCD@acc://x/y").
Proof.
  apply (proj1 (normalizeHash_refines_reference "0xABCD@acc://x/y")); reflexivity.
Defined.

(** ** Idempotence of the normalisers *)

Section IdempotenceFacts.
Import JsString HashNormalizer UrlNormalizer.

Lemma indexOf_None_substring_to (c : ascii) (n : nat) (s : string) :
  indexOf c s = None -> indexOf c (substring_to n s) = None.
Proof.
  revert s. induction n as [|n IH]; intros s H; [reflexivity |].
  destruct s as [|a r]; [reflexivity |].
  simpl in *. destruct (decide (a = c)); [discriminate |].
  destruct (indexOf c r) eqn:E; [discriminate |].
  rewrite (IH r E). reflexivity.
Qed.

Lemma settled_cons (c a : ascii) (r : string) :
  settled c (String a r) <-> a = c \/ indexOf c r = None.
Proof.
  unfold settled. simpl. destruct (decide (a = c)) as [->|Hne].
  - split; auto.
  - destruct (indexOf c r); simpl; split; intros [H|H];
      try discriminate; try contradiction; auto.
Qed.

Lemma settled_substring_to (c : ascii) (n : nat) (s : string) :
  settled c s -> settled c (substring_to (S n) s).
Proof.
  destruct s as [|a r]; intros H; [left; reflexivity |].
  simpl. apply settled_cons. apply settled_cons in H as [H|H]; [left; exact H |].
  right. apply indexOf_None_substring_to, H.
Qed.

Lemma settled_cut_same (c : ascii) (s : string) : settled c (cut_after_first c s).
Proof.
  unfold cut_after_first. destruct (indexOf c s) as [[|i]|] eqn:E.
  - right. exact E.
  - left. rewrite (indexOf_until c s (S i) E). apply indexOf_until_None.
  - left. exact E.
Qed.

Lemma settled_cut_other (c d : ascii) (s : string) :
  settled c s -> settled c (cut_after_first d s).
Proof.
  intros H. unfold cut_after_first.
  destruct (indexOf d s) as [[|i]|]; try exact H.
  apply settled_substring_to, H.
Qed.

Lemma settled_cut_id (c : ascii) (s : string) : settled c s -> cut_after_first c s = s.
Proof. unfold cut_after_first. intros [-> | ->]; reflexivity. Qed.

Lemma indexOf_None_trimStart (c : ascii) (s : string) :
  indexOf c s = None -> indexOf c (trimStart s) = None.
Proof.
  induction s as [|a r IH]; intros H; [reflexivity |].
  simpl. destruct (is_ws a); [| exact H].
  apply IH. simpl in H. destruct (decide (a = c)); [discriminate |].
  destruct (indexOf c r); [discriminate | reflexivity].
Qed.

Lemma indexOf_None_trimEnd (c : ascii) (s : string) :
  indexOf c s = None -> indexOf c (trimEnd s) = None.
Proof.
  induction s as [|a r IH]; intros H; [reflexivity |].
  simpl in H. destruct (decide (a = c)) as [|Hne]; [discriminate |].
  destruct (indexOf c r) eqn:E; [discriminate |]. specialize (IH eq_refl).
  simpl. destruct (trimEnd r) as [|b r'].
  - destruct (is_ws a); [reflexivity |].
    simpl. destruct (decide (a = c)); [contradiction | reflexivity].
  - change (indexOf c (String a (String b r')))
      with (if decide (a = c) then Some O else S <$> indexOf c (String b r')).
    destruct (decide (a = c)); [contradiction |]. rewrite IH. reflexivity.
Qed.

Lemma settled_trim (c : ascii) (s : string) :
  is_ws c = false -> settled c s -> settled c (trim s).
Proof.
  intros Hc H. unfold trim. destruct s as [|a r]; [left; reflexivity |].
  destruct (decide (a = c)) as [->|Hne].
  - right. simpl. rewrite Hc. simpl.
    destruct (trimEnd r); [rewrite Hc |]; simpl;
      destruct (decide (c = c)); try contradiction; reflexivity.
  - apply settled_cons in H as [H|H]; [contradiction |].
    left. apply indexOf_None_trimEnd, indexOf_None_trimStart.
    simpl. destruct (decide (a = c)); [contradiction |]. rewrite H. reflexivity.
Qed.

Lemma lowered_cut (c : ascii) (s : string) : lowered s -> lowered (cut_after_first c s).
Proof.
  intros H. unfold cut_after_first.
  destruct (indexOf c s) as [[|i]|]; try exact H.
  apply lowered_substring_to, H.
Qed.

Lemma lowered_strip (s : string) : lowered s -> lowered (strip_prefixes s).
Proof.
  intros H. unfold strip_prefixes.
  repeat match goal with
         | |- context [if ?b then _ else _] => destruct b
         end;
    repeat apply lowered_substring_from; exact H.
Qed.

(** The shape of every value of [normalizeHash]. *)
Lemma normalizeHash_shape (hash : string) :
  let y := normalizeHash hash in
  lowered y /\ trim y = y /\ settled "@" y /\ settled "/" y.
Proof.
  unfold normalizeHash. destruct (is_empty hash).
  { repeat split; try reflexivity; left; reflexivity. }
  cbv zeta. repeat split.
  - apply lowered_trim, lowered_cut, lowered_cut, lowered_strip, lowered_toLowerCase.
  - apply trim_idem.
  - apply settled_trim; [reflexivity |]. apply settled_cut_other, settled_cut_same.
  - apply settled_trim; [reflexivity |]. apply settled_cut_same.
Qed.

Lemma startsWith_split (p s : string) :
  startsWith p s = true -> exists q, s = p +:+ q.
Proof.
  revert s. induction p as [|a p IH]; intros s H.
  - exists s. reflexivity.
  - destruct s as [|b s]; [discriminate |].
    simpl in H. destruct (decide (a = b)) as [->|]; [| discriminate].
    destruct (IH s H) as [q ->]. exists q. reflexivity.
Qed.

Lemma settled_slash_no_scheme (y : string) :
  settled "/" y -> startsWith "acc://" y = false.
Proof.
  intros H. destruct (startsWith "acc://" y) eqn:E; [| reflexivity].
  apply startsWith_split in E as [q ->].
  destruct H as [H|H]; discriminate H.
Qed.

Lemma normalizeHash_fixed (y : string) :
  lowered y -> trim y = y -> settled "@" y -> settled "/" y ->
  startsWith "0x" y = false ->
  normalizeHash y = y.
Proof.
  intros Hl Ht Ha Hs H0. unfold normalizeHash.
  destruct (is_empty y) eqn:E; [destruct y; [reflexivity | discriminate] |].
  cbv zeta. unfold lowered in Hl. rewrite Ht, Hl. unfold strip_prefixes.
  rewrite H0, (settled_slash_no_scheme y Hs).
  rewrite (settled_cut_id "@" y Ha), (settled_cut_id "/" y Hs). exact Ht.
Qed.

(** What [normalizeUrl] builds before it looks for a trailing slash. *)
Lemma ensured_scheme (t : string) :
  startsWith "acc://"
    (if startsWith "acc://" t then t
     else if startsWith "acc:" t then "acc://" +:+ substring_from 4 t
          else "acc://" +:+ t) = true.
Proof.
  destruct (startsWith "acc://" t) eqn:E; [exact E |].
  destruct (startsWith "acc:" t); reflexivity.
Qed.

Lemma slice_keeps_scheme (p : string) :
  startsWith "acc://" p = true ->
  endsWith_char "/" (slice_0_m1 p) = false ->
  startsWith "acc://" (slice_0_m1 p) = true.
Proof.
  intros H He. apply startsWith_split in H as [q ->].
  destruct q as [|b q]; [discriminate He | reflexivity].
Qed.

Lemma normalizeUrl_shape (url : string) :
  let y := normalizeUrl url in
  lowered y /\ (url <> "" -> endsWith_char "/" y = false -> startsWith "acc://" y = true).
Proof.
  unfold normalizeUrl. destruct url as [|a r]; [split; [reflexivity | congruence] |].
  cbv beta iota zeta delta [is_empty].
  set (t := trim (toLowerCase (String a r))).
  assert (lowered t) as Ht by apply lowered_trim, lowered_toLowerCase.
  pose proof (ensured_scheme t) as Hp.
  set (p := if startsWith "acc://" t then t
            else if startsWith "acc:" t then "acc://" +:+ substring_from 4 t
                 else "acc://" +:+ t) in *.
  assert (lowered p) as Hlp.
  { subst p. destruct (startsWith "acc://" t); [exact Ht |].
    destruct (startsWith "acc:" t); apply lowered_append;
      try reflexivity; [apply lowered_substring_from |]; exact Ht. }
  destruct (endsWith_char "/" p) eqn:E.
  - split; [apply lowered_slice, Hlp |]. intros _ He. apply slice_keeps_scheme; assumption.
  - split; [exact Hlp | intros _ _; exact Hp].
Qed.

Lemma normalizeUrl_fixed (y : string) :
  lowered y -> trim y = y -> startsWith "acc://" y = true ->
  endsWith_char "/" y = false ->
  normalizeUrl y = y.
Proof.
  intros Hl Ht Hs He. unfold normalizeUrl.
  destruct y as [|a r]; [reflexivity |].
  cbv beta iota zeta delta [is_empty].
  unfold lowered in Hl. rewrite Hl, Ht, Hs, He. reflexivity.
Qed.

End IdempotenceFacts.

(** C7, as the specification states it, fails for both functions: each
    removes a prefix or a trailing slash once, so a doubled one survives
    the first application. *)
Lemma normalizers_not_idempotent :
  HashNormalizer.normalizeHash "0x0xab" = "0xab"
  /\ HashNormalizer.normalizeHash (HashNormalizer.normalizeHash "0x0xab") = "ab"
  /\ UrlNormalizer.normalizeUrl "a//" = "acc://a/"
  /\ UrlNormalizer.normalizeUrl (UrlNormalizer.normalizeUrl "a//") = "acc://a".
Proof. repeat split; reflexivity. Qed.

(** C7, amended.  [normalizeHash] applied to one of its values returns
    that value whenever the value does not start with [0x];
    [normalizeUrl] applied to one of its values returns that value
    whenever the value ends neither with [/] nor with white space. *)
Theorem normalizers_idempotent_on_settled_values (x : string) :
  (JsString.startsWith "0x" (HashNormalizer.normalizeHash x) = false ->
   HashNormalizer.normalizeHash (HashNormalizer.normalizeHash x)
   = HashNormalizer.normalizeHash x)
  /\ (JsString.endsWith_char "/" (UrlNormalizer.normalizeUrl x) = false ->
      JsString.trim (UrlNormalizer.normalizeUrl x) = UrlNormalizer.normalizeUrl x ->
      UrlNormalizer.normalizeUrl (UrlNormalizer.normalizeUrl x)
      = UrlNormalizer.normalizeUrl x).
Proof.
  split.
  - intros H0. destruct (normalizeHash_shape x) as (Hl & Ht & Ha & Hs).
    apply normalizeHash_fixed; assumption.
  - intros He Ht. destruct (normalizeUrl_shape x) as [Hl Hs].
    destruct (decide (x = "")) as [->|Hx]; [reflexivity |].
    apply normalizeUrl_fixed; auto.
Qed.

Lemma normalizers_idempotent_on_settled_values_witness :
  HashNormalizer.normalizeHash (HashNormalizer.normalizeHash "0xABCD@acc://x/y")
  = HashNormalizer.normalizeHash "0xABCD@acc://x/y"
  /\ UrlNormalizer.normalizeUrl (UrlNormalizer.normalizeUrl "ACC://FOO.ACME/")
     = UrlNormalizer.normalizeUrl "ACC://FOO.ACME/".
Proof.
  split.
  - apply (proj1 (normalizers_idempotent_on_settled_values "0xABCD@acc://x/y")).
    reflexivity.
  - apply (proj2 (normalizers_idempotent_on_settled_values "ACC://FOO.ACME/"));
      reflexivity.
Defined.

(** ** The inbox reconciler *)

Section ReconcilerFacts.
Import JsString Types HashNormalizer FirestoreClient StateManagerService.

Lemma elem_of_JsSet_fold (x : string) (xs s0 : list string) :
  x ∈ fold_left (fun s y => JsSet.add y s) xs s0 <-> x ∈ s0 \/ x ∈ xs.
Proof.
  revert s0. induction xs as [|y xs IH]; intros s0; simpl.
  - rewrite elem_of_nil. tauto.
  - rewrite IH, elem_of_cons. unfold JsSet.add, JsSet.has.
    case_bool_decide as Hy.
    + split; [tauto |]. intros [H|[->|H]]; auto.
    + rewrite elem_of_app, list_elem_of_singleton. tauto.
Qed.

Lemma elem_of_JsSet_of_list (x : string) (xs : list string) :
  x ∈ JsSet.of_list xs <-> x ∈ xs.
Proof.
  unfold JsSet.of_list. rewrite elem_of_JsSet_fold, elem_of_nil. tauto.
Qed.

(** *** Document references *)

Lemma splitSlash_plain (k : string) : indexOf "/" k = None -> splitSlash k = [k].
Proof.
  induction k as [|c r IH]; [reflexivity |]. cbn [indexOf splitSlash].
  destruct (decide (c = "/"%char)) as [->|Hc]; [discriminate |].
  destruct (indexOf "/" r); [discriminate |]. intros _. rewrite IH by reflexivity. reflexivity.
Qed.

Lemma hasDoubleSlash_plain (k : string) : indexOf "/" k = None -> hasDoubleSlash k = false.
Proof.
  induction k as [|c r IH]; [reflexivity |]. cbn [indexOf hasDoubleSlash].
  destruct (decide (c = "/"%char)) as [->|Hc]; [discriminate |].
  destruct (indexOf "/" r); [discriminate |]. intros _. rewrite IH by reflexivity.
  rewrite (bool_decide_eq_false_2 _ Hc). destruct r; reflexivity.
Qed.

(** A document id names the document of that id. *)
Lemma doc_documentId (k : string) : isDocumentId k = true -> doc k = Some [k].
Proof.
  unfold isDocumentId, doc. intros H. apply andb_true_iff in H as [Hne Hs].
  apply negb_true_iff in Hne. apply bool_decide_eq_true in Hs.
  rewrite Hne, (hasDoubleSlash_plain k Hs), (splitSlash_plain k Hs). cbv zeta.
  cbn [List.filter]. rewrite Hne. reflexivity.
Qed.

(** A path without [/] that names a document is the id of that
    document. *)
Lemma doc_plain (h : string) (ref : list string) :
  indexOf "/" h = None -> doc h = Some ref -> ref = [h] /\ isDocumentId h = true.
Proof.
  intros Hs Hd.
  assert (isDocumentId h = true) as Hid.
  { unfold isDocumentId. rewrite (bool_decide_eq_true_2 _ Hs), andb_true_r.
    unfold doc in Hd. destruct (is_empty h); [discriminate | reflexivity]. }
  rewrite (doc_documentId h Hid) in Hd. injection Hd as <-. split; [reflexivity | exact Hid].
Qed.

Lemma mapM_doc_ids (ks : list string) (refs : list (list string)) :
  Forall (fun k => isDocumentId k = true) ks ->
  mapM doc ks = Some refs -> refs = List.map (fun k => [k]) ks.
Proof.
  intros Hks H. apply mapM_Some_1 in H. revert Hks.
  induction H as [|k ref ks refs Hk _ IH]; intros Hks; [reflexivity |].
  apply Forall_cons in Hks as [Hid Hks]. rewrite (doc_documentId k Hid) in Hk.
  injection Hk as <-. simpl. rewrite (IH Hks). reflexivity.
Qed.

Lemma mapM_doc_actions (acts : list PendingActionDocument)
    (written : list (list string * PendingActionDocument)) :
  Forall (fun a => indexOf "/" (pad_id a) = None) acts ->
  mapM (fun action => ref ← doc (pad_id action); Some (ref, action)) acts = Some written ->
  written = List.map (fun a => ([pad_id a], a)) acts
  /\ Forall (fun a => isDocumentId (pad_id a) = true) acts.
Proof.
  intros Hs H. apply mapM_Some_1 in H. revert Hs.
  induction H as [|a w acts written Ha _ IH]; intros Hs; [split; [reflexivity | constructor] |].
  apply Forall_cons in Hs as [Hsa Hs]. destruct (IH Hs) as [-> Hall].
  destruct (doc (pad_id a)) as [ref|] eqn:E; [| discriminate]. simpl in Ha.
  injection Ha as <-. destruct (doc_plain _ _ Hsa E) as [-> Hid].
  split; [reflexivity | constructor; assumption].
Qed.

Lemma fold_batchDelete_ids (ks : list string) (d : Documents) :
  fold_left batchDelete (List.map (fun k => [k]) ks) d
  = (fold_left deleteById ks (fst d), snd d).
Proof.
  revert d. induction ks as [|k ks IH]; intros [docs deep]; [reflexivity |].
  simpl. rewrite IH. reflexivity.
Qed.

Lemma fold_batchSet_ids (acts : list PendingActionDocument) (d : Documents) :
  fold_left batchSet (List.map (fun a => ([pad_id a], a)) acts) d
  = (fold_left setById acts (fst d), snd d).
Proof.
  revert d. induction acts as [|a acts IH]; intros [docs deep]; [reflexivity |].
  simpl. rewrite IH. reflexivity.
Qed.

(** A committed batch whose references are document ids. *)
Lemma updatePendingActions_ids (toAdd : list PendingActionDocument)
    (toRemove : list string) (state : ComputedPendingState) (s s' : Store) :
  Forall (fun k => isDocumentId k = true) toRemove ->
  Forall (fun a => indexOf "/" (pad_id a) = None) toAdd ->
  updatePendingActions toAdd toRemove state s = Some s' ->
  available s = true
  /\ Forall (fun a => isDocumentId (pad_id a) = true) toAdd
  /\ s' = mkStore true
            (fold_left setById toAdd (fold_left deleteById toRemove (pendingActions s)))
            (Some state) (deeper s).
Proof.
  intros Hrm Hadd. unfold updatePendingActions.
  destruct (mapM doc toRemove) as [removed|] eqn:Er; [| discriminate].
  cbn [mbind option_bind].
  destruct (mapM _ toAdd) as [written|] eqn:Ew; [| discriminate].
  cbn [mbind option_bind].
  destruct (available s); [| discriminate]. cbv zeta. intros [= <-].
  rewrite (mapM_doc_ids _ _ Hrm Er).
  destruct (mapM_doc_actions _ _ Hadd Ew) as [-> Hids].
  rewrite fold_batchDelete_ids, fold_batchSet_ids. simpl.
  split; [reflexivity | split; [exact Hids | reflexivity]].
Qed.

Lemma dom_deleteById (ks : list string) (docs : gmap string PendingActionDocument) :
  dom (fold_left deleteById ks docs) = dom docs ∖ list_to_set ks.
Proof.
  revert docs. induction ks as [|k ks IH]; intros docs; simpl.
  - set_solver.
  - rewrite IH. unfold deleteById. rewrite dom_delete_L. set_solver.
Qed.

Lemma dom_setById (acts : list PendingActionDocument)
    (docs : gmap string PendingActionDocument) :
  dom (fold_left setById acts docs) = dom docs ∪ list_to_set (List.map pad_id acts).
Proof.
  revert docs. induction acts as [|a acts IH]; intros docs; simpl.
  - set_solver.
  - rewrite IH. unfold setById. rewrite dom_insert_L. set_solver.
Qed.

Lemma mergeDoc_id (old : option PendingActionDocument) (new : PendingActionDocument) :
  pad_id (mergeDoc old new) = pad_id new.
Proof. unfold mergeDoc. destruct old, (pad_expiresAt new); reflexivity. Qed.

Lemma keyed_deleteById (ks : list string) (docs : gmap string PendingActionDocument) :
  keyed docs -> keyed (fold_left deleteById ks docs).
Proof.
  revert docs. induction ks as [|k ks IH]; intros docs H; simpl; [exact H |].
  apply IH. intros k' doc Hk. unfold deleteById in Hk.
  apply lookup_delete_Some in Hk as [_ Hk]. apply H, Hk.
Qed.

Lemma keyed_setById (acts : list PendingActionDocument)
    (docs : gmap string PendingActionDocument) :
  Forall (fun a => isDocumentId (pad_id a) = true) acts ->
  keyed docs -> keyed (fold_left setById acts docs).
Proof.
  revert docs. induction acts as [|a acts IH]; intros docs Hids H; simpl; [exact H |].
  apply Forall_cons in Hids as [Hid Hids].
  apply IH; [exact Hids |]. intros k doc Hk. unfold setById in Hk.
  apply lookup_insert_Some in Hk as [[<- <-]|[_ Hk]].
  - split; [apply mergeDoc_id | exact Hid].
  - apply H, Hk.
Qed.

(** The ids the removal loop collects, when the store is keyed. *)
Lemma toRemove_ids (docs : gmap string PendingActionDocument) (newHashes : list string) :
  keyed docs ->
  list_to_set (C := gset string)
    (List.map pad_id
       (List.filter (fun doc => negb (JsSet.has (pad_id doc) newHashes))
                    (snd <$> map_to_list docs)))
  = dom docs ∖ list_to_set newHashes.
Proof.
  intros Hk. apply set_eq. intros x.
  rewrite elem_of_list_to_set, list_elem_of_In, in_map_iff.
  rewrite elem_of_difference, elem_of_dom, elem_of_list_to_set.
  split.
  - intros (doc & <- & Hin). apply filter_In in Hin as [Hin Hf].
    apply list_elem_of_In, list_elem_of_fmap in Hin as ([k d] & -> & Hin).
    apply elem_of_map_to_list in Hin. simpl in *.
    rewrite (proj1 (Hk k d Hin)) in *. split; [eexists; exact Hin |].
    unfold JsSet.has in Hf. apply negb_true_iff, bool_decide_eq_false in Hf. exact Hf.
  - intros [[doc Hdoc] Hx]. exists doc. split; [apply Hk, Hdoc |].
    apply filter_In. split.
    + apply list_elem_of_In, list_elem_of_fmap. exists (x, doc).
      split; [reflexivity | apply elem_of_map_to_list, Hdoc].
    + rewrite (proj1 (Hk x doc Hdoc)). unfold JsSet.has.
      apply negb_true_iff, bool_decide_eq_false. exact Hx.
Qed.

Lemma toRemove_documentIds (docs : gmap string PendingActionDocument)
    (newHashes : list string) :
  keyed docs ->
  Forall (fun k => isDocumentId k = true)
    (List.map pad_id
       (List.filter (fun doc => negb (JsSet.has (pad_id doc) newHashes))
                    (snd <$> map_to_list docs))).
Proof.
  intros Hk. apply Forall_forall. intros x Hx.
  apply list_elem_of_In, in_map_iff in Hx as (d & <- & Hin).
  apply filter_In in Hin as [Hin _].
  apply list_elem_of_In, list_elem_of_fmap in Hin as ([k d'] & -> & Hin).
  apply elem_of_map_to_list in Hin. simpl.
  destruct (Hk k d' Hin) as [-> Hid]. exact Hid.
Qed.

(** The documents an update builds carry the hashes of the discovery. *)
Lemma build_fields (eligible : EligibleTransaction) (sigs : list AccumulateSignature)
    (now : Z) (d : PendingActionDocument) :
  buildPendingActionDocument eligible sigs now = Some d ->
  pad_id d = normalizeHash (tx_hash (et_tx eligible))
  /\ pad_createdAt d = now /\ pad_updatedAt d = now /\ pad_discoveredAt d = now
  /\ pad_userHasSigned d = false.
Proof.
  unfold buildPendingActionDocument. cbv zeta.
  destruct (mapM convertSignature sigs) as [records|]; [| discriminate].
  cbn [mbind option_bind].
  destruct (match tx_expiresAt (et_tx eligible) with
            | Some e => Some <$> createTimestamp e
            | None => Some None
            end) as [expiresAt|]; [| discriminate].
  cbn [mbind option_bind]. intros [= <-]. simpl. auto.
Qed.

Lemma documentsOf_ids (now : Z) (discovery : DiscoveryResult)
    (toAdd : list PendingActionDocument) :
  documentsOf now discovery = Some toAdd ->
  List.map pad_id toAdd = hashesOf discovery.
Proof.
  unfold documentsOf, hashesOf. intros H. apply mapM_Some_1 in H.
  induction H as [|t d ts ds Hd _ IH]; [reflexivity |].
  simpl. rewrite IH. f_equal. apply (build_fields _ _ _ _ Hd).
Qed.

(** What a committed update is, for a store whose documents carry their
    ids and a discovery whose hashes contain no [/]. *)
Lemma update_committed (now dateNow : Z) (cycleToken : string)
    (discovery : DiscoveryResult) (s : Store) (r : UpdateResult) (s' : Store) :
  keyed (pendingActions s) ->
  Forall (fun h => indexOf "/" h = None) (hashesOf discovery) ->
  updateUserPendingState false now dateNow cycleToken discovery s = Some (r, s') ->
  exists toAdd c,
    available s = true
    /\ documentsOf now discovery = Some toAdd
    /\ Forall (fun h => isDocumentId h = true) (hashesOf discovery)
    /\ s' = mkStore true
              (fold_left setById toAdd
                 (fold_left deleteById (toRemoveOf discovery s) (pendingActions s)))
              (Some c) (deeper s)
    /\ ur_added r
       = Z.of_nat (length toAdd)
         - Z.of_nat (length (JsSet.of_list
                               (List.map pad_id (snd <$> map_to_list (pendingActions s)))))
    /\ ur_removed r = Z.of_nat (length (toRemoveOf discovery s))
    /\ cps_txHashes c = JsSet.of_list (hashesOf discovery)
    /\ cps_count c = totalCount discovery
    /\ cps_initiatedCount c
       = countIf (fun t => match et_category t with
                           | initiated_by_user => true | _ => false end)
                 (eligibleTransactions discovery)
    /\ cps_requiresSignatureCount c
       = countIf (fun t => match et_category t with
                           | requiring_signature => true | _ => false end)
                 (eligibleTransactions discovery)
    /\ cps_urgentCount c
       = countIf (fun t => match tx_expiresAt (et_tx t) with
                           | Some e => isUrgent dateNow e
                           | None => false
                           end) (eligibleTransactions discovery).
Proof.
  intros Hk Hs. unfold updateUserPendingState, getPendingActions.
  destruct (available s) eqn:Hav; [| discriminate]. cbv zeta.
  fold (hashesOf discovery). fold (documentsOf now discovery).
  fold (toRemoveOf discovery s).
  destruct (documentsOf now discovery) as [toAdd|] eqn:Ed; [| discriminate].
  destruct (updatePendingActions toAdd _ _ s) as [s1|] eqn:Eu; [| discriminate].
  intros [= <- <-].
  pose proof (documentsOf_ids now discovery toAdd Ed) as Hids.
  apply updatePendingActions_ids in Eu as (_ & Hdoc & ->).
  - eexists toAdd, _. split; [reflexivity |]. split; [reflexivity |].
    split; [| split; [reflexivity |]; simpl; auto 10].
    rewrite <- Hids. apply Forall_forall. intros h Hh.
    apply list_elem_of_In, in_map_iff in Hh as (a & <- & Ha).
    rewrite Forall_forall in Hdoc. apply Hdoc, list_elem_of_In, Ha.
  - apply toRemove_documentIds, Hk.
  - apply Forall_forall. intros a Ha. rewrite Forall_forall in Hs. apply Hs.
    rewrite <- Hids. apply list_elem_of_In, in_map, list_elem_of_In, Ha.
Qed.

Lemma committed_documents (discovery : DiscoveryResult) (s : Store)
    (toAdd : list PendingActionDocument) :
  keyed (pendingActions s) ->
  List.map pad_id toAdd = hashesOf discovery ->
  Forall (fun h => isDocumentId h = true) (hashesOf discovery) ->
  dom (fold_left setById toAdd
         (fold_left deleteById (toRemoveOf discovery s) (pendingActions s)))
  = list_to_set (hashesOf discovery)
  /\ keyed (fold_left setById toAdd
              (fold_left deleteById (toRemoveOf discovery s) (pendingActions s))).
Proof.
  intros Hk Hids Hdoc. split.
  - rewrite dom_setById, dom_deleteById. unfold toRemoveOf.
    rewrite (toRemove_ids _ _ Hk), Hids.
    assert (list_to_set (C := gset string) (JsSet.of_list (hashesOf discovery))
            = list_to_set (hashesOf discovery)) as ->.
    { apply set_eq. intros x. rewrite !elem_of_list_to_set.
      apply elem_of_JsSet_of_list. }
    apply set_eq. intros x. rewrite elem_of_union, !elem_of_difference.
    destruct (decide (x ∈ (list_to_set (hashesOf discovery) : gset string))); tauto.
  - apply keyed_setById; [| apply keyed_deleteById, Hk].
    apply Forall_forall. intros a Ha. rewrite Forall_forall in Hdoc. apply Hdoc.
    rewrite <- Hids. apply list_elem_of_In, in_map, list_elem_of_In, Ha.
Qed.

End ReconcilerFacts.

(** A store whose only document lies under a key that is not its [id]
    field, and a store whose document carries its key. *)
Lemma tidyStore_keyed : FirestoreClient.keyed (FirestoreClient.pendingActions Scenario.tidyStore).
Proof.
  intros k doc H. unfold Scenario.tidyStore in H. simpl in H.
  apply lookup_singleton_Some in H as [<- <-]. split; reflexivity.
Qed.

(** C3, as the specification states it, fails, in two ways.  The removal
    loop names a stored document by the [id] field of its data, so a
    document stored under another key survives a cycle that found
    nothing.  And a hash is made a document reference as a path: the
    document for the hash [/ab] is stored under the id [ab], and for the
    empty hash no reference exists and the update throws. *)
Lemma stale_document_survives :
  (exists r s',
     StateManagerService.updateUserPendingState false 2000 2000 "token"
       Scenario.emptyDiscovery Scenario.staleStore = Some (r, s')
     /\ FirestoreClient.pendingActions s' !! "bb22" = Some Scenario.staleDoc)
  /\ (exists r s' d,
        StateManagerService.updateUserPendingState false 2000 2000 "token"
          Scenario.slashDiscovery Scenario.tidyStore = Some (r, s')
        /\ StateManagerService.hashesOf Scenario.slashDiscovery = ["/ab"]
        /\ FirestoreClient.pendingActions s' !! "/ab" = None
        /\ FirestoreClient.pendingActions s' !! "ab" = Some d
        /\ Types.pad_id d = "/ab")
  /\ StateManagerService.hashesOf Scenario.blankDiscovery = [""]
  /\ StateManagerService.updateUserPendingState false 2000 2000 "token"
       Scenario.blankDiscovery Scenario.tidyStore = None.
Proof.
  split; [eexists _, _; split; [vm_compute; reflexivity | reflexivity] |].
  split; [| split; vm_compute; reflexivity].
  eexists _, _, _. split; [vm_compute; reflexivity |]. split; [reflexivity |].
  split; [reflexivity |]. split; reflexivity.
Qed.

(** C3, amended.  When every document of the subcollection carries its
    document id in its [id] field (which the service's own writes
    maintain) and no normalised hash of the discovery contains a [/], a
    non-dry-run [updateUserPendingState] that commits leaves in the
    subcollection exactly the documents whose ids are the normalised
    hashes of the eligible transactions, each document again carrying
    its id. *)
Theorem reconciled_document_ids
    (now dateNow : Z) (cycleToken : string)
    (discovery : Types.DiscoveryResult) (s : FirestoreClient.Store)
    (r : Types.UpdateResult) (s' : FirestoreClient.Store) :
  FirestoreClient.keyed (FirestoreClient.pendingActions s) ->
  Forall (fun h => JsString.indexOf "/" h = None) (StateManagerService.hashesOf discovery) ->
  StateManagerService.updateUserPendingState false now dateNow cycleToken discovery s
  = Some (r, s') ->
  dom (FirestoreClient.pendingActions s')
  = list_to_set
      (List.map (fun t => HashNormalizer.normalizeHash (Types.tx_hash (Types.et_tx t)))
                (Types.eligibleTransactions discovery))
  /\ FirestoreClient.keyed (FirestoreClient.pendingActions s').
Proof.
  intros Hk Hs Hrun.
  destruct (update_committed now dateNow cycleToken discovery s r s' Hk Hs Hrun)
    as (toAdd & c & _ & Hdocs & Hids & -> & _).
  exact (committed_documents discovery s toAdd Hk
           (documentsOf_ids now discovery toAdd Hdocs) Hids).
Qed.

Lemma reconciled_document_ids_witness :
  exists r s',
    StateManagerService.updateUserPendingState false 2000 2000 "token"
      Scenario.oneDiscovery Scenario.tidyStore = Some (r, s')
    /\ dom (FirestoreClient.pendingActions s')
       = list_to_set
           (List.map (fun t => HashNormalizer.normalizeHash (Types.tx_hash (Types.et_tx t)))
                     (Types.eligibleTransactions Scenario.oneDiscovery))
    /\ FirestoreClient.keyed (FirestoreClient.pendingActions s').
Proof.
  eexists _, _. split; [vm_compute; reflexivity |].
  eapply (reconciled_document_ids 2000 2000 "token" Scenario.oneDiscovery Scenario.tidyStore).
  - exact tidyStore_keyed.
  - repeat constructor.
  - vm_compute. reflexivity.
Defined.

(** ** Phase 1 of the discovery *)

Section JsMapFacts.
Context {V : Type}.



End JsMapFacts.

Section Phase1Facts.
Import Types HashNormalizer PendingDiscoveryService.

Abbreviation addAll :=
  (fold_left (fun m (a : AccumulatePendingTx * string) =>
                addEligibleTx m (fst a) (snd a) requiring_signature)).











Context (call : Params -> option Js.value)
        (parse : Js.value -> string -> option AccumulatePendingTx)
        (pageSize : Z).




End Phase1Facts.




(** ** The delegation walk *)

Section ForEachFacts.
Import SigningPathService.
Context {A S : Type}.

Lemma forEach_cons (body : A -> S -> option S) (x : A) (xs : list A) (s : S) :
  forEach body (x :: xs) s
  = match body x s with None => None | Some s' => forEach body xs s' end.
Proof. reflexivity. Qed.

Lemma forEach_total (body : A -> S -> option S) :
  (forall x s, exists s', body x s = Some s') ->
  forall xs s, exists r, forEach body xs s = Some r.
Proof.
  intros Hb xs. induction xs as [|x xs IH]; intros s; [eexists; reflexivity |].
  rewrite forEach_cons. destruct (Hb x s) as [s' ->]. apply IH.
Qed.

Lemma forEach_mono (body1 body2 : A -> S -> option S) (xs : list A) (s r : S) :
  (forall x s s', body1 x s = Some s' -> body2 x s = Some s') ->
  forEach body1 xs s = Some r -> forEach body2 xs s = Some r.
Proof.
  intros Hb. revert s. induction xs as [|x xs IH]; intros s H; simpl in *; [exact H |].
  destruct (body1 x s) as [s'|] eqn:E; [| discriminate].
  rewrite (Hb x s s' E). apply IH, H.
Qed.

End ForEachFacts.

Section FollowFacts.
Import Types UrlNormalizer AccumulateClient SigningPathService.

Context (call : Params -> option Js.value) (maxDepth : Z) (U : gset string).

(** The delegation graph is finite: every delegate of every key page the
    ledger serves has its normal form in [U]. *)
Hypothesis closed :
  forall url kp d,
    queryKeyPage call url = Some kp ->
    d ∈ liveDelegates (akp_keys kp) ->
    normalizeUrl d ∈ U.

Abbreviation follow := (followDelegationChain call maxDepth).

Lemma grows_refl (v : gset string) : grows U v v [].
Proof.
  split; [set_solver | split; [set_solver | split]].
  - intros p Hp. apply elem_of_nil in Hp. contradiction.
  - constructor.
Qed.

Lemma grows_trans (v1 v2 v3 : gset string) (new1 new2 : list SigningPath) :
  grows U v1 v2 new1 -> grows U v2 v3 new2 -> grows U v1 v3 (new1 ++ new2).
Proof.
  intros (Ha & Hb & Hc & Hd) (Ha' & Hb' & Hc' & Hd').
  split; [set_solver | split; [set_solver | split]].
  - intros p Hp. apply elem_of_app in Hp as [Hp|Hp].
    + destruct (Hc p Hp). set_solver.
    + destruct (Hc' p Hp). set_solver.
  - rewrite fmap_app. apply NoDup_app. split; [exact Hd | split; [| exact Hd']].
    intros x Hx Hx'.
    apply list_elem_of_fmap in Hx as (p & -> & Hp).
    apply list_elem_of_fmap in Hx' as (q & Heq & Hq).
    destruct (Hc p Hp) as [Hin _]. destruct (Hc' q Hq) as [_ Hout].
    rewrite Heq in Hin. contradiction.
Qed.

Lemma size_remaining_le (v v' : gset string) :
  v ⊆ v' -> (size (U ∖ v') <= size (U ∖ v))%nat.
Proof. intros H. apply subseteq_size. set_solver. Qed.

Lemma size_remaining_lt (v : gset string) (x : string) :
  x ∈ U -> x ∉ v -> (size (U ∖ (v ∪ {[x]})) < size (U ∖ v))%nat.
Proof.
  intros Hx Hv. apply subset_size. split; [set_solver |].
  intros H. specialize (H x). set_solver.
Qed.

Lemma follow_S (fuel : nat) (src target : string) (path : list string) (depth : Z)
    (visited : gset string) (results : list SigningPath) :
  follow (S fuel) src target path depth (visited, results) =
  let nt := normalizeUrl target in
  if (bool_decide (nt ∈ visited) || (maxDepth <? depth))%bool
  then Some (visited, results)
  else
    if negb (accountExists call nt) then Some (visited ∪ {[nt]}, results)
    else
      let newPath := path ++ [nt] in
      let results1 := results ++ [mkPath (JsString.join " -> " newPath) newPath nt] in
      match queryKeyPage call nt with
      | None => Some (visited ∪ {[nt]}, results1)
      | Some kp =>
          forEach (fun d st' => follow fuel nt d newPath (depth + 1) st')
                  (liveDelegates (akp_keys kp)) (visited ∪ {[nt]}, results1)
      end.
Proof. reflexivity. Qed.

Lemma loop_ok (fuel : nat) (src : string) (path : list string) (depth : Z) :
  follow_ok call maxDepth U fuel ->
  forall ds v r,
    (forall d, d ∈ ds -> normalizeUrl d ∈ U) ->
    (size (U ∖ v) < fuel)%nat ->
    exists v' new,
      forEach (fun d st' => follow fuel src d path depth st') ds (v, r)
      = Some (v', r ++ new)
      /\ grows U v v' new.
Proof.
  intros IH ds. induction ds as [|d ds IHds]; intros v r Hds Hsize; simpl.
  - exists v, []. rewrite app_nil_r. split; [reflexivity | apply grows_refl].
  - destruct (IH src d path depth v r) as (v1 & new1 & -> & Hg1 & _).
    { apply Hds, elem_of_cons. left. reflexivity. }
    { exact Hsize. }
    destruct (IHds v1 (r ++ new1)) as (v2 & new2 & -> & Hg2).
    { intros d' Hd'. apply Hds, elem_of_cons. right. exact Hd'. }
    { pose proof (size_remaining_le v v1 (proj1 Hg1)). lia. }
    exists v2, (new1 ++ new2). rewrite app_assoc.
    split; [reflexivity | exact (grows_trans _ _ _ _ _ Hg1 Hg2)].
Qed.

Lemma follow_ok_all (fuel : nat) : follow_ok call maxDepth U fuel.
Proof.
  induction fuel as [|fuel IH]; intros src target path depth visited results HU Hsize;
    [lia |].
  rewrite follow_S. cbv zeta.
  set (nt := normalizeUrl target) in *.
  destruct (bool_decide (nt ∈ visited)) eqn:Hin; simpl.
  { exists visited, []. rewrite app_nil_r.
    split; [reflexivity | split; [apply grows_refl | split; [auto |]]].
    intros Hn. apply bool_decide_eq_true in Hin. contradiction. }
  apply bool_decide_eq_false in Hin.
  destruct (maxDepth <? depth) eqn:Hd; simpl.
  { exists visited, []. rewrite app_nil_r.
    split; [reflexivity | split; [apply grows_refl | split; [auto |]]].
    intros _ Hle. apply Z.ltb_lt in Hd. lia. }
  apply Z.ltb_ge in Hd.
  assert (grows U visited (visited ∪ {[nt]}) []) as Hmark.
  { split; [set_solver | split; [set_solver | split]].
    - intros p Hp. apply elem_of_nil in Hp. contradiction.
    - constructor. }
  assert (forall v', visited ∪ {[nt]} ⊆ v' -> nt ∈ v') as Hnt by set_solver.
  destruct (accountExists call nt); simpl.
  2:{ exists (visited ∪ {[nt]}), []. rewrite app_nil_r.
      split; [reflexivity | split; [exact Hmark | split]].
      - intros [H|H]; [contradiction | lia].
      - intros _ _. apply Hnt. reflexivity. }
  set (rec := mkPath _ _ nt).
  assert (grows U visited (visited ∪ {[nt]}) [rec]) as Hrec.
  { split; [set_solver | split; [set_solver | split]].
    - intros p Hp. apply list_elem_of_singleton in Hp as ->. simpl. set_solver.
    - apply NoDup_singleton. }
  destruct (queryKeyPage call nt) as [kp|] eqn:Hkp.
  2:{ exists (visited ∪ {[nt]}), [rec].
      split; [reflexivity | split; [exact Hrec | split]].
      - intros [H|H]; [contradiction | lia].
      - intros _ _. apply Hnt. reflexivity. }
  destruct (loop_ok fuel nt (path ++ [nt]) (depth + 1) IH
              (liveDelegates (akp_keys kp)) (visited ∪ {[nt]}) (results ++ [rec]))
    as (v' & new & -> & Hg).
  { intros d Hd'. exact (closed nt kp d Hkp Hd'). }
  { pose proof (size_remaining_lt visited nt HU Hin). lia. }
  exists v', ([rec] ++ new). rewrite app_assoc.
  split; [reflexivity | split; [exact (grows_trans _ _ _ _ _ Hrec Hg) | split]].
  - intros [H|H]; [contradiction | lia].
  - intros _ _. apply Hnt. apply Hg.
Qed.

(** More fuel does not change a result. *)
Lemma follow_mono (fuel fuel' : nat) (src target : string) (path : list string)
    (depth : Z) (st r : gset string * list SigningPath) :
  (fuel <= fuel')%nat ->
  follow fuel src target path depth st = Some r ->
  follow fuel' src target path depth st = Some r.
Proof.
  revert fuel' src target path depth st r.
  induction fuel as [|fuel IH]; intros fuel' src target path depth [v rs] r Hle H;
    [discriminate |].
  destruct fuel' as [|fuel']; [lia |].
  rewrite follow_S in *. cbv zeta in *.
  destruct (_ || _)%bool; [exact H |].
  destruct (negb _); [exact H |].
  destruct (queryKeyPage call _); [| exact H].
  revert H. apply forEach_mono. intros d s s'. apply IH. lia.
Qed.

End FollowFacts.

Section DiscoverFacts.
Import Types UrlNormalizer AccumulateClient SigningPathService.
Context (call : Params -> option Js.value) (maxDepth : Z).

Lemma launch_mono (fuel fuel' : nat) (pageUrl : string) (delegates : list string)
    (w r : Walk) :
  (fuel <= fuel')%nat ->
  launch call maxDepth fuel pageUrl delegates w = Some r ->
  launch call maxDepth fuel' pageUrl delegates w = Some r.
Proof.
  intros Hle. unfold launch.
  destruct (forEach _ delegates _) as [[v ps]|] eqn:E; [| discriminate].
  apply forEach_mono
    with (body2 := fun d st => followDelegationChain call maxDepth fuel' pageUrl d
                                 [pageUrl] 1 st) in E.
  - rewrite E. intros H. exact H.
  - intros d s s'. apply follow_mono, Hle.
Qed.

Lemma livePage_mono (fuel fuel' : nat) (bookUrl : string) (i : nat)
    (s r : Walk * list CertenKeyPage) :
  (fuel <= fuel')%nat ->
  livePage call maxDepth fuel bookUrl i s = Some r ->
  livePage call maxDepth fuel' bookUrl i s = Some r.
Proof.
  intros Hle. unfold livePage. destruct s as [w0 pages0].
  destruct (bool_decide _); [intros H; exact H |].
  destruct (launch call maxDepth fuel _ _ w0) as [w1|] eqn:E1; [| discriminate].
  rewrite (launch_mono fuel fuel' _ _ _ _ Hle E1). intros H; exact H.
Qed.

Lemma liveBook_mono (fuel fuel' : nat) (bookUrl : string)
    (s r : Walk * list CertenKeyBook) :
  (fuel <= fuel')%nat ->
  liveBook call maxDepth fuel bookUrl s = Some r ->
  liveBook call maxDepth fuel' bookUrl s = Some r.
Proof.
  intros Hle. unfold liveBook. destruct s as [w books].
  destruct (queryKeyBookPageCount call bookUrl =? 0); [intros H; exact H |].
  destruct (2 ^ 53 <=? queryKeyBookPageCount call bookUrl); [discriminate |].
  destruct (forEach (livePage call maxDepth fuel bookUrl) _ _) as [[w' pages]|] eqn:E;
    [| discriminate].
  apply forEach_mono with (body2 := livePage call maxDepth fuel' bookUrl) in E.
  - rewrite E. intros H. exact H.
  - intros i s s'. apply livePage_mono, Hle.
Qed.

Lemma storedPage_mono (fuel fuel' : nat) (keyPage : CertenKeyPage) (w r : Walk) :
  (fuel <= fuel')%nat ->
  storedPage call maxDepth fuel keyPage w = Some r ->
  storedPage call maxDepth fuel' keyPage w = Some r.
Proof.
  intros Hle. unfold storedPage.
  destruct (bool_decide _); [intros H; exact H |]. apply launch_mono, Hle.
Qed.

Lemma discoverSigningPaths_mono (fuel fuel' : nat) (userAdi : CertenAdi)
    (r : list SigningPath * list CertenKeyBook) :
  (fuel <= fuel')%nat ->
  discoverSigningPaths call maxDepth fuel userAdi = Some r ->
  discoverSigningPaths call maxDepth fuel' userAdi = Some r.
Proof.
  intros Hle. unfold discoverSigningPaths.
  destruct (forEach (storedPage call maxDepth fuel) _ _) as [w|] eqn:E; [| discriminate].
  apply forEach_mono with (body2 := storedPage call maxDepth fuel') in E;
    [| intros kp s s'; apply storedPage_mono, Hle].
  rewrite E.
  destruct (forEach (liveBook call maxDepth fuel) _ _) as [[w' books]|] eqn:E2;
    [| discriminate].
  apply forEach_mono with (body2 := liveBook call maxDepth fuel') in E2;
    [| intros b s s'; apply liveBook_mono, Hle].
  rewrite E2. intros H. exact H.
Qed.

End DiscoverFacts.

(** *** What the walk does guarantee about the hops *)

Section PathShapeFacts.
Import Types UrlNormalizer AccumulateClient SigningPathService.
Context (call : Params -> option Js.value) (maxDepth : Z).

Abbreviation chase := (followDelegationChain call maxDepth).

Lemma tail_snoc {A : Type} (l : list A) (x : A) : l <> [] -> tail (l ++ [x]) = tail l ++ [x].
Proof. destruct l; [contradiction | reflexivity]. Qed.

Lemma loop_shape (fuel : nat) (src : string) (path : list string) (depth : Z)
    (visited : gset string) :
  (forall target v r v' r',
     chase fuel src target path depth (v, r) = Some (v', r') ->
     visited ⊆ v ->
     exists new, r' = r ++ new /\ v ⊆ v' /\ Forall (path_ok maxDepth) new) ->
  forall ds v r v' r',
    forEach (fun d st => chase fuel src d path depth st) ds (v, r) = Some (v', r') ->
    visited ⊆ v ->
    exists new, r' = r ++ new /\ v ⊆ v' /\ Forall (path_ok maxDepth) new.
Proof.
  intros Hbody ds. induction ds as [|d ds IH]; intros v r v' r' H Hv.
  - injection H as <- <-. exists []. rewrite app_nil_r. repeat split; [set_solver | constructor].
  - rewrite forEach_cons in H.
    destruct (chase fuel src d path depth (v, r)) as [[v1 r1]|] eqn:E; [| discriminate].
    destruct (Hbody d v r v1 r1 E Hv) as (new1 & -> & Hv1 & Hok1).
    destruct (IH v1 (r ++ new1) v' r' H) as (new2 & -> & Hv2 & Hok2); [set_solver |].
    exists (new1 ++ new2). rewrite app_assoc.
    repeat split; [set_solver | apply Forall_app; split; assumption].
Qed.

Lemma follow_shape (fuel : nat) :
  forall src target path depth visited results v' r',
    chase fuel src target path depth (visited, results) = Some (v', r') ->
    path <> [] ->
    Z.of_nat (length path) <= depth ->
    (forall x, x ∈ tail path -> x ∈ visited) ->
    NoDup (tail path) ->
    exists new, r' = results ++ new /\ visited ⊆ v' /\ Forall (path_ok maxDepth) new.
Proof.
  induction fuel as [|fuel IH];
    intros src target path depth visited results v' r' H Hne Hlen Hin Hnd;
    [discriminate |].
  rewrite follow_S in H. cbv zeta in H.
  set (nt := normalizeUrl target) in *.
  destruct (bool_decide (nt ∈ visited)) eqn:Hvis; simpl in H.
  { injection H as <- <-. exists []. rewrite app_nil_r.
    repeat split; [set_solver | constructor]. }
  apply bool_decide_eq_false in Hvis.
  destruct (maxDepth <? depth) eqn:Hd; simpl in H.
  { injection H as <- <-. exists []. rewrite app_nil_r.
    repeat split; [set_solver | constructor]. }
  apply Z.ltb_ge in Hd.
  destruct (accountExists call nt); simpl in H.
  2:{ injection H as <- <-. exists []. rewrite app_nil_r.
      repeat split; [set_solver | constructor]. }
  set (rec := mkPath _ (path ++ [nt]) nt) in H.
  assert (path_ok maxDepth rec) as Hrec.
  { split; simpl.
    - rewrite length_app. simpl. lia.
    - rewrite tail_snoc by exact Hne. apply NoDup_app.
      split; [exact Hnd | split; [| apply NoDup_singleton]].
      intros x Hx Hx'. apply list_elem_of_singleton in Hx' as ->.
      apply Hvis, Hin, Hx. }
  destruct (queryKeyPage call nt) as [kp|].
  2:{ injection H as <- <-. exists [rec].
      repeat split; [set_solver | repeat constructor; apply Hrec]. }
  destruct (loop_shape fuel nt (path ++ [nt]) (depth + 1) (visited ∪ {[nt]}))
    with (ds := liveDelegates (akp_keys kp)) (v := visited ∪ {[nt]})
         (r := results ++ [rec]) (v' := v') (r' := r')
    as (new & -> & Hv & Hok); [| exact H | set_solver |].
  - intros d v r v1 r1 E Hv. apply (IH nt d (path ++ [nt]) (depth + 1) v r v1 r1 E).
    + intros Heq. apply app_eq_nil in Heq as [_ Heq]. discriminate.
    + rewrite length_app. simpl. lia.
    + intros x Hx. rewrite tail_snoc in Hx by exact Hne.
      apply elem_of_app in Hx as [Hx|Hx].
      * apply Hv. apply elem_of_union. left. apply Hin, Hx.
      * apply list_elem_of_singleton in Hx as ->. set_solver.
    + rewrite tail_snoc by exact Hne. apply NoDup_app.
      split; [exact Hnd | split; [| apply NoDup_singleton]].
      intros x Hx Hx'. apply list_elem_of_singleton in Hx' as ->.
      apply Hvis, Hin, Hx.
  - exists ([rec] ++ new). rewrite app_assoc.
    repeat split; [set_solver |]. constructor; [exact Hrec | exact Hok].
Qed.

Lemma launch_shape (fuel : nat) (pageUrl : string) (delegates : list string) (w w' : Walk) :
  launch call maxDepth fuel pageUrl delegates w = Some w' ->
  Forall (path_ok maxDepth) (w_paths w) -> Forall (path_ok maxDepth) (w_paths w').
Proof.
  unfold launch. intros H Hw.
  destruct (forEach _ delegates _) as [[v ps]|] eqn:E; [| discriminate].
  injection H as <-. simpl.
  destruct (loop_shape fuel pageUrl [pageUrl] 1 (w_visited w))
    with (ds := delegates) (v := w_visited w) (r := w_paths w ++ [directPath pageUrl])
         (v' := v) (r' := ps) as (new & -> & _ & Hok); [| exact E | set_solver |].
  - intros d v0 r0 v1 r1 E1 Hv0.
    apply (follow_shape fuel pageUrl d [pageUrl] 1 v0 r0 v1 r1 E1);
      [discriminate | simpl; lia | | constructor].
    intros x Hx. apply elem_of_nil in Hx. contradiction.
  - apply Forall_app. split; [apply Forall_app; split; [exact Hw |] | exact Hok].
    repeat constructor. simpl. lia.
Qed.

Lemma walk_shape {A B : Type} (body : A -> Walk * B -> option (Walk * B)) :
  (forall x w b w' b',
     body x (w, b) = Some (w', b') ->
     Forall (path_ok maxDepth) (w_paths w) -> Forall (path_ok maxDepth) (w_paths w')) ->
  forall xs w b w' b',
    forEach body xs (w, b) = Some (w', b') ->
    Forall (path_ok maxDepth) (w_paths w) -> Forall (path_ok maxDepth) (w_paths w').
Proof.
  intros Hb xs. induction xs as [|x xs IH]; intros w b w' b' H Hw.
  - injection H as <- <-. exact Hw.
  - rewrite forEach_cons in H.
    destruct (body x (w, b)) as [[w1 b1]|] eqn:E; [| discriminate].
    apply (IH w1 b1 w' b' H). apply (Hb x w b w1 b1 E Hw).
Qed.

Lemma discoverSigningPaths_shape (fuel : nat) (userAdi : CertenAdi)
    (paths : list SigningPath) (books : list CertenKeyBook) :
  discoverSigningPaths call maxDepth fuel userAdi = Some (paths, books) ->
  Forall (path_ok maxDepth) paths.
Proof.
  unfold discoverSigningPaths.
  destruct (forEach (storedPage call maxDepth fuel) _ _) as [w|] eqn:E; [| discriminate].
  destruct (forEach (liveBook call maxDepth fuel) _ _) as [[w' bs]|] eqn:E2;
    [| discriminate].
  intros H. injection H as <- <-.
  assert (Forall (path_ok maxDepth) (w_paths w)) as Hw.
  { assert (Forall (path_ok maxDepth) (w_paths (mkWalk [] ∅ ∅))) as Hnil by constructor.
    revert E. revert Hnil. generalize (mkWalk [] ∅ ∅).
    generalize (concat (List.map ckb_keyPages (keyBooks userAdi))).
    intros pages. induction pages as [|kp pages IH]; intros w0 Hw0 E.
    - injection E as <-. exact Hw0.
    - rewrite forEach_cons in E.
      destruct (storedPage call maxDepth fuel kp w0) as [w1|] eqn:E1; [| discriminate].
      apply (IH w1); [| exact E].
      unfold storedPage in E1. destruct (bool_decide _).
      + injection E1 as <-. exact Hw0.
      + exact (launch_shape _ _ _ _ _ E1 Hw0). }
  apply (walk_shape (liveBook call maxDepth fuel)) with (3 := Hw) (2 := E2).
  intros bookUrl w0 b0 w1 b1 E1 Hw0. unfold liveBook in E1.
  destruct (queryKeyBookPageCount call bookUrl =? 0); [injection E1 as <- <-; exact Hw0 |].
  destruct (2 ^ 53 <=? queryKeyBookPageCount call bookUrl); [discriminate |].
  destruct (forEach (livePage call maxDepth fuel bookUrl) _ _) as [[w2 pages]|] eqn:E3;
    [| discriminate].
  injection E1 as <- <-.
  apply (walk_shape (livePage call maxDepth fuel bookUrl)) with (3 := Hw0) (2 := E3).
  intros i w3 b3 w4 b4 E4 Hw3. unfold livePage in E4.
  destruct (bool_decide _); [injection E4 as <- <-; exact Hw3 |].
  destruct (launch call maxDepth fuel _ _ w3) as [w5|] eqn:E5; [| discriminate].
  injection E4 as <- <-. exact (launch_shape _ _ _ _ _ E5 Hw3).
Qed.

End PathShapeFacts.

Lemma cycle_closed :
  forall url kp d,
    AccumulateClient.queryKeyPage Scenario.cycleCall url = Some kp ->
    d ∈ SigningPathService.liveDelegates (Types.akp_keys kp) ->
    UrlNormalizer.normalizeUrl d ∈ ({[Scenario.pageA; Scenario.pageB]} : gset string).
Proof.
  intros url kp d. unfold AccumulateClient.queryKeyPage, Scenario.cycleCall.
  destruct (decide (UrlNormalizer.normalizeUrl url = Scenario.pageA)) as [Ha|Ha].
  - simpl. intros H. injection H as <-. simpl.
    intros Hd. apply list_elem_of_singleton in Hd as ->.
    apply elem_of_union. right. apply elem_of_singleton. reflexivity.
  - destruct (decide (UrlNormalizer.normalizeUrl url = Scenario.pageB)) as [Hb|Hb];
      [| discriminate].
    simpl. intros H. injection H as <-. simpl.
    intros Hd. apply list_elem_of_singleton in Hd as ->.
    apply elem_of_union. left. apply elem_of_singleton. reflexivity.
Qed.

(** C9.  On a ledger whose delegation graph is finite (the normal forms
    of all delegates lie in a finite set [U]), a call of
    [followDelegationChain] whose target lies in [U] returns, with one
    and the same result for every fuel above the number of URLs of [U]
    not yet visited, whatever [maxDepth] is.  The call returns its
    arguments unchanged when the target is already visited or the depth
    exceeds [maxDepth]; otherwise it marks the target, so [visited]
    grows strictly; [visited] never leaves [visited ∪ U]; every path
    recorded ends at a URL marked by this call, and no two recorded
    paths end at the same URL. *)
Theorem followDelegationChain_terminates
    (call : Types.Params -> option Js.value) (maxDepth : Z) (U : gset string)
    (src target : string) (path : list string) (depth : Z)
    (visited : gset string) (results : list Types.SigningPath) :
  (forall url kp d,
     AccumulateClient.queryKeyPage call url = Some kp ->
     d ∈ SigningPathService.liveDelegates (Types.akp_keys kp) ->
     UrlNormalizer.normalizeUrl d ∈ U) ->
  UrlNormalizer.normalizeUrl target ∈ U ->
  exists visited' new,
    (forall fuel,
       (size (U ∖ visited) < fuel)%nat ->
       SigningPathService.followDelegationChain call maxDepth fuel src target path depth
         (visited, results) = Some (visited', results ++ new))
    /\ visited ⊆ visited' /\ visited' ⊆ visited ∪ U
    /\ (UrlNormalizer.normalizeUrl target ∈ visited \/ maxDepth < depth ->
        visited' = visited /\ new = [])
    /\ (UrlNormalizer.normalizeUrl target ∉ visited -> depth <= maxDepth ->
        UrlNormalizer.normalizeUrl target ∈ visited'
        /\ (size visited < size visited')%nat)
    /\ (forall p, p ∈ new ->
          Types.finalSigner p ∈ visited' /\ Types.finalSigner p ∉ visited)
    /\ NoDup (Types.finalSigner <$> new).
Proof.
  intros closed HU.
  destruct (follow_ok_all call maxDepth U closed (S (size (U ∖ visited)))
              src target path depth visited results HU (Nat.lt_succ_diag_r _))
    as (v' & new & Hrun & (Hsub & Hbound & Hends & Hnodup) & Himm & Hmark).
  exists v', new. repeat split; try assumption.
  - intros fuel Hfuel. apply follow_mono with (2 := Hrun). lia.
  - apply Himm; assumption.
  - apply Himm; assumption.
  - apply Hmark; assumption.
  - apply subset_size. split; [exact Hsub |].
    intros Hback. apply H. apply Hback. apply Hmark; assumption.
  - apply (Hends p); assumption.
  - apply (Hends p); assumption.
Qed.

Lemma followDelegationChain_terminates_witness :
  exists visited' new,
    (forall fuel,
       (size (({[Scenario.pageA; Scenario.pageB]} : gset string) ∖ ∅) < fuel)%nat ->
       SigningPathService.followDelegationChain Scenario.cycleCall 10 fuel
         Scenario.pageA Scenario.pageB [Scenario.pageA] 1
         (∅, [SigningPathService.directPath Scenario.pageA])
       = Some (visited', [SigningPathService.directPath Scenario.pageA] ++ new))
    /\ ∅ ⊆ visited' /\ visited' ⊆ ∅ ∪ {[Scenario.pageA; Scenario.pageB]}
    /\ (UrlNormalizer.normalizeUrl Scenario.pageB ∈ (∅ : gset string) \/ 10 < 1 ->
        visited' = ∅ /\ new = [])
    /\ (UrlNormalizer.normalizeUrl Scenario.pageB ∉ (∅ : gset string) -> 1 <= 10 ->
        UrlNormalizer.normalizeUrl Scenario.pageB ∈ visited'
        /\ (size (∅ : gset string) < size visited')%nat)
    /\ (forall p, p ∈ new ->
          Types.finalSigner p ∈ visited' /\ Types.finalSigner p ∉ (∅ : gset string))
    /\ NoDup (Types.finalSigner <$> new).
Proof.
  apply (followDelegationChain_terminates Scenario.cycleCall 10
           {[Scenario.pageA; Scenario.pageB]}).
  - exact cycle_closed.
  - apply elem_of_union. right. apply elem_of_singleton. reflexivity.
Defined.

(** The shape every recorded path has, on every ledger and for every
    identity: with a depth cap of at least 0, [hops] holds at most
    [maxDepth + 1] URLs, and no URL occurs twice after the first hop
    (the first hop itself, the page the walk starts from, may occur a
    second time: see the next theorem). *)
Theorem explorer_paths_shape (call : Types.Params -> option Js.value) (maxDepth : Z)
    (fuel : nat) (userAdi : Types.CertenAdi)
    (paths : list Types.SigningPath) (books : list Types.CertenKeyBook) :
  0 <= maxDepth ->
  SigningPathService.discoverSigningPaths call maxDepth fuel userAdi = Some (paths, books) ->
  forall p, p ∈ paths ->
    Z.of_nat (length (Types.hops p)) <= maxDepth + 1 /\ NoDup (tail (Types.hops p)).
Proof.
  intros Hd H p Hp.
  apply discoverSigningPaths_shape in H.
  rewrite Forall_forall in H. destruct (H p Hp) as [Hlen Hnd].
  split; [lia | exact Hnd].
Qed.

Lemma explorer_paths_shape_witness :
  0 <= 10
  /\ SigningPathService.discoverSigningPaths Scenario.cycleCall 10 3 Scenario.cycleAdi
     = Some ([Types.mkPath Scenario.pageA [Scenario.pageA] Scenario.pageA;
              Types.mkPath "acc://a.acme/book/1 -> acc://b.acme/book/1"
                [Scenario.pageA; Scenario.pageB] Scenario.pageB;
              Types.mkPath
                "acc://a.acme/book/1 -> acc://b.acme/book/1 -> acc://a.acme/book/1"
                [Scenario.pageA; Scenario.pageB; Scenario.pageA] Scenario.pageA],
             [])
  /\ Z.of_nat (length [Scenario.pageA; Scenario.pageB; Scenario.pageA]) <= 10 + 1
  /\ NoDup (tail [Scenario.pageA; Scenario.pageB; Scenario.pageA]).
Proof.
  split; [lia |]. split; [vm_compute; reflexivity |].
  apply (explorer_paths_shape Scenario.cycleCall 10 3 Scenario.cycleAdi _ []
           ltac:(lia) ltac:(vm_compute; reflexivity)
           (Types.mkPath
              "acc://a.acme/book/1 -> acc://b.acme/book/1 -> acc://a.acme/book/1"
              [Scenario.pageA; Scenario.pageB; Scenario.pageA] Scenario.pageA)).
  apply elem_of_cons. right. apply elem_of_cons. right.
  apply elem_of_cons. left. reflexivity.
Defined.

(** C2: the code run on the cyclic ledger of scenario S4.  The walk
    stops, but [visited] holds delegation targets only: the page the
    walk starts from is not in it, so the walk re-enters that page and
    records a path whose hops hold it twice, with every fuel that lets
    the walk finish, and in the earlier revision of
    [discoverSigningPaths] as well.  (The hop count stays within
    [maxDepth + 1].) *)
Theorem cyclic_delegation_repeats_source (n : nat) :
  SigningPathService.discoverSigningPaths Scenario.cycleCall 10 (3 + n) Scenario.cycleAdi
  = Some ([Types.mkPath Scenario.pageA [Scenario.pageA] Scenario.pageA;
           Types.mkPath "acc://a.acme/book/1 -> acc://b.acme/book/1"
             [Scenario.pageA; Scenario.pageB] Scenario.pageB;
           Types.mkPath
             "acc://a.acme/book/1 -> acc://b.acme/book/1 -> acc://a.acme/book/1"
             [Scenario.pageA; Scenario.pageB; Scenario.pageA] Scenario.pageA],
          [])
  /\ SigningPathService.discoverSigningPaths_v1 Scenario.cycleCall 10 3 Scenario.cycleAdi
     = Some [Types.mkPath Scenario.pageA [Scenario.pageA] Scenario.pageA;
             Types.mkPath "acc://a.acme/book/1 -> acc://b.acme/book/1"
               [Scenario.pageA; Scenario.pageB] Scenario.pageB;
             Types.mkPath
               "acc://a.acme/book/1 -> acc://b.acme/book/1 -> acc://a.acme/book/1"
               [Scenario.pageA; Scenario.pageB; Scenario.pageA] Scenario.pageA]
  /\ ~ NoDup [Scenario.pageA; Scenario.pageB; Scenario.pageA].
Proof.
  split; [| split].
  - apply discoverSigningPaths_mono with (fuel := 3%nat); [lia |].
    vm_compute. reflexivity.
  - vm_compute. reflexivity.
  - intros H. apply NoDup_cons in H as [H _]. apply H.
    apply elem_of_cons. right. apply list_elem_of_singleton. reflexivity.
Qed.

(** ** A cycle during a total outage of the ledger *)

Section OutageFacts.
Import Types UrlNormalizer AccumulateClient SigningPathService PendingDiscoveryService.
Import FirestoreClient PendingActionsPoller.

Context (call : Params -> option Js.value).
Hypothesis down : forall params, call params = None.

Lemma fold_left_fixed {A B : Type} (f : A -> B -> A) (l : list B) (a : A) :
  (forall x y, f x y = x) -> fold_left f l a = a.
Proof.
  intros H. revert a. induction l as [|y l IH]; intros a; simpl; [reflexivity |].
  rewrite H. apply IH.
Qed.




End OutageFacts.


(** The same holds on a ledger that answers: whenever [processUser]
    returns, the store is as it was and no user is counted as
    processed. *)
Lemma processUser_never_reconciles
    (call : Types.Params -> option Js.value)
    (parse : Js.value -> string -> option Types.AccumulatePendingTx)
    (delegationDepth pendingPageSize : Z) (dryRun : bool)
    (now dateNow : Z) (cycleToken : string)
    (fuel : nat) (user : Types.CertenUserWithAdis)
    (stats stats' : Types.PollStats) (s s' : FirestoreClient.Store) :
  PendingActionsPoller.processUser call parse delegationDepth pendingPageSize
    dryRun now dateNow cycleToken fuel user stats s = Some (stats', s') ->
  s' = s /\ Types.processedUsers stats' = Types.processedUsers stats.
Proof.
  unfold PendingActionsPoller.processUser.
  destruct (Types.adis user) as [|adi adis]; [intros [= <- <-]; split; reflexivity |].
  destruct (PendingActionsPoller.allPathsOf call delegationDepth fuel (adi :: adis));
    [| discriminate].
  unfold PendingActionsPoller.processUserBody, PendingActionsPoller.updateUserSigningPaths.
  intros [= <- <-]. split; reflexivity.
Qed.


(** ** The semaphore seen from its callers *)

Section SemaphoreTraceFacts.
Import Semaphore.

Lemma fst_observe (st : t * log) (o : op) : fst (observe st o) = step (fst st) o.
Proof.
  destruct st as [s l], o as [w|]; simpl.
  - destruct (acquire w s) as [s' b]. reflexivity.
  - destruct (release s) as [s' r]. reflexivity.
Qed.

Lemma fst_observed_from (ops : list op) (st : t * log) :
  fst (fold_left observe ops st) = run ops (fst st).
Proof.
  revert st. induction ops as [|o ops IH]; intros st; [reflexivity |].
  simpl. rewrite IH, fst_observe. reflexivity.
Qed.

(** The queue is served in arrival order. *)
Lemma observe_fifo (st : t * log) (o : op) :
  woken (snd st) ++ waiting (fst st) = parked (snd st) ->
  woken (snd (observe st o)) ++ waiting (fst (observe st o)) = parked (snd (observe st o)).
Proof.
  destruct st as [s l], o as [w|]; simpl.
  - unfold acquire. destruct (0 <? permits s); simpl; intros H; [exact H |].
    rewrite app_assoc, H. reflexivity.
  - unfold release. destruct (waiting s) as [|next rest] eqn:E; simpl; intros H.
    + rewrite !app_nil_r in *. exact H.
    + destruct (0 <? permits s + 1); simpl.
      * rewrite <- app_assoc. exact H.
      * rewrite app_nil_r. exact H.
Qed.

Lemma observed_fifo (ops : list op) (st : t * log) :
  woken (snd st) ++ waiting (fst st) = parked (snd st) ->
  woken (snd (fold_left observe ops st)) ++ waiting (fst (fold_left observe ops st))
  = parked (snd (fold_left observe ops st)).
Proof.
  revert st. induction ops as [|o ops IH]; intros st H; [exact H |].
  simpl. apply IH, observe_fifo, H.
Qed.

Lemma length_leave (w : nat) (holding : list nat) :
  w ∈ holding -> S (length (leave w holding)) = length holding.
Proof.
  induction holding as [|x rest IH]; intros Hin; [apply elem_of_nil in Hin; contradiction |].
  simpl. destruct (decide (x = w)) as [->|Hne]; [reflexivity |].
  apply elem_of_cons in Hin as [->|Hin]; [contradiction |].
  simpl. rewrite (IH Hin). reflexivity.
Qed.

(** No permit is created or lost by a call that keeps to the protocol. *)
Lemma serve_balance (st : t * list nat) (r : request) (n : Z) :
  inv (fst st) ->
  permits (fst st) + Z.of_nat (length (snd st)) = n ->
  match r with Releases w => w ∈ snd st | Acquires _ => True end ->
  inv (fst (serve st r))
  /\ permits (fst (serve st r)) + Z.of_nat (length (snd (serve st r))) = n.
Proof.
  destruct st as [s holding]. intros Hinv Hb Hr. simpl in Hinv, Hb, Hr.
  destruct r as [w|w]; simpl.
  - pose proof (inv_acquire w s Hinv) as Hi. unfold acquire in *.
    destruct (0 <? permits s); simpl in *; (split; [exact Hi |]);
      rewrite ?length_app; simpl; lia.
  - pose proof (inv_release s Hinv) as Hi.
    pose proof (length_leave w holding Hr) as Hl.
    destruct Hinv as [Hp Hw]. unfold release in *.
    destruct (waiting s) as [|next rest] eqn:E; simpl in *.
    + split; [exact Hi |]. rewrite app_nil_r. lia.
    + assert (permits s = 0) as H0 by (apply Hw; discriminate).
      rewrite H0 in *. simpl in *. split; [exact Hi |].
      rewrite length_app. simpl. lia.
Qed.

Lemma served_balance (requests : list request) (st : t * list nat) (n : Z) :
  inv (fst st) ->
  permits (fst st) + Z.of_nat (length (snd st)) = n ->
  disciplined st requests = true ->
  inv (fst (fold_left serve requests st))
  /\ permits (fst (fold_left serve requests st))
     + Z.of_nat (length (snd (fold_left serve requests st))) = n.
Proof.
  revert st. induction requests as [|r requests IH]; intros st Hinv Hb Hd; [split; assumption |].
  simpl in Hd. apply andb_true_iff in Hd as [Hr Hd].
  destruct (serve_balance st r n Hinv Hb) as [Hi' Hb'].
  { destruct r; [exact I | apply bool_decide_eq_true in Hr; exact Hr]. }
  simpl. apply IH; assumption.
Qed.

End SemaphoreTraceFacts.

(** A semaphore created with [n >= 0] permits, used by callers each of
    whom calls [release()] only while holding a permit (the protocol of
    the poller), never lets more than [n] of them hold a permit at the
    same time: after any such sequence of calls the callers holding a
    permit and the free permits together are [n].  Without the protocol
    the bound fails: a [release()] by a caller that holds nothing adds a
    permit. *)
Theorem semaphore_bounds_holders (n : Z) (requests : list Semaphore.request) :
  0 <= n ->
  Semaphore.disciplined (Semaphore.create n, []) requests = true ->
  let '(s, holding) := fold_left Semaphore.serve requests (Semaphore.create n, []) in
  Semaphore.getAvailable s + Z.of_nat (length holding) = n
  /\ Z.of_nat (length holding) <= n.
Proof.
  intros Hn Hd.
  pose proof (served_balance requests (Semaphore.create n, []) n (inv_create n Hn)
                ltac:(simpl; lia) Hd) as [[Hp _] Hb].
  destruct (fold_left Semaphore.serve requests _) as [s holding]. simpl in *.
  unfold Semaphore.getAvailable. split; lia.
Qed.

Lemma semaphore_bounds_holders_witness :
  snd (fold_left Semaphore.serve
         [Semaphore.Acquires 1; Semaphore.Acquires 2; Semaphore.Acquires 3;
          Semaphore.Releases 1; Semaphore.Acquires 4]%nat (Semaphore.create 2, []))
  = [2; 3]%nat
  /\ 2 <= 2.
Proof.
  pose proof (semaphore_bounds_holders 2
                [Semaphore.Acquires 1; Semaphore.Acquires 2; Semaphore.Acquires 3;
                 Semaphore.Releases 1; Semaphore.Acquires 4]%nat
                ltac:(lia) ltac:(reflexivity)) as H.
  split; [reflexivity |]. vm_compute in H. exact (proj2 H).
Defined.

(** Without the protocol the bound of the semaphore does not hold: after
    a [release()] by a caller that holds nothing, two callers hold a
    permit of a semaphore created with one. *)
Lemma undisciplined_release_adds_a_permit :
  snd (fold_left Semaphore.serve
         [Semaphore.Releases 0; Semaphore.Acquires 1; Semaphore.Acquires 2]%nat
         (Semaphore.create 1, []))
  = [1; 2]%nat.
Proof. reflexivity. Qed.

(** Parked callers are resumed in the order in which they arrived:
    at any time the callers resumed so far, followed by the callers
    still waiting, are the parked callers in arrival order. *)
Theorem semaphore_serves_in_arrival_order (n : Z) (ops : list Semaphore.op) :
  let '(s, l) := Semaphore.observed ops n in
  Semaphore.woken l ++ Semaphore.waiting s = Semaphore.parked l.
Proof.
  unfold Semaphore.observed.
  pose proof (observed_fifo ops (Semaphore.create n, Semaphore.mkLog [] [] [] O)
                ltac:(reflexivity)) as H.
  destruct (fold_left Semaphore.observe ops _) as [s l]. exact H.
Qed.

(** ** Retrying *)

Section RetryFacts.
Import Retry.
Context {T E : Type}.
Variable fn : nat -> @attempted T E.
Variable isRetryable : E -> bool.
Variable delayOf : Z -> Z.
Variable maxRetries : Z.

Lemma delays_S (n : nat) : delays delayOf (S n) = delays delayOf n ++ [delayOf (Z.of_nat n)].
Proof. unfold delays. rewrite seq_S, map_app. reflexivity. Qed.

Lemma loop_retried (fuel : nat) :
  forall (calls : nat) (lastError : option E),
    Z.of_nat calls <= maxRetries ->
    (Z.to_nat maxRetries - calls < fuel)%nat ->
    (forall k, (k < calls)%nat -> exists e, fn k = Failed e /\ isRetryable e = true) ->
    exists r,
      loop fn isRetryable delayOf maxRetries fuel (Z.of_nat calls) lastError calls
           (delays delayOf calls) = Some r
      /\ retried fn isRetryable delayOf maxRetries r.
Proof.
  induction fuel as [|fuel IH]; intros calls lastError Hle Hfuel Hprev; [lia |].
  simpl. destruct (Z.leb_spec (Z.of_nat calls) maxRetries) as [_|]; [| lia].
  destruct (fn calls) as [v|e] eqn:Hfn.
  - eexists. split; [reflexivity |]. unfold retried. simpl.
    rewrite Nat.sub_0_r. repeat split; [lia | lia | exact Hprev | exact Hfn].
  - destruct (Z.leb_spec maxRetries (Z.of_nat calls)) as [Hlast|Hmore]; simpl.
    + eexists. split; [reflexivity |]. unfold retried. simpl.
      rewrite Nat.sub_0_r. repeat split; [lia | lia | exact Hprev | exact Hfn |].
      right. lia.
    + destruct (isRetryable e) eqn:Hr; simpl.
      * replace (Z.of_nat calls + 1) with (Z.of_nat (S calls)) by lia.
        rewrite <- delays_S. apply IH; [lia | lia |].
        intros k Hk. destruct (decide (k = calls)) as [->|Hne].
        -- exists e. split; assumption.
        -- apply Hprev. lia.
      * eexists. split; [reflexivity |]. unfold retried. simpl.
        rewrite Nat.sub_0_r. repeat split; [lia | lia | exact Hprev | exact Hfn |].
        left. exact Hr.
Qed.

End RetryFacts.

(** [withRetry] with [maxRetries >= 0] ends whatever [fn] does: [fn] is
    invoked at least once and at most [maxRetries + 1] times, every
    invocation but the last failed with a retryable error and was
    followed by one sleep (of the delay of its attempt), and the result
    is that of the last invocation: its value, or its error when that
    error is not retryable or the retries are used up. *)
Theorem withRetry_outcome {T E : Type} (fn : nat -> @Retry.attempted T E)
    (isRetryable : E -> bool) (delayOf : Z -> Z) (maxRetries : Z) (fuel : nat) :
  0 <= maxRetries ->
  (Z.to_nat maxRetries < fuel)%nat ->
  exists r,
    Retry.withRetry fn isRetryable delayOf maxRetries fuel = Some r
    /\ (1 <= Retry.invocations r)%nat
    /\ Z.of_nat (Retry.invocations r) <= maxRetries + 1
    /\ Retry.slept r = Retry.delays delayOf (Retry.invocations r - 1)
    /\ (forall k, (k < Retry.invocations r - 1)%nat ->
          exists e, fn k = Retry.Failed e /\ isRetryable e = true)
    /\ match Retry.result r with
       | Retry.Returns v => fn (Retry.invocations r - 1)%nat = Retry.Fulfilled v
       | Retry.Throws (Some e) =>
           fn (Retry.invocations r - 1)%nat = Retry.Failed e
           /\ (isRetryable e = false \/ Z.of_nat (Retry.invocations r) = maxRetries + 1)
       | Retry.Throws None => False
       end.
Proof.
  intros Hm Hfuel.
  destruct (loop_retried fn isRetryable delayOf maxRetries fuel O None)
    as (r & Hr & Hok); [simpl; lia | lia | intros k Hk; lia |].
  exists r. split; [exact Hr | exact Hok].
Qed.

Lemma withRetry_outcome_witness :
  exists r,
    Retry.withRetry
      (fun k => if (k <? 2)%nat then Retry.Failed "timeout" else Retry.Fulfilled 7)
      (fun _ : string => true) (fun attempt => 1000 * (attempt + 1)) 3 4
    = Some r
    /\ Retry.invocations r = 3%nat
    /\ Retry.slept r = [1000; 2000]
    /\ Retry.result r = Retry.Returns 7.
Proof.
  destruct (withRetry_outcome
              (fun k => if (k <? 2)%nat then Retry.Failed "timeout" else Retry.Fulfilled 7)
              (fun _ : string => true) (fun attempt => 1000 * (attempt + 1)) 3 4
              ltac:(lia) ltac:(simpl; lia)) as (r & Hr & _).
  exists r. split; [exact Hr |].
  vm_compute in Hr. injection Hr as <-. repeat split.
Defined.

(** With a negative [maxRetries] the loop body never runs: [fn] is not
    invoked at all and [withRetry] throws [undefined]. *)
Theorem withRetry_negative_maxRetries {T E : Type} (fn : nat -> @Retry.attempted T E)
    (isRetryable : E -> bool) (delayOf : Z -> Z) (maxRetries : Z) (fuel : nat) :
  maxRetries < 0 ->
  Retry.withRetry fn isRetryable delayOf maxRetries (S fuel)
  = Some (Retry.mkReport (Retry.Throws None) 0 []).
Proof.
  intros Hm. unfold Retry.withRetry. simpl.
  destruct (Z.leb_spec 0 maxRetries); [lia | reflexivity].
Qed.

Lemma withRetry_negative_maxRetries_witness :
  Retry.withRetry (fun _ => Retry.Fulfilled 7) (fun _ : string => true) (fun _ => 0) (-1) 1
  = Some (Retry.mkReport (Retry.Throws None) 0 []).
Proof.
  apply (withRetry_negative_maxRetries (fun _ => Retry.Fulfilled 7)
           (fun _ : string => true) (fun _ => 0) (-1) 0).
  lia.
Defined.

(** ** The hash helpers *)

Section HashHelperFacts.
Import JsString HashNormalizer.

Lemma length_append (a b : string) :
  String.length (a +:+ b) = (String.length a + String.length b)%nat.
Proof. induction a as [|c r IH]; simpl; [reflexivity | congruence]. Qed.

Lemma length_substring_to (n : nat) (s : string) :
  String.length (substring_to n s) = Nat.min n (String.length s).
Proof.
  revert s. induction n as [|n IH]; intros [|c r]; simpl; try reflexivity.
  rewrite IH. reflexivity.
Qed.

Lemma length_substring_from (n : nat) (s : string) :
  String.length (substring_from n s) = (String.length s - n)%nat.
Proof.
  revert s. induction n as [|n IH]; intros [|c r]; simpl; try reflexivity; try lia.
  apply IH.
Qed.

Lemma is_hex_lower_char (c : ascii) : is_hex (lower_char c) = is_hex c.
Proof. destruct c as [[] [] [] [] [] [] [] []]; reflexivity. Qed.

Lemma is_hex_not_ws (c : ascii) : is_hex c = true -> is_ws c = false.
Proof. destruct c as [[] [] [] [] [] [] [] []]; vm_compute; congruence. Qed.

Lemma all_hex_toLowerCase (s : string) : all_hex (toLowerCase s) = all_hex s.
Proof. induction s as [|c r IH]; simpl; [reflexivity |]. rewrite is_hex_lower_char, IH. reflexivity. Qed.

Lemma all_hex_indexOf (c : ascii) (s : string) :
  is_hex c = false -> all_hex s = true -> indexOf c s = None.
Proof.
  intros Hc. induction s as [|a r IH]; simpl; [reflexivity |].
  intros H. apply andb_true_iff in H as [Ha Hr].
  destruct (decide (a = c)) as [->|_]; [congruence |]. rewrite (IH Hr). reflexivity.
Qed.

Lemma all_hex_trimEnd (s : string) : all_hex s = true -> trimEnd s = s.
Proof.
  induction s as [|a r IH]; simpl; [reflexivity |].
  intros H. apply andb_true_iff in H as [Ha Hr]. rewrite (IH Hr).
  destruct r; [rewrite (is_hex_not_ws a Ha) |]; reflexivity.
Qed.

Lemma all_hex_trim (s : string) : all_hex s = true -> trim s = s.
Proof.
  intros H. unfold trim.
  assert (trimStart s = s) as ->; [| apply all_hex_trimEnd, H].
  destruct s as [|a r]; [reflexivity |]. simpl in *.
  apply andb_true_iff in H as [Ha _]. rewrite (is_hex_not_ws a Ha). reflexivity.
Qed.

Lemma all_hex_startsWith_0x (s : string) : all_hex s = true -> startsWith "0x" s = false.
Proof.
  destruct s as [|a [|b r]]; simpl; try reflexivity.
  - destruct (decide ("0"%char = a)); reflexivity.
  - intros H. destruct (decide ("0"%char = a)); [| reflexivity].
    destruct (decide ("x"%char = b)) as [<-|]; [| reflexivity].
    apply andb_true_iff in H as [_ H]. discriminate.
Qed.

(** A string that is trimmed at its end stays so behind a prefix. *)
Lemma trimEnd_append (a b : string) :
  trimEnd b <> "" -> trimEnd (a +:+ b) = a +:+ trimEnd b.
Proof.
  intros Hb. induction a as [|c r IH]; [reflexivity |].
  change (String c r +:+ b) with (String c (r +:+ b)).
  change (String c r +:+ trimEnd b) with (String c (r +:+ trimEnd b)).
  cbn [trimEnd]. rewrite IH. destruct (r +:+ trimEnd b) eqn:E; [| reflexivity].
  destruct r; [contradiction | discriminate].
Qed.

Lemma trim_fixed_trimEnd (s : string) : trim s = s -> trimEnd s = s.
Proof. intros H. rewrite <- H at 1. unfold trim. rewrite trimEnd_idem. exact H. Qed.

(** A normalized hash behind the display prefix normalizes to itself. *)
Lemma normalizeHash_0x (y : string) :
  y <> "" -> lowered y -> trim y = y -> settled "@" y -> settled "/" y ->
  normalizeHash ("0x" +:+ y) = y.
Proof.
  intros Hne Hl Ht Ha Hs. unfold normalizeHash. simpl is_empty. cbv zeta.
  assert (trim ("0x" +:+ y) = "0x" +:+ y) as ->.
  { unfold trim. change (trimStart ("0x" +:+ y)) with ("0x" +:+ y).
    rewrite (trimEnd_append "0x" y); rewrite (trim_fixed_trimEnd y Ht);
      [reflexivity | exact Hne]. }
  assert (toLowerCase ("0x" +:+ y) = "0x" +:+ y) as ->.
  { change ("0x" +:+ y) with (String "0" (String "x" y)).
    cbn [toLowerCase]. unfold lowered in Hl. rewrite Hl. reflexivity. }
  unfold strip_prefixes.
  change (startsWith "0x" ("0x" +:+ y)) with true.
  change (substring_from 2 ("0x" +:+ y)) with y. cbv iota.
  rewrite (settled_slash_no_scheme y Hs).
  rewrite (settled_cut_id "@" y Ha), (settled_cut_id "/" y Hs). exact Ht.
Qed.

Lemma all_hex_settled (c : ascii) (s : string) :
  is_hex c = false -> all_hex s = true -> settled c s.
Proof. intros Hc Hs. left. apply all_hex_indexOf; assumption. Qed.

(** The first [c] of [x +:+ String c p], for [x] without [c]. *)
Lemma indexOf_append (c : ascii) (x p : string) :
  indexOf c x = None -> indexOf c (x +:+ String c p) = Some (String.length x).
Proof.
  induction x as [|a r IH]; simpl.
  - intros _. destruct (decide (c = c)); [reflexivity | contradiction].
  - destruct (decide (a = c)); [discriminate |].
    destruct (indexOf c r); [discriminate |]. intros _. rewrite IH by reflexivity. reflexivity.
Qed.

Lemma substring_to_append (x p : string) : substring_to (String.length x) (x +:+ p) = x.
Proof. induction x as [|a r IH]; simpl; [destruct p; reflexivity | rewrite IH; reflexivity]. Qed.

Lemma is_ws_lower_char (c : ascii) : is_ws (lower_char c) = is_ws c.
Proof. destruct c as [[] [] [] [] [] [] [] []]; reflexivity. Qed.

Lemma toLowerCase_idem (s : string) : toLowerCase (toLowerCase s) = toLowerCase s.
Proof. apply lowered_toLowerCase. Qed.

Lemma toLowerCase_trimStart (s : string) :
  toLowerCase (trimStart s) = trimStart (toLowerCase s).
Proof.
  induction s as [|c r IH]; [reflexivity |]. cbn [trimStart toLowerCase].
  rewrite is_ws_lower_char. destruct (is_ws c); [exact IH | reflexivity].
Qed.

Lemma toLowerCase_trimEnd (s : string) :
  toLowerCase (trimEnd s) = trimEnd (toLowerCase s).
Proof.
  induction s as [|c r IH]; [reflexivity |]. cbn [trimEnd toLowerCase].
  rewrite <- IH, is_ws_lower_char.
  destruct (trimEnd r); [destruct (is_ws c) |]; reflexivity.
Qed.

Lemma toLowerCase_trim (s : string) : toLowerCase (trim s) = trim (toLowerCase s).
Proof. unfold trim. rewrite toLowerCase_trimEnd, toLowerCase_trimStart. reflexivity. Qed.

Lemma toLowerCase_append (a b : string) :
  toLowerCase (a +:+ b) = toLowerCase a +:+ toLowerCase b.
Proof.
  induction a as [|c r IH]; [reflexivity |].
  change (String c r +:+ b) with (String c (r +:+ b)). cbn [toLowerCase].
  rewrite IH. reflexivity.
Qed.

(** The case of the argument does not matter. *)
Lemma normalizeHash_toLowerCase (h : string) :
  normalizeHash (toLowerCase h) = normalizeHash h.
Proof.
  unfold normalizeHash. destruct h as [|c r]; [reflexivity |].
  cbn [toLowerCase is_empty]. cbv zeta.
  change (String (lower_char c) (toLowerCase r)) with (toLowerCase (String c r)).
  rewrite <- toLowerCase_trim, toLowerCase_idem. reflexivity.
Qed.

Lemma trimEnd_keeps_head (c : ascii) (p : string) :
  is_ws c = false -> exists q, trimEnd (String c p) = String c q.
Proof.
  intros Hc. cbn [trimEnd]. rewrite Hc.
  destruct (trimEnd p) as [|a q]; eexists; reflexivity.
Qed.

Lemma all_hex_length_pos (x : string) : x <> "" -> exists n, String.length x = S n.
Proof. destruct x; [contradiction | intros _; eexists; reflexivity]. Qed.

(** The transaction id of a hash [x] at a principal [p]. *)
Lemma normalizeHash_txid (x p : string) :
  all_hex x = true -> x <> "" ->
  normalizeHash ("acc://" +:+ x +:+ "@" +:+ p) = toLowerCase x.
Proof.
  intros Hx Hne. unfold normalizeHash. change (is_empty _) with false. cbv iota zeta.
  destruct (trimEnd_keeps_head "@" p eq_refl) as [q Hq].
  assert (trim ("acc://" +:+ x +:+ "@" +:+ p) = "acc://" +:+ x +:+ String "@" q) as ->.
  { unfold trim. change (trimStart ("acc://" +:+ x +:+ "@" +:+ p))
      with ("acc://" +:+ x +:+ String "@" p).
    rewrite trimEnd_append; rewrite trimEnd_append; rewrite Hq; try discriminate.
    - reflexivity.
    - destruct x; discriminate. }
  rewrite !toLowerCase_append.
  set (lx := toLowerCase x). set (lq := toLowerCase (String "@" q)).
  assert (all_hex lx = true) as Hlx by (subst lx; rewrite all_hex_toLowerCase; exact Hx).
  unfold strip_prefixes.
  change (toLowerCase "acc://" +:+ lx +:+ lq) with ("acc://" +:+ lx +:+ lq).
  change (startsWith "0x" ("acc://" +:+ lx +:+ lq)) with false. cbv iota.
  change (startsWith "acc://" ("acc://" +:+ lx +:+ lq)) with true. cbv iota.
  change (substring_from 6 ("acc://" +:+ lx +:+ lq)) with (lx +:+ lq).
  subst lq. cbn [toLowerCase]. change (lower_char "@") with "@"%char.
  unfold cut_after_first at 2.
  rewrite (indexOf_append "@" lx _ (all_hex_indexOf "@" lx eq_refl Hlx)).
  destruct (all_hex_length_pos lx) as [n Hn].
  { subst lx. destruct x; [contradiction | discriminate]. }
  rewrite Hn, <- Hn, substring_to_append.
  unfold cut_after_first. rewrite (all_hex_indexOf "/" lx eq_refl Hlx).
  apply all_hex_trim, Hlx.
Qed.

Lemma substring_from_append (x p : string) :
  substring_from (String.length x) (x +:+ p) = p.
Proof. induction x as [|a r IH]; [destruct p; reflexivity | exact IH]. Qed.

Lemma app_assoc_string (a b c : string) : (a +:+ b) +:+ c = a +:+ b +:+ c.
Proof.
  induction a as [|x r IH]; [reflexivity |].
  change ((String x r +:+ b) +:+ c) with (String x ((r +:+ b) +:+ c)).
  rewrite IH. reflexivity.
Qed.

Lemma normalizeHash_display (hash : string) :
  normalizeHash (formatHashForDisplay hash) = normalizeHash hash.
Proof.
  unfold formatHashForDisplay.
  destruct (normalizeHash_shape hash) as (Hl & Ht & Ha & Hs).
  destruct (normalizeHash hash) as [|c r] eqn:E; [reflexivity |].
  cbn [is_empty]. apply normalizeHash_0x; try assumption. discriminate.
Qed.

End HashHelperFacts.

(** Formatting a hash for display does not change the hash it denotes:
    the displayed form normalizes to the normal form of the original,
    for every string, although [normalizeHash] itself is not
    idempotent. *)
Theorem formatHashForDisplay_same_hash (hash : string) :
  HashNormalizer.normalizeHash (HashNormalizer.formatHashForDisplay hash)
  = HashNormalizer.normalizeHash hash
  /\ HashNormalizer.hashesEqual (HashNormalizer.formatHashForDisplay hash) hash = true.
Proof.
  pose proof (normalizeHash_display hash) as H.
  split; [exact H |]. unfold HashNormalizer.hashesEqual. rewrite H.
  apply bool_decide_eq_true. reflexivity.
Qed.

(** [hashesEqual] ignores the case of its arguments. *)
Theorem hashesEqual_ignores_case (hash1 hash2 : string) :
  JsString.toLowerCase hash1 = JsString.toLowerCase hash2 ->
  HashNormalizer.hashesEqual hash1 hash2 = true.
Proof.
  intros H. unfold HashNormalizer.hashesEqual. apply bool_decide_eq_true.
  rewrite <- (normalizeHash_toLowerCase hash1), <- (normalizeHash_toLowerCase hash2), H.
  reflexivity.
Qed.

Lemma hashesEqual_ignores_case_witness :
  HashNormalizer.hashesEqual "0xAB12cd" "0Xab12CD" = true.
Proof. apply (hashesEqual_ignores_case "0xAB12cd" "0Xab12CD"). reflexivity. Defined.

(** The three spellings of a hexadecimal hash [x] (bare, behind [0x],
    and as a transaction id [acc://x@principal]) normalize to the
    lower-case form of [x], whatever the principal is. *)
Theorem normalizeHash_spellings (x principal : string) :
  HashNormalizer.all_hex x = true -> x <> "" ->
  HashNormalizer.normalizeHash x = JsString.toLowerCase x
  /\ HashNormalizer.normalizeHash ("0x" +:+ x) = JsString.toLowerCase x
  /\ HashNormalizer.normalizeHash ("acc://" +:+ x +:+ "@" +:+ principal)
     = JsString.toLowerCase x.
Proof.
  intros Hx Hne.
  assert (HashNormalizer.all_hex (JsString.toLowerCase x) = true) as Hlx
    by (rewrite all_hex_toLowerCase; exact Hx).
  assert (JsString.toLowerCase x <> "") as Hlne by (destruct x; [contradiction | discriminate]).
  split; [| split].
  - rewrite <- normalizeHash_toLowerCase.
    apply normalizeHash_fixed;
      [apply lowered_toLowerCase | apply all_hex_trim, Hlx
      | apply all_hex_settled; [reflexivity | exact Hlx]
      | apply all_hex_settled; [reflexivity | exact Hlx]
      | apply all_hex_startsWith_0x, Hlx].
  - rewrite <- normalizeHash_toLowerCase, toLowerCase_append.
    change (JsString.toLowerCase "0x") with "0x".
    apply normalizeHash_0x;
      [exact Hlne | apply lowered_toLowerCase | apply all_hex_trim, Hlx
      | apply all_hex_settled; [reflexivity | exact Hlx]
      | apply all_hex_settled; [reflexivity | exact Hlx]].
  - apply normalizeHash_txid; assumption.
Qed.

Lemma normalizeHash_spellings_witness :
  HashNormalizer.normalizeHash "AB12" = "ab12"
  /\ HashNormalizer.normalizeHash "0xAB12" = "ab12"
  /\ HashNormalizer.normalizeHash "acc://AB12@alice.acme/tokens" = "ab12".
Proof.
  exact (normalizeHash_spellings "AB12" "alice.acme/tokens" eq_refl ltac:(discriminate)).
Defined.

(** A hash that [isValidHash] accepts has a stable normal form: it is a
    fixed point of [normalizeHash], it is valid itself, and so is its
    display form. *)
Theorem isValidHash_stable (hash : string) :
  HashNormalizer.isValidHash hash = true ->
  let normalized := HashNormalizer.normalizeHash hash in
  HashNormalizer.normalizeHash normalized = normalized
  /\ HashNormalizer.isValidHash normalized = true
  /\ HashNormalizer.isValidHash (HashNormalizer.formatHashForDisplay hash) = true
  /\ (32 <= String.length normalized <= 128)%nat.
Proof.
  intros H normalized. unfold HashNormalizer.isValidHash in H. fold normalized in H.
  apply andb_true_iff in H as [H Hhi]. apply andb_true_iff in H as [Hhex Hlo].
  apply Nat.leb_le in Hhi, Hlo.
  destruct (normalizeHash_shape hash) as (Hl & Ht & Ha & Hs).
  fold normalized in Hl, Ht, Ha, Hs.
  assert (HashNormalizer.normalizeHash normalized = normalized) as Hfix.
  { apply normalizeHash_fixed; try assumption.
    apply all_hex_startsWith_0x, Hhex. }
  assert (HashNormalizer.isValidHash normalized = true) as Hvalid.
  { unfold HashNormalizer.isValidHash.
    rewrite Hfix, Hhex, (proj2 (Nat.leb_le _ _) Hlo), (proj2 (Nat.leb_le _ _) Hhi).
    reflexivity. }
  repeat split; try assumption.
  unfold HashNormalizer.isValidHash.
  rewrite (normalizeHash_display hash). fold normalized.
  rewrite Hhex, (proj2 (Nat.leb_le _ _) Hlo), (proj2 (Nat.leb_le _ _) Hhi). reflexivity.
Qed.

Lemma isValidHash_stable_witness :
  HashNormalizer.normalizeHash "0123456789abcdef0123456789abcdef"
  = "0123456789abcdef0123456789abcdef"
  /\ HashNormalizer.isValidHash "0123456789abcdef0123456789abcdef" = true
  /\ HashNormalizer.isValidHash "0x0123456789abcdef0123456789abcdef" = true
  /\ (32 <= 32 <= 128)%nat.
Proof.
  exact (isValidHash_stable "0x0123456789ABCDEF0123456789abcdef" eq_refl).
Defined.

(** [truncateHash] never returns more than 17 characters: a normal form
    of at most 16 characters is returned whole, a longer one is cut to
    its first 8 characters, three dots and its last 6 characters. *)
Theorem truncateHash_length (hash : string) :
  let normalized := HashNormalizer.normalizeHash hash in
  (String.length (HashNormalizer.truncateHash hash) <= 17)%nat
  /\ ((String.length normalized <= 16)%nat -> HashNormalizer.truncateHash hash = normalized)
  /\ ((16 < String.length normalized)%nat ->
      String.length (HashNormalizer.truncateHash hash) = 17%nat
      /\ JsString.substring_to 8 (HashNormalizer.truncateHash hash)
         = JsString.substring_to 8 normalized
      /\ JsString.substring_from 11 (HashNormalizer.truncateHash hash)
         = JsString.substring_from (String.length normalized - 6) normalized).
Proof.
  intros normalized. unfold HashNormalizer.truncateHash. fold normalized.
  destruct (Nat.leb_spec (String.length normalized) 16) as [Hshort|Hlong].
  - split; [lia |]. split; [reflexivity | lia].
  - assert (String.length (JsString.substring_to 8 normalized) = 8%nat) as H8
      by (rewrite length_substring_to; lia).
    assert (String.length (JsString.substring_to 8 normalized +:+ "..."
                           +:+ JsString.substring_from (String.length normalized - 6)
                                 normalized) = 17%nat) as H17.
    { rewrite !length_append, H8, length_substring_from. simpl. lia. }
    split; [lia |]. split; [lia |]. intros _. split; [exact H17 |]. split.
    + rewrite <- H8 at 1. apply substring_to_append.
    + replace 11%nat
        with (String.length (JsString.substring_to 8 normalized +:+ "..."))
        by (rewrite length_append, H8; reflexivity).
      rewrite <- (substring_from_append
                    (JsString.substring_to 8 normalized +:+ "...")
                    (JsString.substring_from (String.length normalized - 6) normalized))
        at 2.
      rewrite app_assoc_string. reflexivity.
Qed.

(** ** The URL helpers *)

Section UrlHelperFacts.
Import JsString UrlNormalizer.

Lemma substring_to_from (i : nat) (s : string) :
  substring_to i s +:+ substring_from i s = s.
Proof.
  revert s. induction i as [|i IH]; intros [|a r]; try reflexivity.
  cbn [substring_to substring_from].
  change (String a (substring_to i r) +:+ substring_from i r)
    with (String a (substring_to i r +:+ substring_from i r)).
  rewrite IH. reflexivity.
Qed.

Lemma append_empty_r (s : string) : s +:+ "" = s.
Proof.
  induction s as [|a r IH]; [reflexivity |].
  change (String a r +:+ "") with (String a (r +:+ "")). rewrite IH. reflexivity.
Qed.

Lemma slice_scheme (p : string) :
  startsWith "acc://" p = true ->
  slice_0_m1 p = "acc:/" \/ startsWith "acc://" (slice_0_m1 p) = true.
Proof.
  intros H. apply startsWith_split in H as [q ->].
  destruct q as [|a q]; [left; reflexivity |]. right.
  change ("acc://" +:+ String a q)
    with (String "a" (String "c" (String "c" (String ":" (String "/" (String "/"
           (String a q))))))).
  cbn [slice_0_m1]. reflexivity.
Qed.

(** Every value of [normalizeUrl] is empty, the scheme cut short, or a
    string behind the scheme. *)
Lemma normalizeUrl_scheme (url : string) :
  normalizeUrl url = "" \/ normalizeUrl url = "acc:/"
  \/ startsWith "acc://" (normalizeUrl url) = true.
Proof.
  unfold normalizeUrl. destruct (is_empty url); [left; reflexivity |]. cbv zeta.
  pose proof (ensured_scheme (trim (toLowerCase url))) as Hp.
  destruct (endsWith_char "/" _); [| right; right; exact Hp].
  right. apply slice_scheme, Hp.
Qed.

Lemma scheme_split (y : string) :
  startsWith "acc://" y = true -> y = "acc://" +:+ substring_from 6 y.
Proof. intros H. apply startsWith_split in H as [q ->]. reflexivity. Qed.

Lemma normalizeUrl_path (url : string) (i : nat) :
  indexOf "/" (substring_from 6 (normalizeUrl url)) = Some i ->
  normalizeUrl url = "acc://" +:+ substring_from 6 (normalizeUrl url).
Proof.
  intros H. destruct (normalizeUrl_scheme url) as [E|[E|E]].
  - rewrite E in H. discriminate.
  - rewrite E in H. discriminate.
  - apply scheme_split, E.
Qed.

(** *** Strings of one character class *)

Lemma all_chars_append (f : ascii -> bool) (a b : string) :
  all_chars f (a +:+ b) = (all_chars f a && all_chars f b)%bool.
Proof.
  induction a as [|c r IH]; [reflexivity |].
  change (String c r +:+ b) with (String c (r +:+ b)). cbn [all_chars].
  rewrite IH, andb_assoc. reflexivity.
Qed.

Lemma all_chars_impl (f g : ascii -> bool) (s : string) :
  (forall c, f c = true -> g c = true) -> all_chars f s = true -> all_chars g s = true.
Proof.
  intros Hfg. induction s as [|c r IH]; [reflexivity |]. cbn [all_chars].
  intros H. apply andb_true_iff in H as [Hc Hr]. rewrite (Hfg c Hc), (IH Hr). reflexivity.
Qed.

Lemma all_chars_lowered (f : ascii -> bool) (s : string) :
  (forall c, f c = true -> lower_char c = c) -> all_chars f s = true -> lowered s.
Proof.
  intros Hf. unfold lowered. induction s as [|c r IH]; [reflexivity |]. cbn [all_chars].
  intros H. apply andb_true_iff in H as [Hc Hr]. cbn [toLowerCase].
  rewrite (Hf c Hc), (IH Hr). reflexivity.
Qed.

Lemma all_chars_lastIndexOf (f : ascii -> bool) (c : ascii) (s : string) :
  f c = false -> all_chars f s = true -> lastIndexOf c s = None.
Proof.
  intros Hc. induction s as [|a r IH]; [reflexivity |]. cbn [all_chars lastIndexOf].
  intros H. apply andb_true_iff in H as [Ha Hr]. rewrite (IH Hr).
  destruct (decide (a = c)) as [->|_]; [congruence | reflexivity].
Qed.

Lemma all_chars_trimEnd (f : ascii -> bool) (s : string) :
  (forall c, f c = true -> is_ws c = false) -> all_chars f s = true -> trimEnd s = s.
Proof.
  intros Hf. induction s as [|a r IH]; [reflexivity |]. cbn [all_chars trimEnd].
  intros H. apply andb_true_iff in H as [Ha Hr]. rewrite (IH Hr).
  destruct r; [rewrite (Hf a Ha) |]; reflexivity.
Qed.

Lemma all_chars_endsWith (f : ascii -> bool) (c : ascii) (s : string) :
  f c = false -> all_chars f s = true -> endsWith_char c s = false.
Proof.
  intros Hc. induction s as [|a r IH]; [reflexivity |]. cbn [all_chars].
  intros H. apply andb_true_iff in H as [Ha Hr]. cbn [endsWith_char].
  destruct r as [|b r]; [| exact (IH Hr)].
  apply bool_decide_eq_false. intros ->. congruence.
Qed.

Lemma endsWith_char_append (c : ascii) (a b : string) :
  b <> "" -> endsWith_char c (a +:+ b) = endsWith_char c b.
Proof.
  intros Hb. induction a as [|x r IH]; [reflexivity |].
  change (String x r +:+ b) with (String x (r +:+ b)). cbn [endsWith_char].
  destruct (r +:+ b) eqn:E; [| exact IH].
  destruct r; [contradiction | discriminate].
Qed.

Lemma lastIndexOf_append (c : ascii) (x d : string) :
  lastIndexOf c d = None -> lastIndexOf c (x +:+ String c d) = Some (String.length x).
Proof.
  intros Hd. induction x as [|a r IH].
  - change ("" +:+ String c d) with (String c d). cbn [lastIndexOf]. rewrite Hd.
    destruct (decide (c = c)); [reflexivity | contradiction].
  - change (String a r +:+ String c d) with (String a (r +:+ String c d)).
    cbn [lastIndexOf]. rewrite IH. reflexivity.
Qed.

(** *** Decimal numerals *)

Lemma is_digit_pretty_N_char (x : N) : is_digit (pretty_N_char x) = true.
Proof. unfold pretty_N_char. repeat case_match; reflexivity. Qed.

Lemma pretty_N_go_digits (x : N) (s : string) :
  all_chars is_digit s = true -> all_chars is_digit (pretty_N_go x s) = true.
Proof.
  revert s. induction (N.lt_wf_0 x) as [x _ IH]. intros s Hs.
  destruct (decide (x = 0)%N) as [->|Hx]; [rewrite pretty_N_go_0; exact Hs |].
  rewrite pretty_N_go_step by lia. apply IH.
  - apply N.div_lt; lia.
  - cbn [all_chars]. rewrite is_digit_pretty_N_char, Hs. reflexivity.
Qed.

Lemma pretty_N_go_nonempty (x : N) (s : string) : s <> "" -> pretty_N_go x s <> "".
Proof.
  revert s. induction (N.lt_wf_0 x) as [x _ IH]. intros s Hs.
  destruct (decide (x = 0)%N) as [->|Hx]; [rewrite pretty_N_go_0; exact Hs |].
  rewrite pretty_N_go_step by lia. apply IH; [apply N.div_lt; lia | discriminate].
Qed.

Lemma pretty_N_digits (x : N) : all_chars is_digit (pretty x) = true /\ pretty x <> "".
Proof.
  unfold pretty, pretty_N. destruct (decide (x = 0)%N) as [->|Hx].
  - split; [reflexivity | discriminate].
  - split; [apply pretty_N_go_digits; reflexivity |].
    rewrite pretty_N_go_step by lia. apply pretty_N_go_nonempty. discriminate.
Qed.

Lemma pretty_Z_digits (n : Z) : 0 <= n -> all_chars is_digit (pretty n) = true.
Proof.
  destruct n as [|x|x]; [reflexivity | | lia]. intros _.
  apply (pretty_N_digits (N.pos x)).
Qed.

Lemma pretty_Z_chars (n : Z) : all_chars numeral_char (pretty n) = true /\ pretty n <> "".
Proof.
  destruct n as [|x|x].
  - split; [reflexivity | discriminate].
  - destruct (pretty_N_digits (N.pos x)) as [H Hne]. split; [| exact Hne].
    apply (all_chars_impl is_digit); [| exact H].
    intros c Hc. unfold numeral_char. rewrite Hc. reflexivity.
  - destruct (pretty_N_digits (N.pos x)) as [H Hne]. split; [| discriminate].
    change (pretty (Z.neg x)) with (String "-" (pretty (N.pos x))).
    cbn [all_chars]. apply andb_true_iff. split; [reflexivity |].
    apply (all_chars_impl is_digit); [| exact H].
    intros c Hc. unfold numeral_char. rewrite Hc. reflexivity.
Qed.

Lemma numeral_char_plain (c : ascii) :
  numeral_char c = true -> lower_char c = c /\ is_ws c = false.
Proof. destruct c as [[] [] [] [] [] [] [] []]; vm_compute; intros H; split; congruence. Qed.

(** *** Printed numbers *)

Lemma around_nonneg (x : Z) (p : nat) (v : Z) : 0 <= x -> In v (around x p) -> 0 <= v.
Proof.
  intros Hx Hin. unfold around in Hin. cbv zeta in Hin.
  assert (0 < 10 ^ Z.of_nat p) as Hu by (apply Z.pow_pos_nonneg; lia).
  assert (0 <= x / 10 ^ Z.of_nat p) as Hs by (apply Z.div_pos; lia).
  repeat match type of Hin with
         | context [if ?b then _ else _] => destruct b
         end;
    simpl in Hin; destruct Hin as [<-|[<-|[]]]; nia.
Qed.

Lemma filter_head {A : Type} (f : A -> bool) (l : list A) (v : A) (r : list A) :
  List.filter f l = v :: r -> In v l /\ f v = true.
Proof.
  intros H. apply filter_In. rewrite H. left. reflexivity.
Qed.

Lemma shortest_nonneg (x : Z) (p : nat) : 0 <= x -> 0 <= shortest x p.
Proof.
  intros Hx. induction p as [|p IH]; simpl; [exact Hx |].
  destruct (List.filter _ _) as [|v r] eqn:E; [exact IH |].
  apply filter_head in E as [Hin _]. exact (around_nonneg x (S p) v Hx Hin).
Qed.

Lemma shortest_reads_back (x : Z) (p : nat) : toDouble x = x -> toDouble (shortest x p) = x.
Proof.
  intros Hx. induction p as [|p IH]; simpl; [exact Hx |].
  destruct (List.filter _ _) as [|v r] eqn:E; [exact IH |].
  apply filter_head in E as [_ Hv]. apply Z.eqb_eq, Hv.
Qed.

Lemma all_chars_significand (f : ascii -> bool) (s : string) :
  all_chars f s = true -> all_chars f (significand s) = true.
Proof.
  induction s as [|c r IH]; [reflexivity |]. cbn [all_chars significand].
  intros H. apply andb_true_iff in H as [Hc Hr]. specialize (IH Hr).
  destruct (significand r) as [|c' r'].
  - destruct (decide (c = "0"%char)); [reflexivity |]. cbn [all_chars]. rewrite Hc. reflexivity.
  - cbn [all_chars] in *. rewrite Hc, IH. reflexivity.
Qed.

Lemma significand_pad (s : string) :
  s = significand s +:+ zeros (String.length s - String.length (significand s)).
Proof.
  induction s as [|c r IH]; [reflexivity |]. cbn [significand].
  destruct (significand r) as [|c' r'] eqn:E.
  - change (r = zeros (String.length r - 0)) in IH. rewrite Nat.sub_0_r in IH.
    destruct (decide (c = "0"%char)) as [->|Hc].
    + change (String "0" r = zeros (S (String.length r))). cbn [zeros].
      rewrite <- IH. reflexivity.
    + change (String c r = String c (zeros (String.length r - 0))).
      rewrite Nat.sub_0_r, <- IH. reflexivity.
  - change (String c r
            = String c (String c' r' +:+ zeros (String.length r - String.length (String c' r')))).
    rewrite <- IH. reflexivity.
Qed.

Lemma length_significand (s : string) : (String.length (significand s) <= String.length s)%nat.
Proof.
  induction s as [|c r IH]; [reflexivity |]. cbn [significand].
  destruct (significand r); [destruct (decide _) |]; simpl in *; lia.
Qed.

Lemma significand_length_inj (s t : string) :
  significand s = significand t -> String.length s = String.length t -> s = t.
Proof.
  intros Hs Hl. rewrite (significand_pad s), (significand_pad t), Hs, Hl. reflexivity.
Qed.

Lemma append_mark_inj (f : ascii -> bool) (m : ascii) (a a' b b' : string) :
  f m = false -> all_chars f a = true -> all_chars f a' = true ->
  a +:+ String m b = a' +:+ String m b' -> a = a' /\ b = b'.
Proof.
  intros Hm. revert a'. induction a as [|c r IH]; intros [|c' r'] Ha Ha' H.
  - change (String m b = String m b') in H. injection H as ->. split; reflexivity.
  - change (String m b = String c' (r' +:+ String m b')) in H. injection H as -> _.
    cbn [all_chars] in Ha'. rewrite Hm in Ha'. discriminate.
  - change (String c (r +:+ String m b) = String m b') in H. injection H as -> _.
    cbn [all_chars] in Ha. rewrite Hm in Ha. discriminate.
  - change (String c (r +:+ String m b) = String c' (r' +:+ String m b')) in H.
    injection H as -> H. cbn [all_chars] in Ha, Ha'.
    apply andb_true_iff in Ha as [_ Ha]. apply andb_true_iff in Ha' as [_ Ha'].
    destruct (IH r' Ha Ha' H) as [-> ->]. split; reflexivity.
Qed.

Lemma exponential_eq (d : ascii) (rest : string) :
  exponential (String d rest)
  = String d (fraction rest +:+ String "e" (String "+" (pretty (String.length rest)))).
Proof. reflexivity. Qed.

Lemma fraction_chars (rest : string) :
  all_chars is_digit rest = true -> all_chars digit_or_point (fraction rest) = true.
Proof.
  intros H. unfold fraction. destruct (is_empty _); [reflexivity |].
  change ("." +:+ significand rest) with (String "." (significand rest)).
  cbn [all_chars]. apply andb_true_iff. split; [reflexivity |].
  apply (all_chars_impl is_digit); [| apply all_chars_significand, H].
  intros c Hc. unfold digit_or_point. rewrite Hc. reflexivity.
Qed.

Lemma fraction_inj (a b : string) : fraction a = fraction b -> significand a = significand b.
Proof.
  unfold fraction.
  destruct (significand a) as [|x r], (significand b) as [|y t]; simpl; try discriminate.
  - reflexivity.
  - intros H. injection H as -> ->. reflexivity.
Qed.

Lemma exponential_inj (s t : string) :
  all_chars is_digit s = true -> all_chars is_digit t = true ->
  s <> "" -> t <> "" -> exponential s = exponential t -> s = t.
Proof.
  destruct s as [|d rest]; [intros _ _ H; contradiction H; reflexivity |].
  destruct t as [|d' rest']; [intros _ _ _ H; contradiction H; reflexivity |].
  intros Hs Ht _ _. rewrite !exponential_eq. intros H. injection H as -> H.
  cbn [all_chars] in Hs, Ht.
  apply andb_true_iff in Hs as [_ Hs]. apply andb_true_iff in Ht as [_ Ht].
  apply (append_mark_inj digit_or_point) in H as [Hf Hp];
    [| reflexivity | apply fraction_chars, Hs | apply fraction_chars, Ht].
  injection Hp as Hp. apply (inj pretty) in Hp.
  rewrite (significand_length_inj rest rest' (fraction_inj _ _ Hf) Hp). reflexivity.
Qed.

Lemma exponential_chars (s : string) :
  all_chars is_digit s = true -> all_chars numeral_char (exponential s) = true.
Proof.
  destruct s as [|d rest]; [reflexivity |]. rewrite exponential_eq. cbn [all_chars].
  intros H. apply andb_true_iff in H as [Hd Hr].
  apply andb_true_iff. split; [unfold numeral_char; rewrite Hd; reflexivity |].
  rewrite all_chars_append. apply andb_true_iff. split.
  - apply (all_chars_impl digit_or_point); [| apply fraction_chars, Hr].
    intros c. destruct c as [[] [] [] [] [] [] [] []]; vm_compute; congruence.
  - cbn [all_chars]. apply andb_true_iff. split; [reflexivity |].
    apply andb_true_iff. split; [reflexivity |].
    apply (all_chars_impl is_digit); [| apply (pretty_N_digits (N.of_nat (String.length rest)))].
    intros c Hc. unfold numeral_char. rewrite Hc. reflexivity.
Qed.

Lemma exponential_has_mark (s : string) : s <> "" -> all_chars is_digit (exponential s) = false.
Proof.
  destruct s as [|d rest]; [intros H; contradiction H; reflexivity |]. intros _.
  rewrite exponential_eq. cbn [all_chars]. rewrite all_chars_append. cbn [all_chars].
  change (is_digit "e") with false. rewrite andb_false_r, andb_false_r. reflexivity.
Qed.

Lemma numberToString_eq (x : Z) :
  numberToString x = (if x <? 0 then "-" else "") +:+ magnitude (Z.abs x).
Proof. reflexivity. Qed.

Lemma rounded_nonneg (a : Z) :
  0 <= a -> 0 <= (if a <? 2 ^ 53 then a else shortest a (Z.to_nat (Z.log2 a))).
Proof. intros Ha. destruct (a <? 2 ^ 53); [exact Ha | apply shortest_nonneg, Ha]. Qed.

Lemma magnitude_chars (a : Z) :
  0 <= a ->
  all_chars numeral_char (magnitude a) = true
  /\ exists d r, magnitude a = String d r /\ is_digit d = true.
Proof.
  intros Ha. unfold magnitude. cbv zeta.
  pose proof (rounded_nonneg a Ha) as Hv.
  set (v := if a <? 2 ^ 53 then a else shortest a (Z.to_nat (Z.log2 a))) in *.
  pose proof (pretty_Z_digits v Hv) as Hd.
  destruct (pretty_Z_chars v) as [_ Hne].
  destruct (v <? 10 ^ 21).
  - split.
    + apply (all_chars_impl is_digit); [| exact Hd].
      intros c Hc. unfold numeral_char. rewrite Hc. reflexivity.
    + destruct (pretty v) as [|d r]; [contradiction Hne; reflexivity |].
      exists d, r. split; [reflexivity |]. cbn [all_chars] in Hd.
      apply andb_true_iff in Hd as [Hd _]. exact Hd.
  - split; [apply exponential_chars, Hd |].
    destruct (pretty v) as [|d r]; [contradiction Hne; reflexivity |].
    rewrite exponential_eq. eexists _, _. split; [reflexivity |].
    cbn [all_chars] in Hd. apply andb_true_iff in Hd as [Hd _]. exact Hd.
Qed.

Lemma numberToString_chars (x : Z) :
  all_chars numeral_char (numberToString x) = true /\ numberToString x <> "".
Proof.
  rewrite numberToString_eq.
  destruct (magnitude_chars (Z.abs x) (Z.abs_nonneg x)) as (Hc & d & r & Hm & _).
  destruct (x <? 0).
  - change ("-" +:+ magnitude (Z.abs x)) with (String "-" (magnitude (Z.abs x))).
    split; [| discriminate]. cbn [all_chars]. rewrite Hc. reflexivity.
  - change ("" +:+ magnitude (Z.abs x)) with (magnitude (Z.abs x)).
    split; [exact Hc |]. rewrite Hm. discriminate.
Qed.

Lemma numberToString_safe (x : Z) : Z.abs x < 2 ^ 53 -> numberToString x = pretty x.
Proof.
  intros Hx. rewrite numberToString_eq. unfold magnitude. cbv zeta.
  rewrite (proj2 (Z.ltb_lt _ _) Hx).
  assert ((Z.abs x <? 10 ^ 21) = true) as ->.
  { apply Z.ltb_lt. eapply Z.lt_trans; [exact Hx |]. reflexivity. }
  destruct x as [|p|p]; reflexivity.
Qed.

Lemma magnitude_inj (a b : Z) :
  0 <= a -> 0 <= b -> toDouble a = a -> toDouble b = b ->
  magnitude a = magnitude b -> a = b.
Proof.
  intros Ha Hb Hda Hdb. unfold magnitude. cbv zeta.
  pose proof (rounded_nonneg a Ha) as Hva. pose proof (rounded_nonneg b Hb) as Hvb.
  assert (toDouble (if a <? 2 ^ 53 then a else shortest a (Z.to_nat (Z.log2 a))) = a) as Ra.
  { destruct (a <? 2 ^ 53); [exact Hda | apply shortest_reads_back, Hda]. }
  assert (toDouble (if b <? 2 ^ 53 then b else shortest b (Z.to_nat (Z.log2 b))) = b) as Rb.
  { destruct (b <? 2 ^ 53); [exact Hdb | apply shortest_reads_back, Hdb]. }
  set (v := if a <? 2 ^ 53 then a else shortest a (Z.to_nat (Z.log2 a))) in *.
  set (w := if b <? 2 ^ 53 then b else shortest b (Z.to_nat (Z.log2 b))) in *.
  pose proof (pretty_Z_digits v Hva) as Dv. pose proof (pretty_Z_digits w Hvb) as Dw.
  destruct (pretty_Z_chars v) as [_ Nv]. destruct (pretty_Z_chars w) as [_ Nw].
  intros H.
  assert (v = w) as Hvw.
  { destruct (v <? 10 ^ 21), (w <? 10 ^ 21).
    - apply (inj pretty), H.
    - rewrite H in Dv. rewrite (exponential_has_mark _ Nw) in Dv. discriminate.
    - rewrite <- H in Dw. rewrite (exponential_has_mark _ Nv) in Dw. discriminate.
    - apply (inj pretty). apply exponential_inj; assumption. }
  rewrite <- Ra, <- Rb, Hvw. reflexivity.
Qed.

Lemma numberToString_inj (x y : Z) :
  isNumber x = true -> isNumber y = true ->
  numberToString x = numberToString y -> x = y.
Proof.
  unfold isNumber. intros Hx Hy.
  apply andb_true_iff in Hx as [Hx _]. apply andb_true_iff in Hy as [Hy _].
  apply Z.eqb_eq in Hx, Hy. rewrite !numberToString_eq.
  destruct (magnitude_chars (Z.abs x) (Z.abs_nonneg x)) as (_ & d & r & Hm & Hd).
  destruct (magnitude_chars (Z.abs y) (Z.abs_nonneg y)) as (_ & d' & r' & Hm' & Hd').
  destruct (Z.ltb_spec x 0) as [Sx|Sx], (Z.ltb_spec y 0) as [Sy|Sy].
  - change ("-" +:+ ?m) with (String "-" m). intros H. injection H as H.
    apply magnitude_inj in H; [lia | apply Z.abs_nonneg | apply Z.abs_nonneg | assumption..].
  - rewrite Hm, Hm'. change ("-" +:+ ?m) with (String "-" m). change ("" +:+ ?m) with m.
    intros H. injection H as <- _. discriminate.
  - rewrite Hm, Hm'. change ("-" +:+ ?m) with (String "-" m). change ("" +:+ ?m) with m.
    intros H. injection H as -> _. discriminate.
  - change ("" +:+ ?m) with m. intros H.
    apply magnitude_inj in H; [lia | apply Z.abs_nonneg | apply Z.abs_nonneg | assumption..].
Qed.

(** *** A page URL built from a book URL *)

Lemma page_url_normal (nb t : string) :
  lowered nb -> startsWith "acc://" nb = true ->
  all_chars numeral_char t = true -> t <> "" ->
  normalizeUrl (nb +:+ "/" +:+ t) = nb +:+ "/" +:+ t.
Proof.
  intros Hl Hs Hd Hne.
  assert (trimEnd t = t) as Htd.
  { apply (all_chars_trimEnd numeral_char); [| exact Hd].
    intros c Hc. apply numeral_char_plain, Hc. }
  assert (trimEnd ("/" +:+ t) = "/" +:+ t) as Hts.
  { rewrite trimEnd_append; rewrite Htd; [reflexivity | exact Hne]. }
  apply normalizeUrl_fixed.
  - apply lowered_append; [exact Hl |]. apply lowered_append; [reflexivity |].
    apply (all_chars_lowered numeral_char); [| exact Hd].
    intros c Hc. apply numeral_char_plain, Hc.
  - unfold trim. rewrite trimStart_head_ok.
    + rewrite trimEnd_append; rewrite Hts; [reflexivity | discriminate].
    + apply startsWith_split in Hs as [q ->]. reflexivity.
  - apply startsWith_split in Hs as [q ->]. reflexivity.
  - rewrite endsWith_char_append by discriminate.
    rewrite (endsWith_char_append "/" "/" t Hne).
    apply (all_chars_endsWith numeral_char); [reflexivity | exact Hd].
Qed.

Lemma long_normal_url (url : string) :
  (6 < String.length (normalizeUrl url))%nat ->
  startsWith "acc://" (normalizeUrl url) = true.
Proof.
  intros H. destruct (normalizeUrl_scheme url) as [E|[E|E]]; [| | exact E];
    rewrite E in H; simpl in H; lia.
Qed.

Lemma append_inv_head (a b c : string) : a +:+ b = a +:+ c -> b = c.
Proof.
  induction a as [|x r IH]; [intros H; exact H |].
  change (String x r +:+ b) with (String x (r +:+ b)).
  change (String x r +:+ c) with (String x (r +:+ c)).
  intros H. injection H as H. apply IH, H.
Qed.

(** *** Reading a string from its end *)

Lemma reverse_append (a b : string) : reverse (a +:+ b) = reverse b +:+ reverse a.
Proof.
  induction a as [|x r IH].
  - change ("" +:+ b) with b. cbn [reverse]. rewrite append_empty_r. reflexivity.
  - change (String x r +:+ b) with (String x (r +:+ b)). cbn [reverse].
    rewrite IH, app_assoc_string. reflexivity.
Qed.

Lemma all_chars_reverse (f : ascii -> bool) (s : string) :
  all_chars f (reverse s) = all_chars f s.
Proof.
  induction s as [|a r IH]; [reflexivity |]. cbn [reverse all_chars].
  rewrite all_chars_append, IH. cbn [all_chars].
  rewrite andb_true_r. apply andb_comm.
Qed.

Lemma reverse_nonempty (s : string) : s <> "" -> reverse s <> "".
Proof.
  destruct s as [|a r]; [contradiction |]. intros _. cbn [reverse].
  destruct (reverse r); discriminate.
Qed.

Lemma skip_digits_append (d x : string) (c : ascii) :
  all_chars is_digit d = true -> is_digit c = false ->
  skip_digits (d +:+ String c x) = String c x.
Proof.
  intros Hd Hc. induction d as [|a r IH].
  - change ("" +:+ String c x) with (String c x). cbn [skip_digits]. rewrite Hc. reflexivity.
  - change (String a r +:+ String c x) with (String a (r +:+ String c x)).
    cbn [all_chars] in Hd. apply andb_true_iff in Hd as [Ha Hr].
    cbn [skip_digits]. rewrite Ha. exact (IH Hr).
Qed.

Lemma skip_digits_shorter (r : string) :
  (String.length (skip_digits r) < String.length r)%nat ->
  exists a r', r = String a r' /\ is_digit a = true.
Proof.
  destruct r as [|a r']; [simpl; lia |]. cbn [skip_digits].
  destruct (is_digit a) eqn:E; [intros _; exists a, r'; split; [reflexivity | exact E] | lia].
Qed.

Lemma ends_with_number_after_digit (p s : string) :
  ends_with_number_after p s = true ->
  exists a r', reverse (toLowerCase s) = String a r' /\ is_digit a = true.
Proof.
  unfold ends_with_number_after. intros H. apply andb_true_iff in H as [H _].
  apply Nat.ltb_lt in H. apply skip_digits_shorter, H.
Qed.

Lemma ends_with_head (b : ascii) (p s : string) :
  startsWith (String b p) s = true -> exists r', s = String b r'.
Proof.
  destruct s as [|a r]; [discriminate |]. cbn [startsWith].
  destruct (decide (b = a)) as [->|]; [| discriminate]. intros _. exists r. reflexivity.
Qed.

Lemma toLowerCase_lowered (s : string) : lowered s -> toLowerCase s = s.
Proof. intros H. exact H. Qed.

End UrlHelperFacts.

(** An URL falls apart into its identity and its path without loss:
    [extractAdiFromUrl] followed by [getPathFromUrl] is the normalized
    URL, for every string. *)
Theorem url_is_adi_then_path (url : string) :
  UrlNormalizer.extractAdiFromUrl url +:+ UrlNormalizer.getPathFromUrl url
  = UrlNormalizer.normalizeUrl url.
Proof.
  unfold UrlNormalizer.extractAdiFromUrl, UrlNormalizer.getPathFromUrl. cbv zeta.
  destruct (JsString.is_empty (UrlNormalizer.normalizeUrl url)) eqn:E.
  { destruct (UrlNormalizer.normalizeUrl url); [reflexivity | discriminate]. }
  destruct (JsString.indexOf "/" (JsString.substring_from 6 (UrlNormalizer.normalizeUrl url)))
    as [i|] eqn:Hi.
  - rewrite (normalizeUrl_path url i Hi) at 3.
    rewrite app_assoc_string, substring_to_from. reflexivity.
  - apply append_empty_r.
Qed.

(** A page URL built from a book URL leads back to the book: when the
    normalized book URL names something behind the scheme,
    [getKeyBookFromKeyPage] undoes [buildKeyPageUrl] for every page
    number, the built URL is already normalized, and different page
    numbers give different URLs (page numbers being JavaScript numbers:
    an integer that no double represents has no print of its own). *)
Theorem key_page_url_round_trip (keyBookUrl : string) (pageNumber : Z) :
  (6 < String.length (UrlNormalizer.normalizeUrl keyBookUrl))%nat ->
  UrlNormalizer.getKeyBookFromKeyPage (UrlNormalizer.buildKeyPageUrl keyBookUrl pageNumber)
  = UrlNormalizer.normalizeUrl keyBookUrl
  /\ UrlNormalizer.normalizeUrl (UrlNormalizer.buildKeyPageUrl keyBookUrl pageNumber)
     = UrlNormalizer.buildKeyPageUrl keyBookUrl pageNumber
  /\ (forall other,
        JsString.isNumber other = true -> JsString.isNumber pageNumber = true ->
        UrlNormalizer.buildKeyPageUrl keyBookUrl other
        = UrlNormalizer.buildKeyPageUrl keyBookUrl pageNumber ->
        other = pageNumber).
Proof.
  intros Hlen. pose proof (long_normal_url keyBookUrl Hlen) as Hs.
  pose proof (proj1 (normalizeUrl_shape keyBookUrl)) as Hl.
  unfold UrlNormalizer.buildKeyPageUrl.
  set (nb := UrlNormalizer.normalizeUrl keyBookUrl) in *.
  destruct (numberToString_chars pageNumber) as [Hc Hne].
  pose proof (page_url_normal nb (JsString.numberToString pageNumber) Hl Hs Hc Hne) as Hn.
  split; [| split; [exact Hn |]].
  - unfold UrlNormalizer.getKeyBookFromKeyPage. rewrite Hn.
    change (nb +:+ "/" +:+ JsString.numberToString pageNumber)
      with (nb +:+ String "/" (JsString.numberToString pageNumber)).
    rewrite lastIndexOf_append.
    + destruct (Nat.ltb_spec 6 (String.length nb)); [| lia]. apply substring_to_append.
    + apply (all_chars_lastIndexOf JsString.numeral_char); [reflexivity | exact Hc].
  - intros other Ho Hp H. apply append_inv_head in H.
    change ("/" +:+ JsString.numberToString other)
      with (String "/" (JsString.numberToString other)) in H.
    change ("/" +:+ JsString.numberToString pageNumber)
      with (String "/" (JsString.numberToString pageNumber)) in H.
    injection H as H. exact (numberToString_inj other pageNumber Ho Hp H).
Qed.

Lemma key_page_url_round_trip_witness :
  UrlNormalizer.getKeyBookFromKeyPage "acc://alice.acme/book/2" = "acc://alice.acme/book"
  /\ UrlNormalizer.normalizeUrl "acc://alice.acme/book/2" = "acc://alice.acme/book/2".
Proof.
  destruct (key_page_url_round_trip "ACC://Alice.acme/Book/" 2 ltac:(vm_compute; lia))
    as (H1 & H2 & _).
  split; [exact H1 | exact H2].
Defined.

(** The pages of a key book are key pages: for a URL that
    [isKeyBookUrl] accepts and a page number from 0 to [2^53 - 1], the
    largest integer up to which every integer is a JavaScript number,
    the URL built by [buildKeyPageUrl] is accepted by [isKeyPageUrl].
    (From [10^21] on a number is printed in exponent notation, which the
    pattern of [isKeyPageUrl] does not accept.) *)
Theorem key_book_pages_are_key_pages (keyBookUrl : string) (pageNumber : Z) :
  UrlNormalizer.isKeyBookUrl keyBookUrl = true ->
  0 <= pageNumber < 2 ^ 53 ->
  UrlNormalizer.isKeyPageUrl (UrlNormalizer.buildKeyPageUrl keyBookUrl pageNumber) = true.
Proof.
  intros Hbook [Hpos Hsafe].
  pose proof (proj1 (normalizeUrl_shape keyBookUrl)) as Hl.
  unfold UrlNormalizer.isKeyBookUrl in Hbook. unfold UrlNormalizer.isKeyPageUrl.
  unfold UrlNormalizer.buildKeyPageUrl.
  rewrite (numberToString_safe pageNumber) by lia.
  set (nb := UrlNormalizer.normalizeUrl keyBookUrl) in *. cbv zeta in *.
  assert (JsString.startsWith "acc://" nb = true) as Hs.
  { destruct (normalizeUrl_scheme keyBookUrl) as [E|[E|E]]; fold nb in E; [| | exact E];
      rewrite E in Hbook; discriminate. }
  pose proof (pretty_Z_digits pageNumber Hpos) as Hd.
  destruct (pretty_Z_chars pageNumber) as [Hc Hne].
  rewrite (page_url_normal nb (pretty pageNumber) Hl Hs Hc Hne).
  assert (forall p,
            JsString.ends_with p nb = true ->
            JsString.ends_with_number_after (p +:+ "/") (nb +:+ "/" +:+ pretty pageNumber)
            = true) as Hstep.
  { intros p Hp. unfold JsString.ends_with in Hp. unfold JsString.ends_with_number_after.
    cbv zeta. rewrite !toLowerCase_append. change (JsString.toLowerCase "/") with "/".
    rewrite (toLowerCase_lowered (pretty pageNumber)).
    2:{ apply (all_chars_lowered JsString.numeral_char); [| exact Hc].
        intros c Hcc. apply numeral_char_plain, Hcc. }
    rewrite !reverse_append. change (JsString.reverse "/") with "/".
    rewrite app_assoc_string.
    change ("/" +:+ JsString.reverse (JsString.toLowerCase nb))
      with (String "/" (JsString.reverse (JsString.toLowerCase nb))).
    rewrite skip_digits_append; [| rewrite all_chars_reverse; exact Hd | reflexivity].
    apply andb_true_iff. split.
    - apply Nat.ltb_lt. rewrite length_append.
      pose proof (reverse_nonempty (pretty pageNumber) Hne) as Hr.
      destruct (JsString.reverse (pretty pageNumber)); [contradiction | simpl; lia].
    - cbn [JsString.startsWith]. destruct (decide ("/"%char = "/"%char)); [| contradiction].
      exact Hp. }
  apply orb_true_iff in Hbook as [Hb|Hb].
  - pose proof (Hstep "/book" Hb) as H1. change ("/book" +:+ "/") with "/book/" in H1.
    rewrite H1. reflexivity.
  - pose proof (Hstep "/books" Hb) as H1. change ("/books" +:+ "/") with "/books/" in H1.
    rewrite H1, orb_true_r. reflexivity.
Qed.

Lemma key_book_pages_are_key_pages_witness :
  UrlNormalizer.isKeyPageUrl "acc://alice.acme/book/12" = true.
Proof.
  exact (key_book_pages_are_key_pages "acc://Alice.acme/BOOK/" 12 eq_refl
           ltac:(split; [lia | reflexivity])).
Defined.

(** Page numbers are taken among the JavaScript numbers because an
    integer that no double represents has no print of its own: it
    prints like the double it lies next to. *)
Lemma integers_between_doubles_print_alike :
  JsString.isNumber (2 ^ 60) = true
  /\ JsString.isNumber (2 ^ 60 + 24) = false
  /\ JsString.numberToString (2 ^ 60) = "1152921504606847000"
  /\ JsString.numberToString (2 ^ 60 + 24) = "1152921504606847000".
Proof. repeat split; vm_compute; reflexivity. Qed.

(** From [10^21] on the print of a page number is in exponent notation:
    the URL built for page [10^21] of a key book is no key page URL. *)
Lemma exponent_page_is_no_key_page :
  UrlNormalizer.buildKeyPageUrl "acc://alice.acme/book" (10 ^ 21)
  = "acc://alice.acme/book/1e+21"
  /\ UrlNormalizer.isKeyPageUrl
       (UrlNormalizer.buildKeyPageUrl "acc://alice.acme/book" (10 ^ 21)) = false.
Proof. split; vm_compute; reflexivity. Qed.

(** No URL is both a key page URL and a key book URL. *)
Theorem key_page_is_no_key_book (url : string) :
  UrlNormalizer.isKeyPageUrl url = true -> UrlNormalizer.isKeyBookUrl url = false.
Proof.
  unfold UrlNormalizer.isKeyPageUrl, UrlNormalizer.isKeyBookUrl. cbv zeta. intros H.
  assert (exists a r',
            JsString.reverse (JsString.toLowerCase (UrlNormalizer.normalizeUrl url))
            = String a r' /\ JsString.is_digit a = true) as (a & r' & Hr & Ha).
  { apply orb_true_iff in H as [H|H]; [apply orb_true_iff in H as [H|H] |];
      exact (ends_with_number_after_digit _ _ H). }
  unfold JsString.ends_with. rewrite Hr.
  apply orb_false_iff. split.
  - destruct (JsString.startsWith (JsString.reverse "/book") (String a r')) eqn:E;
      [| reflexivity].
    apply (ends_with_head "k") in E as [q E]. injection E as -> _. discriminate.
  - destruct (JsString.startsWith (JsString.reverse "/books") (String a r')) eqn:E;
      [| reflexivity].
    apply (ends_with_head "s") in E as [q E]. injection E as -> _. discriminate.
Qed.

Lemma key_page_is_no_key_book_witness :
  UrlNormalizer.isKeyBookUrl "acc://alice.acme/books/3" = false.
Proof. exact (key_page_is_no_key_book "acc://alice.acme/books/3" eq_refl). Defined.

(** [urlsEqual] ignores the case of its arguments. *)
Theorem urlsEqual_ignores_case (url1 url2 : string) :
  JsString.toLowerCase url1 = JsString.toLowerCase url2 ->
  UrlNormalizer.urlsEqual url1 url2 = true.
Proof.
  intros H. unfold UrlNormalizer.urlsEqual. apply bool_decide_eq_true.
  assert (forall u, UrlNormalizer.normalizeUrl u
                    = UrlNormalizer.normalizeUrl (JsString.toLowerCase u)) as Hlow.
  { intros u. unfold UrlNormalizer.normalizeUrl. rewrite toLowerCase_idem.
    destruct u; reflexivity. }
  rewrite (Hlow url1), (Hlow url2), H. reflexivity.
Qed.

Lemma urlsEqual_ignores_case_witness :
  UrlNormalizer.urlsEqual "ACC://Alice.ACME/Book" "acc://alice.acme/book" = true.
Proof.
  apply (urlsEqual_ignores_case "ACC://Alice.ACME/Book" "acc://alice.acme/book").
  reflexivity.
Defined.

(** ** The discovery result *)

Section MapFacts.
Context {V : Type}.

Lemma get_None_keys (k : string) (m : list (string * V)) :
  JsMap.get k m = None <-> k ∉ JsMap.keys m.
Proof.
  unfold JsMap.keys. induction m as [|[k' v'] m IH]; simpl.
  - split; [intros _ H; apply elem_of_nil in H; exact H | reflexivity].
  - rewrite not_elem_of_cons. destruct (decide (k = k')) as [->|Hne].
    + split; [discriminate | intros [H _]; contradiction].
    + rewrite IH. tauto.
Qed.

Lemma get_Some_elem (k : string) (v : V) (m : list (string * V)) :
  JsMap.get k m = Some v -> (k, v) ∈ m.
Proof.
  induction m as [|[k' v'] m IH]; simpl; [discriminate |].
  destruct (decide (k = k')) as [->|Hne].
  - intros [= ->]. apply elem_of_cons. left. reflexivity.
  - intros H. apply elem_of_cons. right. apply IH, H.
Qed.

Lemma keys_set (k : string) (v : V) (m : list (string * V)) :
  JsMap.keys (JsMap.set k v m)
  = if JsMap.has k m then JsMap.keys m else JsMap.keys m ++ [k].
Proof.
  unfold JsMap.has, JsMap.keys. induction m as [|[k' v'] m IH]; simpl; [reflexivity |].
  destruct (decide (k = k')) as [->|Hne]; simpl; [reflexivity |].
  rewrite IH. destruct (JsMap.get k m); reflexivity.
Qed.

Lemma Forall_set (P : string * V -> Prop) (k : string) (v : V) (m : list (string * V)) :
  Forall P m -> P (k, v) -> Forall P (JsMap.set k v m).
Proof.
  intros Hm Hkv. induction m as [|[k' v'] m IH]; simpl.
  - constructor; [exact Hkv | constructor].
  - apply Forall_cons in Hm as [H1 H2].
    destruct (decide (k = k')) as [->|Hne]; constructor; auto.
Qed.

Lemma NoDup_keys_set (k : string) (v : V) (m : list (string * V)) :
  NoDup (JsMap.keys m) -> NoDup (JsMap.keys (JsMap.set k v m)).
Proof.
  intros H. rewrite keys_set. unfold JsMap.has.
  destruct (JsMap.get k m) eqn:E; [exact H |].
  apply NoDup_app. split; [exact H |]. split; [| apply NoDup_singleton].
  intros x Hx Hx'. apply list_elem_of_singleton in Hx' as ->.
  apply get_None_keys in E. contradiction.
Qed.

Lemma fold_left_keeps {A B : Type} (P : A -> Prop) (f : A -> B -> A) (l : list B) (a : A) :
  (forall a b, b ∈ l -> P a -> P (f a b)) -> P a -> P (fold_left f l a).
Proof.
  revert a. induction l as [|b l IH]; intros a Hf Ha; [exact Ha |]. simpl.
  apply IH.
  - intros a' b' Hb'. apply Hf. apply elem_of_cons. right. exact Hb'.
  - apply Hf; [apply elem_of_cons; left; reflexivity | exact Ha].
Qed.

End MapFacts.

Section DiscoveryFacts.
Import Types HashNormalizer AccumulateClient PendingDiscoveryService.

Variable Q : AccumulatePendingTx -> Prop.

Lemma addEligibleTx_ok (m : list (string * EligibleTransaction))
    (tx : AccumulatePendingTx) (s : string) (c : Category) :
  map_ok Q m -> Q tx -> map_ok Q (addEligibleTx m tx s c).
Proof.
  intros [Hk Hm] Hq. unfold addEligibleTx.
  destruct (JsMap.get (normalizeHash (tx_hash tx)) m) as [existing|] eqn:E.
  - split; [apply NoDup_keys_set, Hk |]. apply Forall_set; [exact Hm |].
    apply get_Some_elem in E. rewrite Forall_forall in Hm.
    destruct (Hm _ E) as (H1 & H2 & H3 & H4). simpl in *.
    repeat split; try assumption.
    + case_bool_decide; [exact H2 |]. intros Heq. apply app_eq_nil in Heq as [_ Heq].
      discriminate.
    + case_bool_decide; [exact H3 |]. apply NoDup_app.
      split; [exact H3 |]. split; [| apply NoDup_singleton].
      intros x Hx Hx'. apply list_elem_of_singleton in Hx' as ->. contradiction.
  - split; [apply NoDup_keys_set, Hk |]. apply Forall_set; [exact Hm |]. simpl.
    repeat split; [discriminate | apply NoDup_singleton | exact Hq].
Qed.

Context (call : Params -> option Js.value)
        (parse : Js.value -> string -> option AccumulatePendingTx)
        (pageSize : Z).
Variable user : CertenUserWithAdis.
Variable signingPaths : list SigningPath.

Abbreviation userKeys := (extractUserKeyHashes user).

(** What Phase 1 may add, and what Phases 2 and 3 may add. *)
Hypothesis offered_on_a_path :
  forall p txs tx,
    p ∈ signingPaths -> (length (hops p) <? 2)%nat = false ->
    queryPending call parse (finalSigner p) pageSize = Some txs -> tx ∈ txs -> Q tx.
Hypothesis unsigned_by_user :
  forall tx, hasUserSigned (tx_signatures tx) userKeys = false -> Q tx.

Lemma phase1_ok (st : State) :
  map_ok Q (eligibleTxs st) ->
  map_ok Q (eligibleTxs (processSigningPaths call parse pageSize signingPaths userKeys st)).
Proof.
  unfold processSigningPaths.
  apply (fold_left_keeps (fun st => map_ok Q (eligibleTxs st))).
  intros st' p Hp Hst. unfold phase1Path.
  destruct (length (hops p) <? 2)%nat eqn:Hlen; [exact Hst |].
  destruct (queryPending call parse (finalSigner p) pageSize) as [txs|] eqn:Hq;
    [| exact Hst].
  apply (fold_left_keeps (fun st => map_ok Q (eligibleTxs st))); [| exact Hst].
  intros st2 tx Htx Hst2. unfold phase1Tx.
  destruct (priorHopSigned tx (priorHopOf p)); simpl; [exact Hst2 |].
  apply addEligibleTx_ok; [exact Hst2 |].
  exact (offered_on_a_path p txs tx Hp Hlen Hq Htx).
Qed.

Lemma phase2_ok (st : State) :
  map_ok Q (eligibleTxs st) ->
  map_ok Q (eligibleTxs (processUserAccounts call parse pageSize user userKeys st)).
Proof.
  unfold processUserAccounts.
  apply (fold_left_keeps (fun st => map_ok Q (eligibleTxs st))).
  intros st1 adi _ Hst1.
  apply (fold_left_keeps (fun st => map_ok Q (eligibleTxs st))); [| exact Hst1].
  intros st2 accountUrl _ Hst2.
  destruct (queryPending call parse accountUrl pageSize) as [txs|]; [| exact Hst2].
  apply (fold_left_keeps (fun st => map_ok Q (eligibleTxs st))); [| exact Hst2].
  intros st3 tx _ Hst3. unfold phase2Tx.
  destruct (hasUserSigned (tx_signatures tx) userKeys) eqn:Hs; simpl; [exact Hst3 |].
  apply addEligibleTx_ok; [exact Hst3 | apply unsigned_by_user, Hs].
Qed.

Lemma phase3Produced_ok (bookUrl : string) (s : gset string * State) (prodRec : Js.value) :
  map_ok Q (eligibleTxs (snd s)) ->
  map_ok Q (eligibleTxs (snd (phase3Produced call parse userKeys bookUrl s prodRec))).
Proof.
  destruct s as [seen st]. intros Hst. unfold phase3Produced.
  repeat match goal with
         | |- context [if ?b then _ else _] => destruct b eqn:?; try exact Hst
         | |- context [match queryTransaction ?a ?b ?c with _ => _ end] =>
             destruct (queryTransaction a b c) eqn:?; try exact Hst
         end.
  simpl. apply addEligibleTx_ok; [exact Hst |]. apply unsigned_by_user. assumption.
Qed.

Lemma phase3_ok (s : gset string * State) :
  map_ok Q (eligibleTxs (snd s)) ->
  map_ok Q (eligibleTxs (snd (scanSignatureChains call parse user userKeys s))).
Proof.
  unfold scanSignatureChains.
  apply (fold_left_keeps (fun s => map_ok Q (eligibleTxs (snd s)))).
  intros s1 adi _ Hs1.
  apply (fold_left_keeps (fun s => map_ok Q (eligibleTxs (snd s)))); [| exact Hs1].
  intros s2 bookUrl _ Hs2. unfold phase3Book.
  assert (forall records s,
            map_ok Q (eligibleTxs (snd s)) ->
            map_ok Q (eligibleTxs (snd (phase3Records call parse userKeys bookUrl records s))))
    as Hrecords.
  { induction records as [|rec records IH]; intros s0 Hs0; [exact Hs0 |].
    cbn [phase3Records].
    assert (map_ok Q (eligibleTxs
              (snd (fst (phase3Record call parse userKeys bookUrl s0 rec))))) as Hrec.
    { unfold phase3Record.
      repeat match goal with
             | |- context [if ?b then _ else _] => destruct b; try exact Hs0
             | |- context [match Js.iterate ?v with _ => _ end] =>
                 destruct (Js.iterate v); try exact Hs0
             end.
      simpl. apply (fold_left_keeps (fun s => map_ok Q (eligibleTxs (snd s)))); [| exact Hs0].
      intros s3 prodRec _ Hs3. apply phase3Produced_ok, Hs3. }
    destruct (phase3Record call parse userKeys bookUrl s0 rec) as [s' []];
      [apply IH |]; exact Hrec. }
  cbv zeta.
  destruct (snd (querySignatureChain call bookUrl 0 (Js.VNum 1) false))
    as [| | |[|t|t]| | |]; try exact Hs2;
    match goal with
    | |- context [tailQuery ?m ?v] => destruct (tailQuery m v); [| exact Hs2]
    end;
    match goal with
    | |- context [Js.iterate ?v] => destruct (Js.iterate v); [apply Hrecords |]; exact Hs2
    end.
Qed.

Lemma discovery_ok :
  let d := discoverPendingForUser call parse pageSize user signingPaths in
  exists m, map_ok Q m
            /\ eligibleTransactions d = JsMap.values m
            /\ totalCount d = Z.of_nat (length m).
Proof.
  unfold discoverPendingForUser. cbv zeta. eexists. split; [| split; reflexivity].
  apply (phase3_ok (_, _)). simpl. apply phase2_ok, phase1_ok.
  split; [apply NoDup_nil_2 | constructor].
Qed.

End DiscoveryFacts.

(** The result of a discovery lists every transaction once: no two
    entries have the same normalized hash, [totalCount] is the number of
    entries, and every entry names at least one signing path and no
    path twice; whatever the ledger answers. *)
Theorem discovery_lists_each_transaction_once
    (call : Types.Params -> option Js.value)
    (parse : Js.value -> string -> option Types.AccumulatePendingTx)
    (pageSize : Z) (user : Types.CertenUserWithAdis)
    (signingPaths : list Types.SigningPath) :
  let d := PendingDiscoveryService.discoverPendingForUser
             call parse pageSize user signingPaths in
  Types.totalCount d = Z.of_nat (length (Types.eligibleTransactions d))
  /\ NoDup (List.map (fun t => HashNormalizer.normalizeHash (Types.tx_hash (Types.et_tx t)))
                     (Types.eligibleTransactions d))
  /\ Forall (fun t => Types.et_eligiblePaths t <> [] /\ NoDup (Types.et_eligiblePaths t))
            (Types.eligibleTransactions d).
Proof.
  intros d.
  destruct (discovery_ok (fun _ => True) call parse pageSize user signingPaths)
    as (m & [Hk Hm] & He & Hc); [intros; exact I | intros; exact I |].
  fold d in He, Hc. rewrite He, Hc. unfold JsMap.values, JsMap.keys in *.
  rewrite length_map. split; [reflexivity |]. split.
  - rewrite map_map.
    replace (List.map (fun x => HashNormalizer.normalizeHash
                                  (Types.tx_hash (Types.et_tx (snd x)))) m)
      with (List.map fst m); [exact Hk |].
    apply map_ext_Forall. eapply Forall_impl; [exact Hm |].
    intros kv (H & _). exact H.
  - apply Forall_map. eapply Forall_impl; [exact Hm |].
    intros kv (_ & H1 & H2 & _). split; assumption.
Qed.

(** Phases 2 and 3 never list a transaction that carries a signature of
    one of the user's keys: such a transaction is in the result only
    when Phase 1 found it pending at the final signer of a signing path
    of two hops or more. *)
Theorem signed_transactions_come_from_paths
    (call : Types.Params -> option Js.value)
    (parse : Js.value -> string -> option Types.AccumulatePendingTx)
    (pageSize : Z) (user : Types.CertenUserWithAdis)
    (signingPaths : list Types.SigningPath) (t : Types.EligibleTransaction) :
  t ∈ Types.eligibleTransactions
        (PendingDiscoveryService.discoverPendingForUser
           call parse pageSize user signingPaths) ->
  PendingDiscoveryService.hasUserSigned
    (Types.tx_signatures (Types.et_tx t))
    (PendingDiscoveryService.extractUserKeyHashes user) = true ->
  exists p txs,
    p ∈ signingPaths /\ (2 <= length (Types.hops p))%nat
    /\ AccumulateClient.queryPending call parse (Types.finalSigner p) pageSize = Some txs
    /\ Types.et_tx t ∈ txs.
Proof.
  intros Ht Hsigned.
  destruct (discovery_ok
              (fun tx =>
                 PendingDiscoveryService.hasUserSigned (Types.tx_signatures tx)
                   (PendingDiscoveryService.extractUserKeyHashes user) = false
                 \/ exists p txs,
                      p ∈ signingPaths /\ (2 <= length (Types.hops p))%nat
                      /\ AccumulateClient.queryPending call parse (Types.finalSigner p)
                           pageSize = Some txs
                      /\ tx ∈ txs)
              call parse pageSize user signingPaths)
    as (m & [_ Hm] & He & _).
  - intros p txs tx Hp Hlen Hq Htx. right. exists p, txs.
    apply Nat.ltb_ge in Hlen. auto.
  - intros tx H. left. exact H.
  - rewrite He in Ht. unfold JsMap.values in Ht.
    apply list_elem_of_In, in_map_iff in Ht as (kv & <- & Hkv).
    rewrite List.Forall_forall in Hm. destruct (Hm kv Hkv) as (_ & _ & _ & [H|H]).
    + congruence.
    + exact H.
Qed.

Lemma signed_transactions_come_from_paths_witness :
  exists p txs,
    p ∈ [Scenario.bobPath] /\ (2 <= length (Types.hops p))%nat
    /\ AccumulateClient.queryPending Scenario.s3call Scenario.s3parse
         (Types.finalSigner p) 100 = Some txs
    /\ Scenario.tx2 ∈ txs.
Proof.
  apply (signed_transactions_come_from_paths Scenario.s3call Scenario.s3parse 100
           Scenario.bob [Scenario.bobPath]
           (Types.mkEligible Scenario.tx2 [Types.path Scenario.bobPath]
              Types.requiring_signature)).
  - assert (Types.eligibleTransactions
              (PendingDiscoveryService.discoverPendingForUser
                 Scenario.s3call Scenario.s3parse 100 Scenario.bob [Scenario.bobPath])
            = [Types.mkEligible Scenario.tx2 [Types.path Scenario.bobPath]
                 Types.requiring_signature]) as -> by (vm_compute; reflexivity).
    apply list_elem_of_singleton. reflexivity.
  - vm_compute. reflexivity.
Defined.

(** ** The inbox after an update *)

Section InboxFacts.
Import JsString Types HashNormalizer FirestoreClient StateManagerService.

Lemma JsSet_fold_NoDup (xs s0 : list string) :
  NoDup s0 -> NoDup (fold_left (fun s y => JsSet.add y s) xs s0).
Proof.
  revert s0. induction xs as [|x xs IH]; intros s0 H; [exact H |]. simpl. apply IH.
  unfold JsSet.add, JsSet.has. case_bool_decide as Hx; [exact H |].
  apply NoDup_app. split; [exact H |]. split; [| apply NoDup_singleton].
  intros y Hy Hy'. apply list_elem_of_singleton in Hy' as ->. contradiction.
Qed.

Lemma NoDup_JsSet_of_list (xs : list string) : NoDup (JsSet.of_list xs).
Proof. apply JsSet_fold_NoDup, NoDup_nil_2. Qed.

Lemma JsSet_fold_fresh (xs s0 : list string) :
  NoDup (s0 ++ xs) -> fold_left (fun s y => JsSet.add y s) xs s0 = s0 ++ xs.
Proof.
  revert s0. induction xs as [|x xs IH]; intros s0 H; simpl.
  - rewrite app_nil_r. reflexivity.
  - unfold JsSet.add at 2. unfold JsSet.has. case_bool_decide as Hx.
    + apply NoDup_app in H as (_ & H & _). exfalso. apply (H x Hx).
      apply elem_of_cons. left. reflexivity.
    + rewrite IH; rewrite <- app_assoc; [reflexivity | exact H].
Qed.

Lemma JsSet_of_list_NoDup (xs : list string) : NoDup xs -> JsSet.of_list xs = xs.
Proof. intros H. unfold JsSet.of_list. rewrite JsSet_fold_fresh; [reflexivity | exact H]. Qed.

Lemma keyed_ids (docs : gmap string PendingActionDocument) :
  keyed docs -> List.map pad_id (snd <$> map_to_list docs) = (map_to_list docs).*1.
Proof.
  intros Hk. rewrite <- list_fmap_compose. apply list_fmap_ext.
  intros i [k d] Hi. simpl. apply Hk, elem_of_map_to_list.
  apply list_elem_of_lookup. exists i. exact Hi.
Qed.

Lemma countIf_bounds {A : Type} (f : A -> bool) (l : list A) :
  0 <= countIf f l <= Z.of_nat (length l).
Proof. unfold countIf. pose proof (filter_length_le f l). lia. Qed.

Lemma countIf_split {A : Type} (f g : A -> bool) (l : list A) :
  (forall x, g x = negb (f x)) ->
  countIf f l + countIf g l = Z.of_nat (length l).
Proof.
  intros Hfg. unfold countIf. induction l as [|x l IH]; [reflexivity |]. simpl.
  rewrite (Hfg x). destruct (f x); simpl; lia.
Qed.

(** The documents of a batch of writes with distinct ids. *)
Lemma lookup_setById (acts : list PendingActionDocument)
    (docs : gmap string PendingActionDocument) (k : string) :
  NoDup (List.map pad_id acts) ->
  fold_left setById acts docs !! k
  = match List.find (fun a => bool_decide (pad_id a = k)) acts with
    | Some a => Some (mergeDoc (docs !! k) a)
    | None => docs !! k
    end.
Proof.
  revert docs. induction acts as [|a acts IH]; intros docs Hnd; [reflexivity |].
  simpl in Hnd. apply NoDup_cons in Hnd as [Ha Hnd]. simpl. rewrite (IH _ Hnd).
  unfold setById. case_bool_decide as Hk.
  - subst k. rewrite lookup_insert_eq.
    destruct (List.find _ acts) as [b|] eqn:E; [| reflexivity].
    apply find_some in E as [Hb Hid]. apply bool_decide_eq_true in Hid.
    exfalso. apply Ha. rewrite <- Hid. apply list_elem_of_In, in_map, Hb.
  - rewrite lookup_insert_ne by exact Hk. reflexivity.
Qed.

Lemma mergeDoc_twice (old : option PendingActionDocument) (new : PendingActionDocument) :
  mergeDoc (Some (mergeDoc old new)) new = mergeDoc old new.
Proof.
  destruct new as [? ? ? ? ? ? ? ? ? ? ? ? ? [e|] ?], old as [o|]; reflexivity.
Qed.

Lemma setById_twice (acts : list PendingActionDocument)
    (docs : gmap string PendingActionDocument) :
  NoDup (List.map pad_id acts) ->
  fold_left setById acts (fold_left setById acts docs) = fold_left setById acts docs.
Proof.
  intros Hnd. apply map_eq. intros k. rewrite (lookup_setById acts _ k Hnd).
  rewrite (lookup_setById acts docs k Hnd).
  destruct (List.find _ acts); [| reflexivity]. rewrite mergeDoc_twice. reflexivity.
Qed.

Lemma list_to_set_empty_nil (l : list string) :
  list_to_set (C := gset string) l = ∅ -> l = [].
Proof.
  destruct l as [|x l]; [reflexivity |]. intros H. exfalso.
  assert (x ∈ (∅ : gset string)) as Hx; [| set_solver].
  rewrite <- H. set_solver.
Qed.

Lemma NoDup_map_filter {A B : Type} (f : A -> B) (g : A -> bool) (l : list A) :
  NoDup (List.map f l) -> NoDup (List.map f (List.filter g l)).
Proof.
  induction l as [|x l IH]; simpl; [intros H; exact H |].
  intros H. apply NoDup_cons in H as [Hx Hl].
  destruct (g x); simpl; [| exact (IH Hl)].
  apply NoDup_cons. split; [| exact (IH Hl)].
  intros Hin. apply Hx. apply list_elem_of_In in Hin. apply list_elem_of_In.
  apply in_map_iff in Hin as (y & Hy & Hin). apply in_map_iff. exists y.
  split; [exact Hy |]. apply filter_In in Hin as [Hin _]. exact Hin.
Qed.

(** What a committed update does to a store whose documents carry their
    ids, for a discovery whose hashes contain no [/]. *)
Lemma update_spec (now dateNow : Z) (cycleToken : string)
    (discovery : DiscoveryResult) (s : Store) (r : UpdateResult) (s' : Store) :
  keyed (pendingActions s) ->
  Forall (fun h => indexOf "/" h = None) (hashesOf discovery) ->
  updateUserPendingState false now dateNow cycleToken discovery s = Some (r, s') ->
  exists c toAdd,
    documentsOf now discovery = Some toAdd
    /\ computedState s' = Some c
    /\ dom (pendingActions s') = list_to_set (hashesOf discovery)
    /\ keyed (pendingActions s')
    /\ (exists docs0, pendingActions s' = fold_left setById toAdd docs0)
    /\ (dom (pendingActions s) ⊆ list_to_set (hashesOf discovery) ->
        pendingActions s' = fold_left setById toAdd (pendingActions s))
    /\ ur_added r = Z.of_nat (length (hashesOf discovery)) - Z.of_nat (size (pendingActions s))
    /\ ur_removed r
       = Z.of_nat (size (dom (pendingActions s) ∖ list_to_set (hashesOf discovery)))
    /\ cps_txHashes c = JsSet.of_list (hashesOf discovery)
    /\ cps_count c = totalCount discovery
    /\ cps_initiatedCount c + cps_requiresSignatureCount c
       = Z.of_nat (length (eligibleTransactions discovery))
    /\ 0 <= cps_urgentCount c <= Z.of_nat (length (eligibleTransactions discovery)).
Proof.
  intros Hk Hs Hrun.
  destruct (update_committed now dateNow cycleToken discovery s r s' Hk Hs Hrun)
    as (toAdd & c & Hav & Hdocs & Hdoc & -> & Hadd & Hrm & Hh & Hc & Hi & Hq & Hu).
  pose proof (documentsOf_ids now discovery toAdd Hdocs) as Hids.
  destruct (committed_documents discovery s toAdd Hk Hids Hdoc) as [Hdom Hk'].
  assert (list_to_set (C := gset string) (toRemoveOf discovery s)
          = dom (pendingActions s) ∖ list_to_set (hashesOf discovery)) as Hset.
  { unfold toRemoveOf. rewrite (toRemove_ids _ _ Hk). f_equal.
    apply set_eq. intros x. rewrite !elem_of_list_to_set. apply elem_of_JsSet_of_list. }
  assert (NoDup (toRemoveOf discovery s)) as Hrmnd.
  { unfold toRemoveOf. apply NoDup_map_filter. rewrite (keyed_ids _ Hk).
    apply NoDup_fst_map_to_list. }
  exists c, toAdd. cbn [pendingActions computedState].
  split; [exact Hdocs |]. split; [reflexivity |]. split; [exact Hdom |].
  split; [exact Hk' |]. split; [eexists; reflexivity |]. split; [| split; [| split]].
  - intros Hsub. assert (toRemoveOf discovery s = []) as ->; [| reflexivity].
    apply list_to_set_empty_nil. rewrite Hset. set_solver.
  - rewrite Hadd, (keyed_ids _ Hk), JsSet_of_list_NoDup by apply NoDup_fst_map_to_list.
    rewrite length_fmap, length_map_to_list.
    rewrite <- Hids, length_map. reflexivity.
  - rewrite Hrm, <- Hset, size_list_to_set by exact Hrmnd. reflexivity.
  - split; [exact Hh |]. split; [exact Hc |]. split.
    + rewrite Hi, Hq. apply countIf_split. intros t. destruct (et_category t); reflexivity.
    + rewrite Hu. apply countIf_bounds.
Qed.

(** Every document under an id of the batch was written by the batch. *)
Lemma setById_written (P : PendingActionDocument -> Prop)
    (acts : list PendingActionDocument) :
  (forall old a, a ∈ acts -> P (mergeDoc old a)) ->
  forall docs k d,
    fold_left setById acts docs !! k = Some d ->
    P d \/ (docs !! k = Some d /\ k ∉ List.map pad_id acts).
Proof.
  induction acts as [|a acts IH]; intros HP docs k d H; simpl in *.
  - right. split; [exact H | apply not_elem_of_nil].
  - assert (forall old b, b ∈ acts -> P (mergeDoc old b)) as HP'.
    { intros old b Hb. apply HP. apply elem_of_cons. right. exact Hb. }
    destruct (IH HP' _ _ _ H) as [Hd|[Hd Hk]]; [left; exact Hd |].
    unfold setById in Hd. apply lookup_insert_Some in Hd as [[<- <-]|[Hne Hd]].
    + left. apply HP. apply elem_of_cons. left. reflexivity.
    + right. split; [exact Hd |]. apply not_elem_of_cons. split; [congruence | exact Hk].
Qed.

(** The stamps of the documents an update builds. *)
Lemma documentsOf_stamps (now : Z) (discovery : DiscoveryResult)
    (toAdd : list PendingActionDocument) (old : option PendingActionDocument)
    (a : PendingActionDocument) :
  documentsOf now discovery = Some toAdd -> a ∈ toAdd ->
  pad_createdAt (mergeDoc old a) = now /\ pad_updatedAt (mergeDoc old a) = now
  /\ pad_discoveredAt (mergeDoc old a) = now /\ pad_userHasSigned (mergeDoc old a) = false.
Proof.
  unfold documentsOf. intros H Ha. apply mapM_Some_1 in H.
  apply list_elem_of_lookup in Ha as [i Hi].
  destruct (Forall2_lookup_r _ _ _ _ _ H Hi) as (t & _ & Hb).
  apply build_fields in Hb as (_ & H1 & H2 & H3 & H4).
  unfold mergeDoc. destruct old, (pad_expiresAt a); simpl; auto.
Qed.

End InboxFacts.

(** After a committed update of a store whose documents carry their
    ids, from a discovery whose hashes contain no [/], the summary
    document agrees with the inbox: its [txHashes] are, without
    repetition, the ids of the documents now stored; its
    [initiatedCount] and [requiresSignatureCount] add up to the number
    of eligible transactions, and its [urgentCount] does not exceed that
    number.  (A hash with a [/] is stored under another id, or under
    none.) *)
Theorem computed_state_matches_inbox
    (now dateNow : Z) (cycleToken : string)
    (discovery : Types.DiscoveryResult) (s : FirestoreClient.Store)
    (r : Types.UpdateResult) (s' : FirestoreClient.Store) :
  FirestoreClient.keyed (FirestoreClient.pendingActions s) ->
  Forall (fun h => JsString.indexOf "/" h = None) (StateManagerService.hashesOf discovery) ->
  StateManagerService.updateUserPendingState false now dateNow cycleToken discovery s
  = Some (r, s') ->
  exists c,
    FirestoreClient.computedState s' = Some c
    /\ NoDup (Types.cps_txHashes c)
    /\ list_to_set (Types.cps_txHashes c) = dom (FirestoreClient.pendingActions s')
    /\ Types.cps_count c = Types.totalCount discovery
    /\ Types.cps_initiatedCount c + Types.cps_requiresSignatureCount c
       = Z.of_nat (length (Types.eligibleTransactions discovery))
    /\ 0 <= Types.cps_urgentCount c <= Z.of_nat (length (Types.eligibleTransactions discovery)).
Proof.
  intros Hk Hs Hrun.
  destruct (update_spec now dateNow cycleToken discovery s r s' Hk Hs Hrun)
    as (c & toAdd & _ & Hcs & Hdom & _ & _ & _ & _ & _ & Hh & Hc & Hsum & Hurgent).
  exists c. split; [exact Hcs |].
  rewrite Hh, Hdom. split; [apply NoDup_JsSet_of_list |]. split; [| auto].
  apply set_eq. intros x. rewrite !elem_of_list_to_set. apply elem_of_JsSet_of_list.
Qed.

Lemma computed_state_matches_inbox_witness :
  exists r s' c,
    StateManagerService.updateUserPendingState false 2000 2000 "token"
      Scenario.oneDiscovery Scenario.tidyStore = Some (r, s')
    /\ FirestoreClient.computedState s' = Some c
    /\ Types.cps_txHashes c = ["ab12"]
    /\ list_to_set (Types.cps_txHashes c) = dom (FirestoreClient.pendingActions s')
    /\ Types.cps_initiatedCount c = 1.
Proof.
  eexists _, _, _. split; [vm_compute; reflexivity |].
  edestruct (computed_state_matches_inbox 2000 2000 "token"
               Scenario.oneDiscovery Scenario.tidyStore)
    as (c & Hc & _ & Hdom & _);
    [exact tidyStore_keyed | repeat constructor | vm_compute; reflexivity |].
  simpl in Hc. injection Hc as <-.
  split; [reflexivity |]. split; [reflexivity |]. split; [exact Hdom | reflexivity].
Defined.

(** What an update reports.  For a store whose documents carry their
    ids and a discovery without repeated hashes, none of which contains
    a [/], a committed update reports as [added] the net growth of the
    inbox (the number of documents afterwards minus the number before,
    negative when the inbox shrinks) and as [removed] the number of
    documents that were deleted. *)
Theorem update_reports_net_change
    (now dateNow : Z) (cycleToken : string)
    (discovery : Types.DiscoveryResult) (s : FirestoreClient.Store)
    (r : Types.UpdateResult) (s' : FirestoreClient.Store) :
  FirestoreClient.keyed (FirestoreClient.pendingActions s) ->
  Forall (fun h => JsString.indexOf "/" h = None) (StateManagerService.hashesOf discovery) ->
  NoDup (StateManagerService.hashesOf discovery) ->
  StateManagerService.updateUserPendingState false now dateNow cycleToken discovery s
  = Some (r, s') ->
  Types.ur_added r
  = Z.of_nat (size (FirestoreClient.pendingActions s'))
    - Z.of_nat (size (FirestoreClient.pendingActions s))
  /\ Types.ur_removed r
     = Z.of_nat (size (dom (FirestoreClient.pendingActions s)
                       ∖ dom (FirestoreClient.pendingActions s'))).
Proof.
  intros Hk Hs Hnd Hrun.
  destruct (update_spec now dateNow cycleToken discovery s r s' Hk Hs Hrun)
    as (c & toAdd & _ & _ & Hdom & _ & _ & _ & Hadd & Hrm & _).
  rewrite Hadd, Hrm, Hdom. split; [| reflexivity].
  rewrite <- (size_dom (FirestoreClient.pendingActions s')), Hdom, size_list_to_set
    by exact Hnd.
  reflexivity.
Qed.

Lemma update_reports_net_change_witness :
  exists r s',
    StateManagerService.updateUserPendingState false 2000 2000 "token"
      Scenario.emptyDiscovery Scenario.tidyStore = Some (r, s')
    /\ Types.ur_added r = -1
    /\ Types.ur_removed r = 1
    /\ Types.ur_added r
       = Z.of_nat (size (FirestoreClient.pendingActions s'))
         - Z.of_nat (size (FirestoreClient.pendingActions Scenario.tidyStore)).
Proof.
  eexists _, _. split; [vm_compute; reflexivity |].
  split; [reflexivity |]. split; [reflexivity |].
  refine (proj1 (update_reports_net_change 2000 2000 "token"
                   Scenario.emptyDiscovery Scenario.tidyStore _ _
                   tidyStore_keyed ltac:(constructor) ltac:(apply NoDup_nil_2) _)).
  vm_compute. reflexivity.
Defined.

(** Updating twice is updating once.  After a committed update of a
    store whose documents carry their ids, from a discovery without
    repeated hashes, none of which contains a [/], a second committed
    update from the same discovery (at the same Firestore time) leaves
    the documents of the inbox as they are and reports nothing added and
    nothing removed. *)
Theorem update_is_idempotent
    (now dateNow dateNow' : Z) (cycleToken cycleToken' : string)
    (discovery : Types.DiscoveryResult) (s : FirestoreClient.Store)
    (r1 r2 : Types.UpdateResult) (s1 s2 : FirestoreClient.Store) :
  FirestoreClient.keyed (FirestoreClient.pendingActions s) ->
  Forall (fun h => JsString.indexOf "/" h = None) (StateManagerService.hashesOf discovery) ->
  NoDup (StateManagerService.hashesOf discovery) ->
  StateManagerService.updateUserPendingState false now dateNow cycleToken discovery s
  = Some (r1, s1) ->
  StateManagerService.updateUserPendingState false now dateNow' cycleToken' discovery s1
  = Some (r2, s2) ->
  FirestoreClient.pendingActions s2 = FirestoreClient.pendingActions s1
  /\ Types.ur_added r2 = 0
  /\ Types.ur_removed r2 = 0.
Proof.
  intros Hk Hs Hnd Hrun1 Hrun2.
  destruct (update_spec now dateNow cycleToken discovery s r1 s1 Hk Hs Hrun1)
    as (c1 & toAdd & Hdocs & _ & Hdom1 & Hk1 & [docs0 Hd1] & _).
  destruct (update_spec now dateNow' cycleToken' discovery s1 r2 s2 Hk1 Hs Hrun2)
    as (c2 & toAdd' & Hdocs' & _ & Hdom2 & _ & _ & Hsame & Hadd & Hrm & _).
  rewrite Hdocs in Hdocs'. injection Hdocs' as <-.
  pose proof (documentsOf_ids now discovery toAdd Hdocs) as Hids.
  split; [| split].
  - rewrite Hsame by (rewrite Hdom1; reflexivity).
    rewrite Hd1. apply setById_twice. rewrite Hids. exact Hnd.
  - rewrite Hadd, <- (size_dom (FirestoreClient.pendingActions s1)), Hdom1,
      size_list_to_set by exact Hnd.
    lia.
  - rewrite Hrm, Hdom1.
    replace (list_to_set (StateManagerService.hashesOf discovery)
             ∖ list_to_set (StateManagerService.hashesOf discovery))
      with (∅ : gset string) by set_solver.
    reflexivity.
Qed.

Lemma update_is_idempotent_witness :
  exists r1 s1 r2 s2,
    StateManagerService.updateUserPendingState false 2000 2000 "token"
      Scenario.oneDiscovery Scenario.tidyStore = Some (r1, s1)
    /\ StateManagerService.updateUserPendingState false 2000 3000 "other"
         Scenario.oneDiscovery s1 = Some (r2, s2)
    /\ FirestoreClient.pendingActions s2 = FirestoreClient.pendingActions s1
    /\ Types.ur_added r2 = 0
    /\ Types.ur_removed r2 = 0.
Proof.
  eexists _, _, _, _. split; [vm_compute; reflexivity |].
  split; [vm_compute; reflexivity |].
  eapply (update_is_idempotent 2000 2000 3000 "token" "other"
            Scenario.oneDiscovery Scenario.tidyStore).
  - exact tidyStore_keyed.
  - repeat constructor.
  - apply NoDup_singleton.
  - vm_compute. reflexivity.
  - vm_compute. reflexivity.
Defined.

(** An update stamps every document of the inbox anew.  After a
    committed update of a store whose documents carry their ids, from a
    discovery whose hashes contain no [/], each stored document, also
    one that was there before, has [createdAt], [updatedAt] and
    [discoveredAt] equal to the time of this update and [userHasSigned]
    equal to [false]. *)
Theorem update_restamps_every_document
    (now dateNow : Z) (cycleToken : string)
    (discovery : Types.DiscoveryResult) (s : FirestoreClient.Store)
    (r : Types.UpdateResult) (s' : FirestoreClient.Store) :
  FirestoreClient.keyed (FirestoreClient.pendingActions s) ->
  Forall (fun h => JsString.indexOf "/" h = None) (StateManagerService.hashesOf discovery) ->
  StateManagerService.updateUserPendingState false now dateNow cycleToken discovery s
  = Some (r, s') ->
  forall k doc,
    FirestoreClient.pendingActions s' !! k = Some doc ->
    Types.pad_createdAt doc = now /\ Types.pad_updatedAt doc = now
    /\ Types.pad_discoveredAt doc = now /\ Types.pad_userHasSigned doc = false.
Proof.
  intros Hk Hs Hrun k doc Hdoc.
  destruct (update_spec now dateNow cycleToken discovery s r s' Hk Hs Hrun)
    as (c & toAdd & Hdocs & _ & Hdom & _ & [docs0 Hd] & _).
  assert (k ∈ List.map Types.pad_id toAdd) as Hin.
  { rewrite (documentsOf_ids now discovery toAdd Hdocs).
    apply (elem_of_list_to_set (C := gset string)). rewrite <- Hdom.
    apply elem_of_dom. eexists. exact Hdoc. }
  rewrite Hd in Hdoc.
  apply (setById_written
           (fun d => Types.pad_createdAt d = now /\ Types.pad_updatedAt d = now
                     /\ Types.pad_discoveredAt d = now /\ Types.pad_userHasSigned d = false))
    in Hdoc as [H|[_ H]]; [exact H | contradiction |].
  intros old a Ha. exact (documentsOf_stamps now discovery toAdd old a Hdocs Ha).
Qed.

Lemma update_restamps_every_document_witness :
  exists r s' doc,
    StateManagerService.updateUserPendingState false 2000 2000 "token"
      Scenario.oneDiscovery Scenario.tidyStore = Some (r, s')
    /\ FirestoreClient.pendingActions s' !! "ab12" = Some doc
    /\ Types.pad_createdAt doc = 2000.
Proof.
  eexists _, _, _. split; [vm_compute; reflexivity |]. split; [reflexivity |].
  eapply (update_restamps_every_document 2000 2000 "token"
            Scenario.oneDiscovery Scenario.tidyStore _ _
            tidyStore_keyed ltac:(repeat constructor) ltac:(vm_compute; reflexivity) "ab12").
  reflexivity.
Defined.

(** ** The records of the explorer *)

Section ExplorerFacts.
Import JsString Types UrlNormalizer AccumulateClient SigningPathService.
Context (call : Params -> option Js.value) (maxDepth : Z).
Variable P : SigningPath -> Prop.
Hypothesis direct : forall pageUrl, P (directPath pageUrl).
Hypothesis followed :
  forall currentPath target,
    accountExists call target = true ->
    P (mkPath (join " -> " (currentPath ++ [target])) (currentPath ++ [target]) target).

Lemma follow_Forall (fuel : nat) :
  forall src target path depth visited results v' r',
    followDelegationChain call maxDepth fuel src target path depth (visited, results)
    = Some (v', r') ->
    Forall P results -> Forall P r'.
Proof.
  induction fuel as [|fuel IH]; intros src target path depth visited results v' r' H Hr;
    [discriminate |].
  rewrite follow_S in H. cbv zeta in H.
  destruct (bool_decide _ || _)%bool; [injection H as <- <-; exact Hr |].
  destruct (accountExists call (normalizeUrl target)) eqn:Hex; simpl in H;
    [| injection H as <- <-; exact Hr].
  assert (Forall P (results ++ [mkPath (join " -> " (path ++ [normalizeUrl target]))
                                  (path ++ [normalizeUrl target]) (normalizeUrl target)]))
    as Hr1.
  { apply Forall_app. split; [exact Hr |]. repeat constructor. apply followed, Hex. }
  destruct (queryKeyPage call (normalizeUrl target)) as [kp|];
    [| injection H as <- <-; exact Hr1].
  revert H Hr1. generalize (visited ∪ {[normalizeUrl target]}).
  generalize (results ++ [mkPath (join " -> " (path ++ [normalizeUrl target]))
                            (path ++ [normalizeUrl target]) (normalizeUrl target)]).
  induction (liveDelegates (akp_keys kp)) as [|d ds IHds]; intros r v H Hr1.
  - injection H as <- <-. exact Hr1.
  - rewrite forEach_cons in H.
    destruct (followDelegationChain call maxDepth fuel (normalizeUrl target) d
                (path ++ [normalizeUrl target]) (depth + 1) (v, r)) as [[v1 r1]|] eqn:E;
      [| discriminate].
    apply (IHds r1 v1 H). exact (IH _ _ _ _ _ _ _ _ E Hr1).
Qed.

Lemma launch_Forall (fuel : nat) (pageUrl : string) (delegates : list string) (w w' : Walk) :
  launch call maxDepth fuel pageUrl delegates w = Some w' ->
  Forall P (w_paths w) -> Forall P (w_paths w').
Proof.
  unfold launch. intros H Hw.
  destruct (forEach _ delegates _) as [[v ps]|] eqn:E; [| discriminate].
  injection H as <-. simpl.
  assert (Forall P (w_paths w ++ [directPath pageUrl])) as H0.
  { apply Forall_app. split; [exact Hw |]. repeat constructor. apply direct. }
  revert E H0. generalize (w_visited w). generalize (w_paths w ++ [directPath pageUrl]).
  induction delegates as [|d ds IH]; intros r v0 E H0.
  - injection E as <- <-. exact H0.
  - rewrite forEach_cons in E.
    destruct (followDelegationChain call maxDepth fuel pageUrl d [pageUrl] 1 (v0, r))
      as [[v1 r1]|] eqn:E1; [| discriminate].
    apply (IH r1 v1 E). exact (follow_Forall _ _ _ _ _ _ _ _ _ E1 H0).
Qed.

Lemma walk_Forall {A B : Type} (body : A -> Walk * B -> option (Walk * B)) :
  (forall x w b w' b',
     body x (w, b) = Some (w', b') -> Forall P (w_paths w) -> Forall P (w_paths w')) ->
  forall xs w b w' b',
    forEach body xs (w, b) = Some (w', b') ->
    Forall P (w_paths w) -> Forall P (w_paths w').
Proof.
  intros Hb xs. induction xs as [|x xs IH]; intros w b w' b' H Hw.
  - injection H as <- <-. exact Hw.
  - rewrite forEach_cons in H.
    destruct (body x (w, b)) as [[w1 b1]|] eqn:E; [| discriminate].
    apply (IH w1 b1 w' b' H). apply (Hb x w b w1 b1 E Hw).
Qed.

Lemma discoverSigningPaths_Forall (fuel : nat) (userAdi : CertenAdi)
    (paths : list SigningPath) (books : list CertenKeyBook) :
  discoverSigningPaths call maxDepth fuel userAdi = Some (paths, books) ->
  Forall P paths.
Proof.
  unfold discoverSigningPaths.
  destruct (forEach (storedPage call maxDepth fuel) _ _) as [w|] eqn:E; [| discriminate].
  destruct (forEach (liveBook call maxDepth fuel) _ _) as [[w' bs]|] eqn:E2;
    [| discriminate].
  intros H. injection H as <- <-.
  assert (Forall P (w_paths w)) as Hw.
  { assert (Forall P (w_paths (mkWalk [] ∅ ∅))) as Hnil by constructor.
    revert E. revert Hnil. generalize (mkWalk [] ∅ ∅).
    generalize (concat (List.map ckb_keyPages (keyBooks userAdi))).
    intros pages. induction pages as [|kp pages IH]; intros w0 Hw0 E.
    - injection E as <-. exact Hw0.
    - rewrite forEach_cons in E.
      destruct (storedPage call maxDepth fuel kp w0) as [w1|] eqn:E1; [| discriminate].
      apply (IH w1); [| exact E].
      unfold storedPage in E1. destruct (bool_decide _).
      + injection E1 as <-. exact Hw0.
      + exact (launch_Forall _ _ _ _ _ E1 Hw0). }
  apply (walk_Forall (liveBook call maxDepth fuel)) with (3 := Hw) (2 := E2).
  intros bookUrl w0 b0 w1 b1 E1 Hw0. unfold liveBook in E1.
  destruct (queryKeyBookPageCount call bookUrl =? 0); [injection E1 as <- <-; exact Hw0 |].
  destruct (2 ^ 53 <=? queryKeyBookPageCount call bookUrl); [discriminate |].
  destruct (forEach (livePage call maxDepth fuel bookUrl) _ _) as [[w2 pages]|] eqn:E3;
    [| discriminate].
  injection E1 as <- <-.
  apply (walk_Forall (livePage call maxDepth fuel bookUrl)) with (3 := Hw0) (2 := E3).
  intros i w3 b3 w4 b4 E4 Hw3. unfold livePage in E4.
  destruct (bool_decide _); [injection E4 as <- <-; exact Hw3 |].
  destruct (launch call maxDepth fuel _ _ w3) as [w5|] eqn:E5; [| discriminate].
  injection E4 as <- <-. exact (launch_Forall _ _ _ _ _ E5 Hw3).
Qed.

End ExplorerFacts.

Lemma last_snoc_Some {A : Type} (l : list A) (x : A) : last (l ++ [x]) = Some x.
Proof. induction l as [|a [|b l] IH]; simpl in *; auto. Qed.

(** Every path the explorer records is well formed: its final signer is
    its last hop, its [path] string is its hops joined by [" -> "], and
    when it has more than one hop its final signer answered the ledger
    query that tests its existence. *)
Theorem explorer_paths_well_formed (call : Types.Params -> option Js.value) (maxDepth : Z)
    (fuel : nat) (userAdi : Types.CertenAdi)
    (paths : list Types.SigningPath) (books : list Types.CertenKeyBook) :
  SigningPathService.discoverSigningPaths call maxDepth fuel userAdi = Some (paths, books) ->
  forall p, p ∈ paths ->
    last (Types.hops p) = Some (Types.finalSigner p)
    /\ Types.path p = JsString.join " -> " (Types.hops p)
    /\ ((2 <= length (Types.hops p))%nat ->
        AccumulateClient.accountExists call (Types.finalSigner p) = true).
Proof.
  intros H p Hp.
  apply (discoverSigningPaths_Forall call maxDepth
           (fun p => last (Types.hops p) = Some (Types.finalSigner p)
                     /\ Types.path p = JsString.join " -> " (Types.hops p)
                     /\ ((2 <= length (Types.hops p))%nat ->
                         AccumulateClient.accountExists call (Types.finalSigner p) = true)))
    in H.
  - rewrite Forall_forall in H. exact (H p Hp).
  - intros pageUrl. simpl. split; [reflexivity |]. split; [reflexivity | lia].
  - intros currentPath target Hex. simpl.
    split; [apply last_snoc_Some |]. split; [reflexivity | intros _; exact Hex].
Qed.

Lemma explorer_paths_well_formed_witness :
  SigningPathService.discoverSigningPaths Scenario.cycleCall 10 3 Scenario.cycleAdi
  = Some ([Types.mkPath Scenario.pageA [Scenario.pageA] Scenario.pageA;
           Types.mkPath "acc://a.acme/book/1 -> acc://b.acme/book/1"
             [Scenario.pageA; Scenario.pageB] Scenario.pageB;
           Types.mkPath
             "acc://a.acme/book/1 -> acc://b.acme/book/1 -> acc://a.acme/book/1"
             [Scenario.pageA; Scenario.pageB; Scenario.pageA] Scenario.pageA],
          [])
  /\ last [Scenario.pageA; Scenario.pageB] = Some Scenario.pageB
  /\ "acc://a.acme/book/1 -> acc://b.acme/book/1"
     = JsString.join " -> " [Scenario.pageA; Scenario.pageB]
  /\ AccumulateClient.accountExists Scenario.cycleCall Scenario.pageB = true.
Proof.
  split; [vm_compute; reflexivity |].
  destruct (explorer_paths_well_formed Scenario.cycleCall 10 3 Scenario.cycleAdi _ []
              ltac:(vm_compute; reflexivity)
              (Types.mkPath "acc://a.acme/book/1 -> acc://b.acme/book/1"
                 [Scenario.pageA; Scenario.pageB] Scenario.pageB))
    as (H1 & H2 & H3).
  - apply elem_of_cons. right. apply elem_of_cons. left. reflexivity.
  - split; [exact H1 |]. split; [exact H2 |]. apply H3. simpl. lia.
Defined.

(** ** The ledger client *)

Section ClientFacts.
Import JsString Js Types AccumulateClient.

Lemma JsSet_has_add (x y : string) (seen : list string) :
  x ∈ JsSet.add y seen <-> x = y \/ x ∈ seen.
Proof.
  unfold JsSet.add, JsSet.has. case_bool_decide as Hy.
  - split; [auto |]. intros [->|H]; assumption.
  - rewrite elem_of_app, list_elem_of_singleton. tauto.
Qed.

Lemma dedupe_spec (ids seen : list string) :
  NoDup (dedupe seen ids)
  /\ dedupe seen ids `sublist_of` ids
  /\ (forall x, x ∈ dedupe seen ids <-> x ∈ ids /\ x <> "" /\ x ∉ seen).
Proof.
  revert seen. induction ids as [|id ids IH]; intros seen; simpl.
  - split; [apply NoDup_nil_2 |]. split; [reflexivity |].
    intros x. rewrite elem_of_nil. tauto.
  - destruct (IH seen) as (H1 & H2 & H3).
    destruct (IH (JsSet.add id seen)) as (H1' & H2' & H3').
    destruct (is_empty id) eqn:Hid; simpl.
    { destruct id; [| discriminate]. split; [exact H1 |].
      split; [apply sublist_cons, H2 |]. intros x. rewrite H3, elem_of_cons.
      split; [tauto |]. intros [[->|H] [Hne Hs]]; [contradiction | tauto]. }
    assert (id <> "") as Hne by (destruct id; [discriminate | congruence]).
    unfold JsSet.has. case_bool_decide as Hs.
    + split; [exact H1 |]. split; [apply sublist_cons, H2 |].
      intros x. rewrite H3, elem_of_cons.
      split; [tauto |]. intros [[->|H] [Hx Hxs]]; [contradiction | tauto].
    + split; [| split].
      * apply NoDup_cons. split; [| exact H1'].
        rewrite H3'. intros (_ & _ & H). apply H, JsSet_has_add. left. reflexivity.
      * apply sublist_skip, H2'.
      * intros x. rewrite !elem_of_cons, H3', JsSet_has_add.
        destruct (decide (x = id)) as [->|Hx]; [tauto |]. tauto.
Qed.

(** An id stands in the result where its first occurrence stood: the
    ids before it are those read before that occurrence. *)
Lemma dedupe_first (pre : list string) (x : string) (rest seen : list string) :
  x ∉ pre -> x <> "" -> x ∉ seen ->
  exists before after,
    dedupe seen (pre ++ x :: rest) = before ++ x :: after
    /\ (forall y, y ∈ before <-> y ∈ pre /\ y <> "" /\ y ∉ seen).
Proof.
  revert seen. induction pre as [|p pre IH]; intros seen Hpre Hx Hseen.
  - exists [], (dedupe (JsSet.add x seen) rest). split.
    + simpl. destruct x; [contradiction Hx; reflexivity |]. simpl.
      unfold JsSet.has. rewrite bool_decide_eq_false_2 by exact Hseen. reflexivity.
    + intros y. rewrite elem_of_nil. tauto.
  - apply not_elem_of_cons in Hpre as [Hxp Hpre].
    cbn [app dedupe].
    destruct (is_empty p || JsSet.has p seen)%bool eqn:Hp.
    + destruct (IH seen Hpre Hx Hseen) as (before & after & Heq & Hbefore).
      exists before, after. split; [exact Heq |].
      intros y. rewrite Hbefore, elem_of_cons.
      split; [tauto |]. intros [[->|Hy] [Hne Hs]]; [| tauto].
      exfalso. apply orb_true_iff in Hp as [Hp|Hp].
      * destruct p; [contradiction Hne; reflexivity | discriminate].
      * apply bool_decide_eq_true in Hp. contradiction.
    + apply orb_false_iff in Hp as [Hpe Hps].
      unfold JsSet.has in Hps. apply bool_decide_eq_false in Hps.
      assert (p <> "") as Hpne by (destruct p; [discriminate | congruence]).
      destruct (IH (JsSet.add p seen) Hpre Hx) as (before & after & Heq & Hbefore).
      { rewrite JsSet_has_add. intros [->|H]; contradiction. }
      exists (p :: before), after. split; [rewrite Heq; reflexivity |].
      intros y. rewrite !elem_of_cons, Hbefore, JsSet_has_add.
      destruct (decide (y = p)) as [->|Hy]; tauto.
Qed.

Lemma nonempty_string_nonempty (v : value) (t : string) :
  nonempty_string v = Some t -> t <> "".
Proof.
  destruct v as [| | | |s0| |]; simpl; try discriminate.
  destruct s0; simpl; [discriminate |]. intros [= <-]. discriminate.
Qed.

Lemma extractTxId_nonempty (rec : value) (s : string) : extractTxId rec = Some s -> s <> "".
Proof.
  unfold extractTxId. intros H.
  destruct (is_object rec).
  - cbv zeta in H.
    repeat match type of H with
           | context [match nonempty_string ?v with _ => _ end] =>
               destruct (nonempty_string v) eqn:?
           | context [if ?b then _ else _] => destruct b eqn:?
           end;
      try discriminate; try (injection H as <-);
      eauto using nonempty_string_nonempty.
  - destruct rec as [| | | |s0| |]; try discriminate.
    destruct (startsWith "acc://" s0) eqn:E; [| discriminate].
    injection H as <-. destruct s0; [discriminate | discriminate].
Qed.

Lemma pendingPages_nonempty (call : Params -> option value) (pages : nat) :
  forall scope pageSize start txIds raw,
    pendingPages call pages scope pageSize start txIds = Some raw ->
    Forall (fun x => x <> "") txIds -> Forall (fun x => x <> "") raw.
Proof.
  induction pages as [|pages IH]; intros scope pageSize start txIds raw H Hids; simpl in H.
  - injection H as <-. exact Hids.
  - assert (forall records,
              Forall (fun x => x <> "") (txIds ++ extractTxIdsFromRecords records)) as Hnew.
    { intros records. apply Forall_app. split; [exact Hids |].
      apply Forall_forall. intros x Hx. unfold extractTxIdsFromRecords in Hx.
      apply list_elem_of_omap in Hx as (rec & _ & Hrec).
      exact (extractTxId_nonempty rec x Hrec). }
    repeat match type of H with
           | context [match ?c with _ => _ end] =>
               lazymatch c with
               | pendingPages _ _ _ _ _ _ => fail
               | _ => destruct c eqn:?
               end
           end;
      try discriminate; try (injection H as <-); eauto.
Qed.

End ClientFacts.

(** The ids [queryPendingTxIds] returns are distinct and none is empty;
    they are the ids read from the pages, none that was read is lost,
    and they stand in the order of their first occurrence: the ids
    returned before an id [x] are exactly the ids read before the first
    occurrence of [x]. *)
Theorem queryPendingTxIds_distinct (call : Types.Params -> option Js.value)
    (scope : string) (pageSize : Z) (maxPages : nat) (txIds : list string) :
  AccumulateClient.queryPendingTxIds call scope pageSize maxPages = Some txIds ->
  NoDup txIds
  /\ ("" ∉ txIds)
  /\ exists raw,
       AccumulateClient.pendingPages call maxPages scope pageSize 0 [] = Some raw
       /\ txIds `sublist_of` raw
       /\ (forall x, x ∈ raw -> x ∈ txIds)
       /\ (forall pre x rest,
             raw = pre ++ x :: rest -> x ∉ pre ->
             exists before after,
               txIds = before ++ x :: after /\ (forall y, y ∈ before <-> y ∈ pre)).
Proof.
  unfold AccumulateClient.queryPendingTxIds. intros H.
  destruct (AccumulateClient.pendingPages call maxPages scope pageSize 0 []) as [raw|] eqn:E;
    [| discriminate].
  injection H as <-. destruct (dedupe_spec raw []) as (H1 & H2 & H3).
  pose proof (pendingPages_nonempty call maxPages scope pageSize 0 [] raw E (Forall_nil_2 _))
    as Hraw.
  rewrite Forall_forall in Hraw.
  split; [exact H1 |]. split; [rewrite H3; tauto |].
  exists raw. split; [reflexivity |]. split; [exact H2 |]. split.
  - intros x Hx. apply H3. split; [exact Hx |]. split; [| apply not_elem_of_nil].
    exact (Hraw x Hx).
  - intros pre x rest -> Hpre.
    destruct (dedupe_first pre x rest [] Hpre) as (before & after & Heq & Hbefore).
    + apply Hraw, elem_of_app. right. apply elem_of_cons. left. reflexivity.
    + apply not_elem_of_nil.
    + exists before, after. split; [exact Heq |].
      intros y. rewrite Hbefore. split; [tauto |].
      intros Hy. split; [exact Hy |]. split; [| apply not_elem_of_nil].
      apply Hraw, elem_of_app. left. exact Hy.
Qed.

Lemma queryPendingTxIds_distinct_witness :
  AccumulateClient.pendingPages Scenario.repeatingCall 20 "acc://corp.acme/book/1" 100 0 []
  = Some ["acc://aa11@corp.acme/tokens"; "acc://bb22@corp.acme/tokens";
          "acc://aa11@corp.acme/tokens"]
  /\ AccumulateClient.queryPendingTxIds Scenario.repeatingCall "acc://corp.acme/book/1" 100 20
     = Some ["acc://aa11@corp.acme/tokens"; "acc://bb22@corp.acme/tokens"]
  /\ NoDup ["acc://aa11@corp.acme/tokens"; "acc://bb22@corp.acme/tokens"].
Proof.
  split; [vm_compute; reflexivity |]. split; [vm_compute; reflexivity |].
  exact (proj1 (queryPendingTxIds_distinct Scenario.repeatingCall "acc://corp.acme/book/1"
                  100 20 ["acc://aa11@corp.acme/tokens"; "acc://bb22@corp.acme/tokens"]
                  ltac:(vm_compute; reflexivity))).
Defined.

(** The two readers of a transaction status agree on what is pending:
    for every raw reply, the status that Phase 3 extracts is ["pending"]
    exactly when the status the client parses is ["pending"]. *)
Theorem status_readers_agree_on_pending (txRaw : Js.value) :
  PendingDiscoveryService.extractStatus txRaw = "pending"
  <-> AccumulateClient.parseStatusV3 txRaw = "pending".
Proof.
  unfold PendingDiscoveryService.extractStatus, AccumulateClient.parseStatusV3. cbv zeta.
  destruct (Js.field txRaw "status") as [| | | |s|items|fields]; try reflexivity.
  destruct (Js.field (Js.VObj fields) "code") as [| | |code|code| |]; try reflexivity.
  - destruct (code =? 202); [reflexivity |]. destruct (code =? 201); split; discriminate.
  - repeat case_bool_decide; simpl; try tauto; split; congruence.
Qed.

(** ** The statistics of a cycle *)

(** [processUser] counts every user once: when it returns, exactly one
    of [processedUsers], [skippedUsers] and [failedUsers] has grown by
    one; a user is skipped exactly when it has no identity;
    [firestoreWrites] grows with [processedUsers]; [totalUsers] is left
    alone and [totalPending] never decreases. *)
Theorem processUser_counts_each_user_once
    (call : Types.Params -> option Js.value)
    (parse : Js.value -> string -> option Types.AccumulatePendingTx)
    (delegationDepth pendingPageSize : Z) (dryRun : bool)
    (now dateNow : Z) (cycleToken : string) (fuel : nat)
    (user : Types.CertenUserWithAdis)
    (stats stats' : Types.PollStats) (s s' : FirestoreClient.Store) :
  PendingActionsPoller.processUser call parse delegationDepth pendingPageSize dryRun
    now dateNow cycleToken fuel user stats s = Some (stats', s') ->
  Types.processedUsers stats' + Types.skippedUsers stats' + Types.failedUsers stats'
  = Types.processedUsers stats + Types.skippedUsers stats + Types.failedUsers stats + 1
  /\ Types.processedUsers stats <= Types.processedUsers stats'
  /\ Types.skippedUsers stats <= Types.skippedUsers stats'
  /\ Types.failedUsers stats <= Types.failedUsers stats'
  /\ (Types.skippedUsers stats' = Types.skippedUsers stats + 1 <-> Types.adis user = [])
  /\ Types.firestoreWrites stats' - Types.firestoreWrites stats
     = Types.processedUsers stats' - Types.processedUsers stats
  /\ Types.totalUsers stats' = Types.totalUsers stats
  /\ Types.totalPending stats <= Types.totalPending stats'.
Proof.
  unfold PendingActionsPoller.processUser. intros H.
  destruct (Types.adis user) as [|adi rest] eqn:Hadis.
  { injection H as <- <-. simpl. repeat split; intros; try lia; reflexivity. }
  destruct (PendingActionsPoller.allPathsOf call delegationDepth fuel (adi :: rest))
    as [allPaths|]; [| discriminate].
  unfold PendingActionsPoller.processUserBody in H.
  destruct (PendingActionsPoller.updateUserSigningPaths _ s) as [s1|].
  2:{ injection H as <- <-. simpl.
      repeat split; intros; try lia; try discriminate; exfalso; lia. }
  assert (0 <= Types.totalCount
                 (PendingDiscoveryService.discoverPendingForUser call parse pendingPageSize
                    user allPaths)) as Hcount.
  { unfold PendingDiscoveryService.discoverPendingForUser. simpl. lia. }
  destruct (StateManagerService.updateUserPendingState _ _ _ _ _ s1) as [[r s2]|];
    injection H as <- <-; simpl;
    repeat split; intros; try lia; try discriminate; exfalso; lia.
Qed.

Lemma processUser_counts_each_user_once_witness :
  exists stats' s',
    PendingActionsPoller.processUser Scenario.outage Scenario.s3parse 10 100 false
      2000 2000 "token" 3 Scenario.alice Types.createPollStats Scenario.tidyStore
    = Some (stats', s')
    /\ Types.processedUsers stats' + Types.skippedUsers stats' + Types.failedUsers stats'
       = 0 + 0 + 0 + 1.
Proof.
  eexists _, _. split; [vm_compute; reflexivity |].
  refine (proj1 (processUser_counts_each_user_once Scenario.outage Scenario.s3parse 10 100
                   false 2000 2000 "token" 3 Scenario.alice Types.createPollStats _
                   Scenario.tidyStore _ _)).
  vm_compute. reflexivity.
Defined.

(** ** The accounts of an identity *)

Section AccountsFacts.
Import Types UrlNormalizer AccumulateClient PendingDiscoveryService.

Lemma extends_refl (s : list string) : JsSet.extends s s.
Proof. repeat split; auto. Qed.

Lemma extends_trans (s1 s2 s3 : list string) :
  JsSet.extends s1 s2 -> JsSet.extends s2 s3 -> JsSet.extends s1 s3.
Proof. intros (A1 & A2 & A3) (B1 & B2 & B3). repeat split; auto. Qed.

Lemma extends_add (x : string) (s : list string) :
  JsSet.extends s (JsSet.add x s) /\ x ∈ JsSet.add x s.
Proof.
  split; [| apply JsSet_has_add; left; reflexivity].
  unfold JsSet.extends. split; [| split].
  - intros H. apply (JsSet_fold_NoDup [x] s H).
  - intros y Hy. apply JsSet_has_add. right. exact Hy.
  - intros h Hh. unfold JsSet.add. destruct (JsSet.has x s); [exact Hh |].
    destruct s; [discriminate | exact Hh].
Qed.

Lemma extends_fold {A : Type} (f : A -> string) (l : list A) (s : list string) :
  JsSet.extends s (fold_left (fun s a => JsSet.add (f a) s) l s)
  /\ forall a, a ∈ l -> f a ∈ fold_left (fun s a => JsSet.add (f a) s) l s.
Proof.
  revert s. induction l as [|a l IH]; intros s; simpl.
  - split; [apply extends_refl |]. intros a Ha. apply elem_of_nil in Ha. contradiction.
  - destruct (IH (JsSet.add (f a) s)) as [H1 H2].
    destruct (extends_add (f a) s) as [H3 H4].
    split; [exact (extends_trans _ _ _ H3 H1) |].
    intros b Hb. apply elem_of_cons in Hb as [->|Hb]; [| exact (H2 b Hb)].
    apply H1, H4.
Qed.

Lemma extends_fold_nested {A B : Type} (g : A -> list B) (f : A -> B -> string)
    (l : list A) (s : list string) :
  JsSet.extends s
    (fold_left (fun acc a => fold_left (fun acc b => JsSet.add (f a b) acc) (g a) acc) l s).
Proof.
  revert s. induction l as [|a l IH]; intros s; simpl; [apply extends_refl |].
  eapply extends_trans; [| apply IH]. apply (extends_fold (f a)).
Qed.

Lemma fst_fold_pair {A : Type} (f g : A -> string) (l : list A) (s b : list string) :
  fst (fold_left (fun '(acc, books) a => (JsSet.add (f a) acc, JsSet.add (g a) books))
                 l (s, b))
  = fold_left (fun acc a => JsSet.add (f a) acc) l s.
Proof. revert s b. induction l as [|a l IH]; intros s b; simpl; [reflexivity | apply IH]. Qed.

End AccountsFacts.

(** The accounts Phase 2 scans for an identity: the list has no
    duplicates, it starts with the normalized URL of the identity, and
    it holds the normalized URL of every stored account and of every
    stored key book, whatever the ledger answers. *)
Theorem discoverAdiAccounts_covers_the_identity
    (call : Types.Params -> option Js.value) (adi : Types.CertenAdi) :
  let found := PendingDiscoveryService.discoverAdiAccounts call adi in
  NoDup found
  /\ head found = Some (UrlNormalizer.normalizeUrl (Types.adiUrl adi))
  /\ (forall url, url ∈ Types.accounts adi -> UrlNormalizer.normalizeUrl url ∈ found)
  /\ (forall book, book ∈ Types.keyBooks adi ->
        UrlNormalizer.normalizeUrl (UrlNormalizer.normalizeUrl (Types.ckb_url book)) ∈ found).
Proof.
  unfold PendingDiscoveryService.discoverAdiAccounts. cbv zeta.
  set (s0 := JsSet.add (UrlNormalizer.normalizeUrl (Types.adiUrl adi)) []).
  destruct (extends_fold UrlNormalizer.normalizeUrl (Types.accounts adi) s0) as [E1 M1].
  set (s1 := fold_left _ (Types.accounts adi) s0) in *.
  pose proof (fst_fold_pair
                (fun b => UrlNormalizer.normalizeUrl (UrlNormalizer.normalizeUrl (Types.ckb_url b)))
                (fun b => UrlNormalizer.normalizeUrl (Types.ckb_url b))
                (Types.keyBooks adi) s1 []) as Hfst.
  destruct (extends_fold
              (fun b => UrlNormalizer.normalizeUrl (UrlNormalizer.normalizeUrl (Types.ckb_url b)))
              (Types.keyBooks adi) s1) as [E2 M2].
  destruct (fold_left _ (Types.keyBooks adi) (s1, [])) as [s2 books] eqn:Hpair.
  simpl in Hfst. rewrite <- Hfst in E2, M2. clear Hfst.
  destruct (extends_fold UrlNormalizer.normalizeUrl
              (AccumulateClient.queryDirectory call (Types.adiUrl adi) 100) s2) as [E3 _].
  set (s3 := fold_left _ (AccumulateClient.queryDirectory call (Types.adiUrl adi) 100) s2) in *.
  set (allBooks := fold_left _ (AccumulateClient.queryDirectory call (Types.adiUrl adi) 100)
                             books).
  pose proof (extends_fold_nested
                (fun bookUrl => seq 1 (Z.to_nat (AccumulateClient.queryKeyBookPageCount
                                                   call bookUrl)))
                (fun bookUrl (i : nat) =>
                   UrlNormalizer.normalizeUrl (bookUrl +:+ "/" +:+ pretty i))
                allBooks s3) as E4.
  pose proof (extends_trans _ _ _ E1 (extends_trans _ _ _ E2 (extends_trans _ _ _ E3 E4)))
    as (Hnd & Hin & Hhd).
  split; [apply Hnd; subst s0; apply NoDup_singleton |].
  split; [apply Hhd; reflexivity |]. split.
  - intros url Hurl.
    destruct (extends_trans _ _ _ E2 (extends_trans _ _ _ E3 E4)) as (_ & H & _).
    apply H, M1, Hurl.
  - intros book Hbook.
    destruct (extends_trans _ _ _ E3 E4) as (_ & H & _). apply H, (M2 book Hbook).
Qed.

(** ** The explorer ends *)

Section ExplorerEnds.
Import Types UrlNormalizer AccumulateClient SigningPathService.
Context (call : Params -> option Js.value) (maxDepth : Z) (U : gset string).

Hypothesis closed :
  forall url kp d,
    queryKeyPage call url = Some kp ->
    d ∈ liveDelegates (akp_keys kp) ->
    normalizeUrl d ∈ U.

Lemma forEach_total_in {A S : Type} (body : A -> S -> option S) (xs : list A) :
  (forall x, x ∈ xs -> forall s, exists s', body x s = Some s') ->
  forall s, exists r, forEach body xs s = Some r.
Proof.
  induction xs as [|x xs IH]; intros Hb s; [eexists; reflexivity |].
  rewrite forEach_cons.
  destruct (Hb x ltac:(apply elem_of_cons; left; reflexivity) s) as [s' ->].
  apply IH. intros y Hy. apply Hb. apply elem_of_cons. right. exact Hy.
Qed.

Lemma launch_total (fuel : nat) (pageUrl : string) (delegates : list string) (w : Walk) :
  (size U < fuel)%nat ->
  (forall d, d ∈ delegates -> normalizeUrl d ∈ U) ->
  exists w', launch call maxDepth fuel pageUrl delegates w = Some w'.
Proof.
  intros Hfuel Hds. unfold launch.
  destruct (loop_ok call maxDepth U closed fuel pageUrl [pageUrl] 1
              (follow_ok_all call maxDepth U closed fuel)
              delegates (w_visited w) (w_paths w ++ [directPath pageUrl]) Hds)
    as (v' & new & -> & _); [| eexists; reflexivity].
  assert (size (U ∖ w_visited w) <= size U)%nat by (apply subseteq_size; set_solver).
  lia.
Qed.

Lemma livePage_total (fuel : nat) (bookUrl : string) (i : nat)
    (s : Walk * list CertenKeyPage) :
  (size U < fuel)%nat -> exists s', livePage call maxDepth fuel bookUrl i s = Some s'.
Proof.
  intros Hfuel. destruct s as [w pages]. unfold livePage.
  destruct (bool_decide _); [eexists; reflexivity |].
  destruct (queryKeyPage call (normalizeUrl (bookUrl +:+ "/" +:+ pretty i))) as [kp|] eqn:E.
  - destruct (launch_total fuel (normalizeUrl (bookUrl +:+ "/" +:+ pretty i))
                (liveDelegates (akp_keys kp)) w Hfuel) as [w' ->];
      [| eexists; reflexivity].
    intros d Hd. exact (closed _ kp d E Hd).
  - destruct (launch_total fuel (normalizeUrl (bookUrl +:+ "/" +:+ pretty i)) [] w Hfuel)
      as [w' ->]; [| eexists; reflexivity].
    intros d Hd. apply elem_of_nil in Hd. contradiction.
Qed.

Lemma liveBook_total (fuel : nat) (bookUrl : string) (s : Walk * list CertenKeyBook) :
  queryKeyBookPageCount call bookUrl < 2 ^ 53 ->
  (size U < fuel)%nat -> exists s', liveBook call maxDepth fuel bookUrl s = Some s'.
Proof.
  intros Hcount Hfuel. destruct s as [w books]. unfold liveBook.
  destruct (queryKeyBookPageCount call bookUrl =? 0); [eexists; reflexivity |].
  rewrite (proj2 (Z.leb_gt _ _) Hcount).
  destruct (forEach_total (livePage call maxDepth fuel bookUrl)
              (fun i s => livePage_total fuel bookUrl i s Hfuel)
              (seq 1 (Z.to_nat (queryKeyBookPageCount call bookUrl))) (w, []))
    as [[w' pages] ->].
  eexists. reflexivity.
Qed.

Lemma discoverSigningPaths_total (fuel : nat) (userAdi : CertenAdi) :
  (forall bookUrl, queryKeyBookPageCount call bookUrl < 2 ^ 53) ->
  (forall book page d,
     book ∈ keyBooks userAdi -> page ∈ ckb_keyPages book ->
     d ∈ extractDelegates page -> normalizeUrl d ∈ U) ->
  (size U < fuel)%nat ->
  exists r, discoverSigningPaths call maxDepth fuel userAdi = Some r.
Proof.
  intros Hcount Hstored Hfuel. unfold discoverSigningPaths.
  destruct (forEach_total_in (storedPage call maxDepth fuel)
              (concat (List.map ckb_keyPages (keyBooks userAdi)))) with (s := mkWalk [] ∅ ∅)
    as [w ->].
  { intros page Hpage w. unfold storedPage.
    destruct (bool_decide _); [eexists; reflexivity |].
    apply launch_total; [exact Hfuel |].
    apply list_elem_of_In, in_concat in Hpage as (pages & Hpages & Hin).
    apply in_map_iff in Hpages as (book & <- & Hbook).
    intros d Hd. apply (Hstored book page d); [| | exact Hd]; apply list_elem_of_In; assumption. }
  match goal with
  | |- context [forEach (liveBook call maxDepth fuel) ?books (w, [])] =>
      destruct (forEach_total (liveBook call maxDepth fuel)
                  (fun b s => liveBook_total fuel b s (Hcount b) Hfuel) books (w, []))
        as [[w' found] ->]
  end.
  eexists. reflexivity.
Qed.

End ExplorerEnds.

Section ExplorerNeverEnds.
Import JsString Js Types UrlNormalizer AccumulateClient SigningPathService.
Context (call : Params -> option value) (maxDepth : Z).

Lemma forEach_None_in {A S : Type} (body : A -> S -> option S) (x : A) (xs : list A) :
  (forall s, body x s = None) -> x ∈ xs -> forall s, forEach body xs s = None.
Proof.
  intros Hx. induction xs as [|y ys IH]; intros Hin s.
  - apply elem_of_nil in Hin. contradiction.
  - rewrite forEach_cons. apply elem_of_cons in Hin as [<-|Hin].
    + rewrite Hx. reflexivity.
    + destruct (body y s); [apply IH, Hin | reflexivity].
Qed.

Lemma elem_of_fold_add {A : Type} (f : A -> string) (ys : list A) (s0 : list string)
    (x : string) :
  x ∈ fold_left (fun s y => JsSet.add (f y) s) ys s0
  <-> x ∈ s0 \/ exists y, y ∈ ys /\ f y = x.
Proof.
  revert s0. induction ys as [|y ys IH]; intros s0; simpl.
  - split; [auto |]. intros [H|(y & Hy & _)]; [exact H |].
    apply elem_of_nil in Hy. contradiction.
  - rewrite IH, JsSet_has_add. split.
    + intros [[->|H]|(z & Hz & Hf)]; [right | left; exact H | right].
      * exists y. split; [apply elem_of_cons; left; reflexivity | reflexivity].
      * exists z. split; [apply elem_of_cons; right; exact Hz | exact Hf].
    + intros [H|(z & Hz & Hf)]; [left; right; exact H |].
      apply elem_of_cons in Hz as [->|Hz]; [left; left; symmetry; exact Hf |].
      right. exists z. split; assumption.
Qed.

Lemma discoverSigningPaths_endless (fuel : nat) (userAdi : CertenAdi) (book : CertenKeyBook) :
  book ∈ keyBooks userAdi ->
  2 ^ 53 <= queryKeyBookPageCount call (normalizeUrl (ckb_url book)) ->
  discoverSigningPaths call maxDepth fuel userAdi = None.
Proof.
  intros Hbook Hcount. unfold discoverSigningPaths.
  destruct (forEach (storedPage call maxDepth fuel) _ _) as [w|]; [| reflexivity].
  rewrite (forEach_None_in (liveBook call maxDepth fuel) (normalizeUrl (ckb_url book)));
    [reflexivity | |].
  - intros [w0 books]. unfold liveBook.
    destruct (Z.eqb_spec (queryKeyBookPageCount call (normalizeUrl (ckb_url book))) 0) as [E|_].
    + rewrite E in Hcount. exfalso. revert Hcount. vm_compute. intros H. apply H. reflexivity.
    + rewrite (proj2 (Z.leb_le _ _) Hcount). reflexivity.
  - apply elem_of_fold_add. left. apply elem_of_fold_add. right.
    exists book. split; [exact Hbook | reflexivity].
Qed.

End ExplorerNeverEnds.

Lemma stored_cycle_closed :
  forall book page d,
    book ∈ Types.keyBooks Scenario.cycleAdi -> page ∈ Types.ckb_keyPages book ->
    d ∈ SigningPathService.extractDelegates page ->
    UrlNormalizer.normalizeUrl d ∈ ({[Scenario.pageA; Scenario.pageB]} : gset string).
Proof.
  intros book page d Hbook Hpage Hd.
  apply list_elem_of_singleton in Hbook as ->. simpl in Hpage.
  apply list_elem_of_singleton in Hpage as ->.
  apply list_elem_of_singleton in Hd as ->.
  apply elem_of_union. right. apply elem_of_singleton. reflexivity.
Qed.

(** The explorer ends on every finite delegation graph whose key books
    report a page count below [2^53].  When the normal forms of all
    delegates (those stored with the identity and those of every key
    page the ledger serves) lie in a finite set [U], and every page
    count the client returns is below [2^53], [discoverSigningPaths]
    returns, and returns the same result, with every fuel above the size
    of [U].  The bound on the page counts is needed: the client passes
    on any number of the reply, and when a stored key book reports
    [2^53] pages or more the page loop never ends, so
    [discoverSigningPaths] does not return. *)
Theorem discoverSigningPaths_terminates
    (call : Types.Params -> option Js.value) (maxDepth : Z) (U : gset string)
    (userAdi : Types.CertenAdi) :
  (forall url kp d,
     AccumulateClient.queryKeyPage call url = Some kp ->
     d ∈ SigningPathService.liveDelegates (Types.akp_keys kp) ->
     UrlNormalizer.normalizeUrl d ∈ U) ->
  (forall book page d,
     book ∈ Types.keyBooks userAdi -> page ∈ Types.ckb_keyPages book ->
     d ∈ SigningPathService.extractDelegates page -> UrlNormalizer.normalizeUrl d ∈ U) ->
  ((forall bookUrl, AccumulateClient.queryKeyBookPageCount call bookUrl < 2 ^ 53) ->
   exists paths books,
     forall fuel,
       (size U < fuel)%nat ->
       SigningPathService.discoverSigningPaths call maxDepth fuel userAdi
       = Some (paths, books))
  /\ (forall book,
        book ∈ Types.keyBooks userAdi ->
        2 ^ 53 <= AccumulateClient.queryKeyBookPageCount call
                    (UrlNormalizer.normalizeUrl (Types.ckb_url book)) ->
        forall fuel,
          SigningPathService.discoverSigningPaths call maxDepth fuel userAdi = None).
Proof.
  intros closed stored. split.
  - intros Hcount.
    destruct (discoverSigningPaths_total call maxDepth U closed (S (size U)) userAdi
                Hcount stored (Nat.lt_succ_diag_r _)) as [[paths books] Hrun].
    exists paths, books. intros fuel Hfuel.
    apply discoverSigningPaths_mono with (2 := Hrun). lia.
  - intros book Hbook Hcount fuel.
    exact (discoverSigningPaths_endless call maxDepth fuel userAdi book Hbook Hcount).
Qed.

Lemma discoverSigningPaths_terminates_witness :
  exists paths books,
    forall fuel,
      (size ({[Scenario.pageA; Scenario.pageB]} : gset string) < fuel)%nat ->
      SigningPathService.discoverSigningPaths Scenario.cycleCall 10 fuel Scenario.cycleAdi
      = Some (paths, books).
Proof.
  apply (proj1 (discoverSigningPaths_terminates Scenario.cycleCall 10
                  {[Scenario.pageA; Scenario.pageB]} Scenario.cycleAdi
                  cycle_closed stored_cycle_closed)).
  intros bookUrl. unfold AccumulateClient.queryKeyBookPageCount, Scenario.cycleCall.
  repeat destruct (decide _); vm_compute; reflexivity.
Defined.

(** ** Stored and live key pages *)

Lemma omap_map {A B C : Type} (f : B -> option C) (g : A -> B) (l : list A) :
  omap f (List.map g l) = omap (fun x => f (g x)) l.
Proof.
  induction l as [|x l IH]; [reflexivity |].
  cbn [List.map]. cbn [omap list_omap]. rewrite IH. reflexivity.
Qed.

Lemma omap_pointwise {A B : Type} (f g : A -> option B) (l : list A) :
  (forall x, f x = g x) -> omap f l = omap g l.
Proof.
  intros H. induction l as [|x l IH]; [reflexivity |].
  cbn [omap list_omap]. rewrite (H x), IH. reflexivity.
Qed.

(** The stored form of a live key page names the same delegates:
    [extractDelegates] on the page that [toFirestoreKeyPage] builds
    gives what the walk reads from the live page, entry for entry, so a
    page stored by one cycle is explored like the ledger's page. *)
Theorem stored_page_keeps_delegates (akp : Types.AccumulateKeyPage) :
  SigningPathService.extractDelegates (SigningPathService.toFirestoreKeyPage akp)
  = SigningPathService.liveDelegates (Types.akp_keys akp)
  /\ Types.ckp_url (SigningPathService.toFirestoreKeyPage akp) = Types.akp_url akp
  /\ length (Types.ckp_entries (SigningPathService.toFirestoreKeyPage akp))
     = length (Types.akp_keys akp)
  /\ Forall (fun entry =>
               Types.cke_type entry = Types.delegate
               <-> exists d, Types.cke_delegateUrl entry = Some d)
            (Types.ckp_entries (SigningPathService.toFirestoreKeyPage akp)).
Proof.
  unfold SigningPathService.extractDelegates, SigningPathService.liveDelegates,
    SigningPathService.toFirestoreKeyPage. simpl.
  split; [| split; [reflexivity | split; [apply length_map |]]].
  - rewrite omap_map. apply omap_pointwise. intros k. simpl.
    destruct (Types.ake_delegate k) as [d|]; simpl; [| reflexivity].
    destruct (JsString.is_empty d) eqn:E; simpl; [reflexivity |]. rewrite E. reflexivity.
  - apply Forall_map, Forall_forall. intros k _. simpl.
    destruct (Types.ake_delegate k) as [d|]; simpl.
    + destruct (JsString.is_empty d); simpl; split; try discriminate; eauto.
      intros [? ?]. discriminate.
    + split; [discriminate |]. intros [? ?]. discriminate.
Qed.

(** ** Clearing the inbox *)

(** [clearPendingActions] empties the subcollection of a reachable
    store, also when its documents do not carry their ids, and leaves
    the summary document as it was. *)
Theorem clearPendingActions_empties (s : FirestoreClient.Store) :
  FirestoreClient.available s = true ->
  exists s',
    FirestoreClient.clearPendingActions s = Some s'
    /\ FirestoreClient.pendingActions s' = ∅
    /\ FirestoreClient.getPendingActions s' = Some []
    /\ FirestoreClient.getComputedState s' = Some (FirestoreClient.computedState s).
Proof.
  intros Hav. unfold FirestoreClient.clearPendingActions. rewrite Hav.
  assert (forall (docs : list (string * Types.PendingActionDocument))
                 (m : gmap string Types.PendingActionDocument),
            dom (fold_left (fun m (doc : string * Types.PendingActionDocument) =>
                              delete (fst doc) m) docs m)
            = dom m ∖ (list_to_set (docs.*1) : gset string)) as Hfold.
  { induction docs as [|[k d] docs IH]; intros m; simpl; [set_solver |].
    rewrite IH, dom_delete_L. set_solver. }
  destruct (map_to_list (FirestoreClient.pendingActions s)) as [|kv docs] eqn:E.
  - apply map_to_list_empty_iff in E. exists s. split; [reflexivity |].
    unfold FirestoreClient.getPendingActions, FirestoreClient.getComputedState.
    rewrite Hav, E, map_to_list_empty. auto.
  - eexists. split; [reflexivity |].
    assert (fold_left (fun m (doc : string * Types.PendingActionDocument) =>
                         delete (fst doc) m) (kv :: docs) (FirestoreClient.pendingActions s)
            = ∅) as Hempty.
    { apply dom_empty_inv_L. rewrite Hfold, <- E.
      apply set_eq. intros x. rewrite elem_of_difference, elem_of_list_to_set.
      rewrite elem_of_dom, elem_of_empty. split; [| tauto]. intros [[d Hd] Hx].
      apply Hx. apply list_elem_of_fmap. exists (x, d).
      split; [reflexivity | apply elem_of_map_to_list, Hd]. }
    unfold FirestoreClient.getPendingActions, FirestoreClient.getComputedState.
    cbn [FirestoreClient.pendingActions FirestoreClient.available
         FirestoreClient.computedState].
    rewrite Hempty, map_to_list_empty. auto.
Qed.

Lemma clearPendingActions_empties_witness :
  exists s',
    FirestoreClient.clearPendingActions Scenario.staleStore = Some s'
    /\ FirestoreClient.pendingActions s' = ∅
    /\ FirestoreClient.getPendingActions s' = Some []
    /\ FirestoreClient.getComputedState s' = Some None.
Proof. exact (clearPendingActions_empties Scenario.staleStore eq_refl). Defined.

(** ** Document ids *)

Section DocIdFacts.
Import JsString UrlNormalizer.

Lemma escape_reads_back (c : ascii) :
  let n := nat_of_ascii c in
  hex_value (hex_digit (n / 16)) = Some (n / 16)%nat
  /\ hex_value (hex_digit (n mod 16)) = Some (n mod 16)%nat
  /\ ascii_of_nat (16 * (n / 16) + n mod 16) = c.
Proof. destruct c as [[] [] [] [] [] [] [] []]; vm_compute; auto. Qed.

Lemma unreserved_no_percent (c : ascii) : is_unreserved c = true -> c <> "%"%char.
Proof. intros H ->. vm_compute in H. discriminate. Qed.

Lemma encoded_chars (c : ascii) :
  let n := nat_of_ascii c in
  (is_unreserved c = true -> c <> "/"%char)
  /\ hex_digit (n / 16) <> "/"%char /\ hex_digit (n mod 16) <> "/"%char.
Proof.
  destruct c as [[] [] [] [] [] [] [] []]; vm_compute;
    (split; [| split]); intros; discriminate.
Qed.

Lemma encodeURIComponent_no_slash (s : string) :
  indexOf "/" (encodeURIComponent s) = None.
Proof.
  induction s as [|c r IH]; [reflexivity |]. cbn [encodeURIComponent].
  destruct (encoded_chars c) as (H1 & H2 & H3).
  destruct (is_unreserved c) eqn:E; cbv zeta; cbn [indexOf].
  - destruct (decide (c = "/"%char)) as [Hc|_]; [exfalso; exact (H1 eq_refl Hc) |].
    rewrite IH. reflexivity.
  - destruct (decide ("%"%char = "/"%char)); [discriminate |].
    destruct (decide (hex_digit (nat_of_ascii c / 16) = "/"%char)); [contradiction |].
    destruct (decide (hex_digit (nat_of_ascii c mod 16) = "/"%char)); [contradiction |].
    rewrite IH. reflexivity.
Qed.

Lemma decode_encode (s : string) :
  all_chars is_ascii s = true ->
  decodeURIComponent (encodeURIComponent s) = Some s.
Proof.
  unfold decodeURIComponent.
  assert (exists octets,
            unescape (encodeURIComponent s) = Some octets
            /\ (all_chars is_ascii s = true -> assemble octets = Some s)) as (o & -> & H);
    [| exact H].
  induction s as [|c r (o & Ho & IH)]; [exists []; split; reflexivity |].
  cbn [encodeURIComponent all_chars].
  destruct (is_unreserved c) eqn:E.
  - exists ((false, c) :: o). cbn [unescape].
    destruct (decide (c = "%"%char)) as [Hc|_];
      [exfalso; exact (unreserved_no_percent c E Hc) |].
    rewrite Ho. split; [reflexivity |]. intros H. apply andb_true_iff in H as [_ H].
    cbn [assemble]. rewrite (IH H). reflexivity.
  - exists ((true, c) :: o). cbv zeta. cbn [unescape].
    destruct (decide ("%"%char = "%"%char)); [| contradiction].
    destruct (escape_reads_back c) as (H1 & H2 & H3). rewrite H1, H2, H3, Ho.
    split; [reflexivity |]. intros H. apply andb_true_iff in H as [Hc H].
    cbn [assemble]. cbv zeta. unfold is_ascii in Hc. rewrite Hc, (IH H). reflexivity.
Qed.

Lemma is_ascii_lower_char (c : ascii) : is_ascii (lower_char c) = is_ascii c.
Proof. destruct c as [[] [] [] [] [] [] [] []]; reflexivity. Qed.

Lemma toLowerCase_keeps_ascii (s : string) :
  all_chars is_ascii (toLowerCase s) = all_chars is_ascii s.
Proof.
  induction s as [|c r IH]; [reflexivity |]. cbn [toLowerCase all_chars].
  rewrite is_ascii_lower_char, IH. reflexivity.
Qed.

Lemma trimStart_keeps_class (f : ascii -> bool) (s : string) :
  all_chars f s = true -> all_chars f (trimStart s) = true.
Proof.
  induction s as [|c r IH]; [reflexivity |]. cbn [trimStart].
  destruct (is_ws c); [| intros H; exact H].
  cbn [all_chars]. intros H. apply andb_true_iff in H as [_ H]. exact (IH H).
Qed.

Lemma trimEnd_keeps_class (f : ascii -> bool) (s : string) :
  all_chars f s = true -> all_chars f (trimEnd s) = true.
Proof.
  induction s as [|c r IH]; [reflexivity |]. cbn [trimEnd all_chars].
  intros H. apply andb_true_iff in H as [Hc Hr]. specialize (IH Hr).
  destruct (trimEnd r); [destruct (is_ws c); [reflexivity |] |];
    cbn [all_chars] in *; rewrite Hc; [reflexivity | exact IH].
Qed.

Lemma substring_from_keeps_class (f : ascii -> bool) (n : nat) (s : string) :
  all_chars f s = true -> all_chars f (substring_from n s) = true.
Proof.
  revert s. induction n as [|n IH]; intros [|c r] H; try exact H; try reflexivity.
  cbn [substring_from]. cbn [all_chars] in H. apply andb_true_iff in H as [_ H].
  exact (IH r H).
Qed.

Lemma slice_keeps_class (f : ascii -> bool) (s : string) :
  all_chars f s = true -> all_chars f (slice_0_m1 s) = true.
Proof.
  induction s as [|c r IH]; [reflexivity |]. cbn [all_chars]. intros H.
  apply andb_true_iff in H as [Hc Hr]. cbn [slice_0_m1].
  destruct r as [|d r']; [reflexivity |]. cbn [all_chars]. rewrite Hc.
  exact (IH Hr).
Qed.

Lemma normalizeUrl_ascii (url : string) :
  all_chars is_ascii url = true -> all_chars is_ascii (normalizeUrl url) = true.
Proof.
  intros H. unfold normalizeUrl. destruct (is_empty url); [reflexivity |]. cbv zeta.
  assert (all_chars is_ascii (trim (toLowerCase url)) = true) as Ht.
  { unfold trim. apply trimEnd_keeps_class, trimStart_keeps_class.
    rewrite toLowerCase_keeps_ascii. exact H. }
  set (t := trim (toLowerCase url)) in *.
  assert (all_chars is_ascii
            (if startsWith "acc://" t then t
             else if startsWith "acc:" t then "acc://" +:+ substring_from 4 t
                  else "acc://" +:+ t) = true) as Hp.
  { destruct (startsWith "acc://" t); [exact Ht |].
    destruct (startsWith "acc:" t); rewrite all_chars_append;
      [rewrite substring_from_keeps_class by exact Ht | rewrite Ht]; reflexivity. }
  destruct (endsWith_char "/" _); [apply slice_keeps_class |]; exact Hp.
Qed.

End DocIdFacts.

(** A document id made from a URL never contains a slash, and it can be
    read back: for a URL of ASCII characters, decoding the id gives the
    normalized URL. *)
Theorem doc_id_round_trip (url : string) :
  JsString.indexOf "/" (UrlNormalizer.encodeUrlForDocId url) = None
  /\ (JsString.all_chars JsString.is_ascii url = true ->
      UrlNormalizer.decodeDocIdToUrl (UrlNormalizer.encodeUrlForDocId url)
      = Some (UrlNormalizer.normalizeUrl url)).
Proof.
  unfold UrlNormalizer.encodeUrlForDocId, UrlNormalizer.decodeDocIdToUrl.
  split; [apply encodeURIComponent_no_slash |].
  intros H. apply decode_encode, normalizeUrl_ascii, H.
Qed.

Lemma doc_id_round_trip_witness :
  UrlNormalizer.encodeUrlForDocId "acc://Alice.acme/Book/1 "
  = "acc%3A%2F%2Falice.acme%2Fbook%2F1"
  /\ UrlNormalizer.decodeDocIdToUrl "acc%3A%2F%2Falice.acme%2Fbook%2F1"
     = Some "acc://alice.acme/book/1".
Proof.
  split; [vm_compute; reflexivity |].
  exact (proj2 (doc_id_round_trip "acc://Alice.acme/Book/1 ") eq_refl).
Defined.
